(** * monadblitz relayer: a shallow embedding and its verification

    The development follows the relayer service ([relayer/src/index.ts]):
    its rate limiter, its digest and signature functions, its submission
    queue with the table of moves in flight, and its HTTP handlers; the
    helpers shared with the client ([lib/arena.ts]) and the name entry of
    the client; and the [Arena] contract ([Arena.sol]): its digests, its
    storage and its entry points.  Part I embeds the code, Part II proves
    the properties.

    Conventions.
    - JavaScript [number]/[bigint] values and Solidity integers are [Z];
      range checks performed by the code are written out.
    - Byte arrays ([Uint8Array], Solidity [bytes]) are [list Z] with every
      element in [0, 256).
    - Strings that carry hexadecimal data, addresses or error messages are
      [string] (sequences of 8-bit characters); names, which are sliced by
      UTF-16 code unit, are lists of code units.
    - A function that can throw returns [option] (with [None] for the
      exception) or a sum with the error on the left.
    - Promises are cells of a heap; the event loop is a step relation with
      one step per promise job and per outside event.
    - The storage of the contract is a record of finite maps, a mapping
      reading as zero where nothing was written; a transaction that
      reverts leaves the storage as it was. *)

From stdpp Require Import gmap strings list.
From Stdlib Require Import ZArith Lia Ascii.

(* ================================================================== *)
(** * Part I: the embedding                                            *)
(* ================================================================== *)

(** ** Rate limiter ([relayer/src/index.ts], lines 120-138) *)

Module RateLimit.

(** The value stored in [ipHits]: [{ count: number; resetAt: number }]. *)
Record entry := Entry { count : Z; resetAt : Z }.

Definition windowMs : Z := 2000.
Definition max : Z := 25.

(** What the middleware does with the request: [next()] or
    [res.status(429).json(...)]. *)
Inductive decision := Next | Reject (status : Z).

(** [rateLimit].  [ip] is the origin key computed on the first line of the
    function, [now] the value of [Date.now()]. *)
Definition rateLimit (ip : string) (now : Z) (ipHits : gmap string entry)
  : decision * gmap string entry :=
  match ipHits !! ip with
  | Some e =>
      if (now >? resetAt e)%Z
      then (Next, <[ip := Entry 1 (now + windowMs)]> ipHits)
      else
        let e' := Entry (count e + 1) (resetAt e) in
        if (count e' >? max)%Z
        then (Reject 429, <[ip := e']> ipHits)
        else (Next, <[ip := e']> ipHits)
  | None => (Next, <[ip := Entry 1 (now + windowMs)]> ipHits)
  end.

(** The middleware is synchronous, so requests pass through it one after
    the other in arrival order.  [serve] threads [ipHits] through a list of
    requests (origin key, arrival time) and records each decision. *)
Fixpoint serve (reqs : list (string * Z)) (ipHits : gmap string entry)
  : list (string * decision) :=
  match reqs with
  | [] => []
  | (ip, now) :: rest =>
      let '(d, ipHits') := rateLimit ip now ipHits in
      (ip, d) :: serve rest ipHits'
  end.

(** Arrival times, respectively decisions, of the requests of one origin. *)
Definition times_of (ip : string) (reqs : list (string * Z)) : list Z :=
  (filter (λ r, r.1 = ip) reqs).*2.

Definition decisions_of (ip : string) (ds : list (string * decision))
  : list decision :=
  (filter (λ r, r.1 = ip) ds).*2.

(** Decisions for [n] further requests inside a window whose counter
    stands at [c]. *)
Fixpoint in_window (c : Z) (n : nat) : list decision :=
  match n with
  | O => []
  | S n' =>
      (if (c + 1 >? max)%Z then Reject 429 else Next) :: in_window (c + 1) n'
  end.

End RateLimit.

(** ** Library functions of the JavaScript runtime and of ethers (v6) *)

Module Js.

(** *** Strings of 8-bit characters *)

(** [String.prototype.toLowerCase], on the ASCII letters.  The strings it
    is applied to in the relayer are addresses and error messages; no
    character outside ASCII lower-cases to an ASCII character that occurs
    in an address or in the phrases searched for. *)
Definition lower_ascii (a : ascii) : ascii :=
  let n := nat_of_ascii a in
  if (65 <=? n)%nat && (n <=? 90)%nat then ascii_of_nat (n + 32) else a.

Fixpoint toLowerCase (s : string) : string :=
  match s with
  | EmptyString => EmptyString
  | String a s' => String (lower_ascii a) (toLowerCase s')
  end.

(** [String.prototype.includes]. *)
Fixpoint includes (s needle : string) : bool :=
  if String.prefix needle s then true
  else match s with
       | EmptyString => false
       | String _ s' => includes s' needle
       end.

(** [String.prototype.startsWith]. *)
Definition startsWith (s p : string) : bool := String.prefix p s.

(** *** Hexadecimal data: ethers [hexlify] and [getBytes] *)

Definition HexCharacters : list ascii :=
  String.list_ascii_of_string "0123456789abcdef".

Definition hexChar (d : Z) : ascii :=
  nth (Z.to_nat d) HexCharacters "0"%char.

(** Value of a hexadecimal digit; the pattern of [getBytes] is matched
    case-insensitively. *)
Definition hexValue (a : ascii) : option Z :=
  let n := Z.of_nat (nat_of_ascii a) in
  if (48 <=? n)%Z && (n <=? 57)%Z then Some (n - 48)%Z
  else if (97 <=? n)%Z && (n <=? 102)%Z then Some (n - 87)%Z
  else if (65 <=? n)%Z && (n <=? 70)%Z then Some (n - 55)%Z
  else None.

Fixpoint hexDigits (bytes : list Z) : string :=
  match bytes with
  | [] => EmptyString
  | v :: rest =>
      String (hexChar (Z.shiftr (Z.land v 0xf0) 4))
        (String (hexChar (Z.land v 0x0f)) (hexDigits rest))
  end.

(** [hexlify(bytes)]: ["0x"] followed by two lower-case digits per byte. *)
Definition hexlify (bytes : list Z) : string :=
  String "0" (String "x" (hexDigits bytes)).

Fixpoint parseHexPairs (s : string) : option (list Z) :=
  match s with
  | EmptyString => Some []
  | String a (String b rest) =>
      hi ← hexValue a; lo ← hexValue b;
      bytes ← parseHexPairs rest;
      Some ((hi * 16 + lo)%Z :: bytes)
  | String _ EmptyString => None
  end.

(** [getBytes(value)] for a string: the value must match
    [/^0x(?:[0-9a-f][0-9a-f])*$/i]; [None] stands for the thrown
    "invalid BytesLike value". *)
Definition getBytes (value : string) : option (list Z) :=
  match value with
  | String p0 (String p1 rest) =>
      if Ascii.eqb p0 "0" && (Ascii.eqb p1 "x" || Ascii.eqb p1 "X")
      then parseHexPairs rest else None
  | _ => None
  end.

(** [zeroPadBytes(data, length)]: zeros are appended on the right; data
    longer than [length] is refused. *)
Definition zeroPadBytes (data : list Z) (len : nat) : option string :=
  if (length data <=? len)%nat
  then Some (hexlify (data ++ replicate (len - length data) 0%Z))
  else None.

(** [hexlify] of a value that is itself a hex string. *)
Definition hexlifyString (value : string) : option string :=
  hexlify <$> getBytes value.

(** *** Strings of UTF-16 code units *)

(** White space and line terminators removed by [String.prototype.trim]. *)
Definition isWhiteSpace (c : Z) : bool :=
  ((9 <=? c) && (c <=? 13) || (c =? 32) || (c =? 0xA0) || (c =? 0x1680)
   || (0x2000 <=? c) && (c <=? 0x200A) || (c =? 0x2028) || (c =? 0x2029)
   || (c =? 0x202F) || (c =? 0x205F) || (c =? 0x3000) || (c =? 0xFEFF))%Z.

Fixpoint trimStart (s : list Z) : list Z :=
  match s with
  | c :: rest => if isWhiteSpace c then trimStart rest else s
  | [] => []
  end.

Definition trimEnd (s : list Z) : list Z := reverse (trimStart (reverse s)).

Definition trim (s : list Z) : list Z := trimEnd (trimStart s).

(** [toUtf8Bytes(str)] of ethers.  A high surrogate must be followed by a
    low surrogate ("invalid surrogate pair" otherwise); any other code
    unit from 0x800 up, a lone low surrogate included, is written as
    three bytes. *)
Fixpoint toUtf8Bytes (str : list Z) : option (list Z) :=
  match str with
  | [] => Some []
  | c :: rest =>
      if (c <? 0x80)%Z then
        (c ::.) <$> toUtf8Bytes rest
      else if (c <? 0x800)%Z then
        (λ r, Z.lor (Z.shiftr c 6) 0xc0 :: Z.lor (Z.land c 0x3f) 0x80 :: r)
          <$> toUtf8Bytes rest
      else if (Z.land c 0xfc00 =? 0xd800)%Z then
        match rest with
        | c2 :: rest' =>
            if (Z.land c2 0xfc00 =? 0xdc00)%Z then
              let pair :=
                (0x10000 + Z.shiftl (Z.land c 0x03ff) 10 + Z.land c2 0x03ff)%Z in
              (λ r, Z.lor (Z.shiftr pair 18) 0xf0
                    :: Z.lor (Z.land (Z.shiftr pair 12) 0x3f) 0x80
                    :: Z.lor (Z.land (Z.shiftr pair 6) 0x3f) 0x80
                    :: Z.lor (Z.land pair 0x3f) 0x80 :: r)
                <$> toUtf8Bytes rest'
            else None
        | [] => None
        end
      else
        (λ r, Z.lor (Z.shiftr c 12) 0xe0
              :: Z.lor (Z.land (Z.shiftr c 6) 0x3f) 0x80
              :: Z.lor (Z.land c 0x3f) 0x80 :: r)
          <$> toUtf8Bytes rest
  end.

(** One continuation byte of a multi-byte sequence ("MISSING_CONTINUE"
    when it does not have the form 10xxxxxx). *)
Definition continue (res : Z) (nextChar : Z) : option Z :=
  if (Z.land nextChar 0xc0 =? 0x80)%Z
  then Some (Z.lor (Z.shiftl res 6) (Z.land nextChar 0x3f))
  else None.

(** The checks on a decoded code point: "OUT_OF_RANGE",
    "UTF16_SURROGATE", "OVERLONG". *)
Definition checkCodePoint (res overlongMask : Z) : option Z :=
  if (res >? 0x10ffff)%Z then None
  else if (0xd800 <=? res)%Z && (res <=? 0xdfff)%Z then None
  else if (res <=? overlongMask)%Z then None
  else Some res.

(** [getUtf8CodePoints(bytes)] with the default error handler, which
    throws on every malformed sequence. *)
Fixpoint getUtf8CodePoints (bytes : list Z) : option (list Z) :=
  match bytes with
  | [] => Some []
  | c :: r0 =>
      if (Z.shiftr c 7 =? 0)%Z then (c ::.) <$> getUtf8CodePoints r0
      else if (Z.land c 0xe0 =? 0xc0)%Z then
        match r0 with
        | b1 :: r1 =>
            res ← continue (Z.land c 0x3f) b1;
            cp ← checkCodePoint res 0x7f;
            (cp ::.) <$> getUtf8CodePoints r1
        | _ => None
        end
      else if (Z.land c 0xf0 =? 0xe0)%Z then
        match r0 with
        | b1 :: b2 :: r2 =>
            res ← continue (Z.land c 0x1f) b1;
            res ← continue res b2;
            cp ← checkCodePoint res 0x7ff;
            (cp ::.) <$> getUtf8CodePoints r2
        | _ => None
        end
      else if (Z.land c 0xf8 =? 0xf0)%Z then
        match r0 with
        | b1 :: b2 :: b3 :: r3 =>
            res ← continue (Z.land c 0x0f) b1;
            res ← continue res b2;
            res ← continue res b3;
            cp ← checkCodePoint res 0xffff;
            (cp ::.) <$> getUtf8CodePoints r3
        | _ => None
        end
      else None
  end.

(** Code points back to UTF-16 code units. *)
Fixpoint fromCodePoints (cps : list Z) : list Z :=
  match cps with
  | [] => []
  | cp :: rest =>
      if (cp <=? 0xffff)%Z then cp :: fromCodePoints rest
      else
        let cp' := (cp - 0x10000)%Z in
        (Z.land (Z.shiftr cp' 10) 0x3ff + 0xd800)%Z
        :: (Z.land cp' 0x3ff + 0xdc00)%Z :: fromCodePoints rest
  end.

(** [toUtf8String(bytes)]. *)
Definition toUtf8String (bytes : list Z) : option (list Z) :=
  fromCodePoints <$> getUtf8CodePoints bytes.

End Js.

(** ** Player names ([lib/arena.ts], lines 91-105) *)

Module Names.
Import Js.

(** [toBytes12FromName]; [name ?? ""] makes a missing name empty. *)
Definition toBytes12FromName (name : option (list Z)) : option string :=
  let trimmed := take 12 (trim (default [] name)) in
  bytes ← toUtf8Bytes trimmed;
  let sliced := if (12 <? length bytes)%nat then take 12 bytes else bytes in
  padded ← zeroPadBytes sliced 12;
  hexlifyString padded.

(** The loop [while (end > 0 && raw[end - 1] === 0) end--]. *)
Fixpoint stripEnd (raw : list Z) (end_ : nat) : nat :=
  match end_ with
  | O => O
  | S e =>
      match raw !! e with
      | Some 0%Z => stripEnd raw e
      | _ => end_
      end
  end.

(** [bytes12ToString]. *)
Definition bytes12ToString (b12 : string) : option (list Z) :=
  raw ← getBytes b12;
  let end_ := stripEnd raw (length raw) in
  toUtf8String (take end_ raw).

End Names.

(** ** Notions used to state the properties of the string functions *)

Module Wf.
Local Open Scope Z_scope.

Definition is_byte (b : Z) : Prop := 0 ≤ b < 256.

Definition code_unit (c : Z) : Prop := 0 ≤ c < 65536.

Definition isHighSurrogate (c : Z) : bool := (0xd800 <=? c) && (c <? 0xdc00).
Definition isLowSurrogate (c : Z) : bool := (0xdc00 <=? c) && (c <? 0xe000).

(** Well-formed UTF-16: surrogates occur only in pairs, high then low. *)
Fixpoint wellFormed (s : list Z) : bool :=
  match s with
  | [] => true
  | c :: rest =>
      if isHighSurrogate c then
        match rest with
        | c2 :: rest' => isLowSurrogate c2 && wellFormed rest'
        | [] => false
        end
      else negb (isLowSurrogate c) && wellFormed rest
  end.

(** UTF-8 as arithmetic: [Encodes s bytes] when [bytes] is the encoding of
    the code units [s], a lone low surrogate being written as three
    bytes. *)
Inductive Encodes : list Z → list Z → Prop :=
  | Encodes_nil : Encodes [] []
  | Encodes_1 c s bs :
      0 ≤ c < 0x80 → Encodes s bs → Encodes (c :: s) (c :: bs)
  | Encodes_2 c s bs :
      0x80 ≤ c < 0x800 → Encodes s bs →
      Encodes (c :: s) (0xc0 + c / 64 :: 0x80 + c mod 64 :: bs)
  | Encodes_3 c s bs :
      0x800 ≤ c < 0x10000 → isHighSurrogate c = false → Encodes s bs →
      Encodes (c :: s)
        (0xe0 + c / 4096 :: 0x80 + (c / 64) mod 64 :: 0x80 + c mod 64 :: bs)
  | Encodes_4 c c2 s bs :
      isHighSurrogate c = true → isLowSurrogate c2 = true → Encodes s bs →
      let p := 0x10000 + (c - 0xd800) * 1024 + (c2 - 0xdc00) in
      Encodes (c :: c2 :: s)
        (0xf0 + p / 262144 :: 0x80 + (p / 4096) mod 64
         :: 0x80 + (p / 64) mod 64 :: 0x80 + p mod 64 :: bs).

End Wf.

(** ** Keccak-256 (the hash behind ethers' [keccak256] and Solidity's
    [keccak256]) *)

Module Keccak.
Local Open Scope Z_scope.

Definition mask64 : Z := 0xFFFFFFFFFFFFFFFF.

(** Rotation of a 64-bit lane to the left. *)
Definition rotl (x : Z) (n : Z) : Z :=
  Z.land (Z.lor (Z.shiftl x n) (Z.shiftr x (64 - n))) mask64.

Definition roundConstants : list Z :=
  [ 0x0000000000000001; 0x0000000000008082; 0x800000000000808A;
    0x8000000080008000; 0x000000000000808B; 0x0000000080000001;
    0x8000000080008081; 0x8000000000008009; 0x000000000000008A;
    0x0000000000000088; 0x0000000080008009; 0x000000008000000A;
    0x000000008000808B; 0x800000000000008B; 0x8000000000008089;
    0x8000000000008003; 0x8000000000008002; 0x8000000000000080;
    0x000000000000800A; 0x800000008000000A; 0x8000000080008081;
    0x8000000000008080; 0x0000000080000001; 0x8000000080008008 ].

(** Rotation offsets, indexed by [x + 5 * y]. *)
Definition rotationOffsets : list Z :=
  [ 0;  1; 62; 28; 27;
    36; 44;  6; 55; 20;
    3; 10; 43; 25; 39;
    41; 45; 15; 21;  8;
    18;  2; 61; 56; 14 ].

(** The state: 25 lanes, lane (x, y) at index [x + 5 * y]. *)
Definition lane (A : list Z) (x y : nat) : Z :=
  nth ((x mod 5) + 5 * (y mod 5)) A 0.

Definition theta (A : list Z) : list Z :=
  let C := map (λ x, Z.lxor (lane A x 0) (Z.lxor (lane A x 1)
                 (Z.lxor (lane A x 2) (Z.lxor (lane A x 3) (lane A x 4)))))
               (seq 0 5) in
  let D := map (λ x, Z.lxor (nth ((x + 4) mod 5) C 0)
                            (rotl (nth ((x + 1) mod 5) C 0) 1))
               (seq 0 5) in
  map (λ i, Z.lxor (nth i A 0) (nth (i mod 5) D 0)) (seq 0 25).

(** rho and pi: lane (x, y), rotated, moves to (y, 2x + 3y). *)
Definition rhoPi (A : list Z) : list Z :=
  map (λ i,
         let X := (i mod 5)%nat in
         let Y := (i / 5)%nat in
         (* the source lane (x, y) with y = X and 2x + 3y = Y (mod 5) *)
         let x := ((X + 3 * Y) mod 5)%nat in
         let y := X in
         rotl (lane A x y) (nth (x + 5 * y) rotationOffsets 0))
      (seq 0 25).

Definition chi (B : list Z) : list Z :=
  map (λ i,
         let x := (i mod 5)%nat in
         let y := (i / 5)%nat in
         Z.lxor (lane B x y)
                (Z.land (Z.lxor (lane B (x + 1) y) mask64) (lane B (x + 2) y)))
      (seq 0 25).

Definition iota (rc : Z) (A : list Z) : list Z :=
  match A with
  | a :: rest => Z.lxor a rc :: rest
  | [] => []
  end.

Definition round (A : list Z) (rc : Z) : list Z :=
  iota rc (chi (rhoPi (theta A))).

Definition keccakF (A : list Z) : list Z := foldl round A roundConstants.

(** Little-endian lanes. *)
Fixpoint laneOfBytes (bs : list Z) : Z :=
  match bs with
  | [] => 0
  | b :: rest => b + 256 * laneOfBytes rest
  end.

Definition bytesOfLane (l : Z) : list Z :=
  map (λ i, Z.land (Z.shiftr l (8 * Z.of_nat i)) 0xff) (seq 0 8).

Fixpoint lanesOfBytes (n : nat) (bs : list Z) : list Z :=
  match n with
  | O => []
  | S n' => laneOfBytes (take 8 bs) :: lanesOfBytes n' (drop 8 bs)
  end.

Definition rate : nat := 136.

(** Absorb one block of [rate] bytes. *)
Definition absorbBlock (A : list Z) (block : list Z) : list Z :=
  let lanes := lanesOfBytes 17 block in
  keccakF (map (λ i, Z.lxor (nth i A 0) (nth i lanes 0)) (seq 0 25)).

(** Keccak padding (domain byte 0x01, final bit 0x80). *)
Definition pad (msg : list Z) : list Z :=
  let q := (rate - length msg mod rate)%nat in
  if (q =? 1)%nat then msg ++ [0x81]
  else msg ++ [0x01] ++ replicate (q - 2) 0 ++ [0x80].

Fixpoint absorb (nblocks : nat) (A : list Z) (bs : list Z) : list Z :=
  match nblocks with
  | O => A
  | S n => absorb n (absorbBlock A (take rate bs)) (drop rate bs)
  end.

Definition keccak256 (msg : list Z) : list Z :=
  let padded := pad msg in
  let A := absorb (length padded / rate) (replicate 25 0) padded in
  take 32 (concat (map bytesOfLane A)).

End Keccak.
(** ** ethers: hashing, addresses and tight packing *)

Module Ethers.
Import Js.
Local Open Scope Z_scope.

(** [keccak256(data)] for hex data: the hash as a hex string. *)
Definition keccak256 (data : string) : option string :=
  (λ bytes, hexlify (Keccak.keccak256 bytes)) <$> getBytes data.

Definition isHexChar (a : ascii) : bool :=
  match hexValue a with Some _ => true | None => false end.

Definition isUpperHex (a : ascii) : bool :=
  let n := nat_of_ascii a in (65 <=? n)%nat && (n <=? 70)%nat.

Definition isLowerHex (a : ascii) : bool :=
  let n := nat_of_ascii a in (97 <=? n)%nat && (n <=? 102)%nat.

Definition upper_ascii (a : ascii) : ascii :=
  let n := nat_of_ascii a in
  if (97 <=? n)%nat && (n <=? 122)%nat then ascii_of_nat (n - 32) else a.

Definition charCodes (s : string) : list Z :=
  (λ a, Z.of_nat (nat_of_ascii a)) <$> String.list_ascii_of_string s.

(** The two 4-bit halves of every byte, high half first. *)
Definition nibbles (bytes : list Z) : list Z :=
  bytes ≫= (λ b, [Z.shiftr b 4; Z.land b 0x0f]).

(** [getChecksumAddress(address)]: the digits after the prefix in lower
    case, digit [i] of the first 40 put in upper case when the [i]-th
    half-byte of the hash of these 40 digits is 8 or more.  Every caller
    passes at least 40 digits. *)
Definition getChecksumAddress (address : string) : string :=
  let lower := toLowerCase address in
  let chars := String.list_ascii_of_string
                 (String.substring 2 (String.length lower - 2) lower) in
  let hashed :=
    Keccak.keccak256 (charCodes (String.string_of_list_ascii (take 40 chars))) in
  let cased := zip_with (λ c h, if (8 <=? h) then upper_ascii c else c)
                        (take 40 chars) (take 40 (nibbles hashed)) in
  String "0" (String "x" (String.string_of_list_ascii (cased ++ drop 40 chars))).

(** [/^[0-9a-fA-F]{40}$/]. *)
Definition isHex40 (s : string) : bool :=
  (String.length s =? 40)%nat
  && forallb isHexChar (String.list_ascii_of_string s).

(** [/([A-F].*[a-f])|([a-f].*[A-F])/]. *)
Definition isMixedCase (s : string) : bool :=
  existsb isUpperHex (String.list_ascii_of_string s)
  && existsb isLowerHex (String.list_ascii_of_string s).

Definition isDigit (a : ascii) : bool :=
  let n := nat_of_ascii a in (48 <=? n)%nat && (n <=? 57)%nat.

Definition isAlphaNum (a : ascii) : bool :=
  let n := nat_of_ascii a in
  isDigit a || (65 <=? n)%nat && (n <=? 90)%nat
  || (97 <=? n)%nat && (n <=? 122)%nat.

(** [/^XE[0-9]{2}[0-9A-Za-z]{30,31}$/]: an address in the ICAP form. *)
Definition isIcap (s : string) : bool :=
  let chars := String.list_ascii_of_string s in
  startsWith s "XE"
  && ((length chars =? 34)%nat || (length chars =? 35)%nat)
  && forallb isDigit (take 2 (drop 2 chars))
  && forallb isAlphaNum (drop 4 chars).

(** [String(n)] for a number from 0 to 99, as decimal digits. *)
Definition decimal (n : Z) : list Z :=
  if n <? 10 then [n] else [n / 10; n mod 10].

(** [ibanLookup[c]]: a digit stands for itself, the letters A to Z for
    the numbers 10 to 35. *)
Definition ibanLookup (a : ascii) : list Z :=
  let n := Z.of_nat (nat_of_ascii a) in
  if (48 <=? n) && (n <=? 57) then [n - 48]
  else if (65 <=? n) && (n <=? 90) then decimal (n - 55)
  else [].

(** [parseInt(block, 10)] of a string of decimal digits. *)
Definition parseInt (digits : list Z) : Z :=
  foldl (λ acc d, acc * 10 + d) 0 digits.

(** The loop of [ibanChecksum]: while the string has 15 digits or more,
    its first 15 digits are replaced by their remainder modulo 97.  Each
    round shortens the string, so [fuel] rounds suffice when [fuel] is its
    length. *)
Fixpoint ibanReduce (fuel : nat) (expanded : list Z) : list Z :=
  match fuel with
  | O => expanded
  | S fuel' =>
      if (15 <=? length expanded)%nat
      then ibanReduce fuel'
             (decimal (parseInt (take 15 expanded) mod 97) ++ drop 15 expanded)
      else expanded
  end.

(** [ibanChecksum(address)]: the two check digits. *)
Definition ibanChecksum (address : string) : list Z :=
  let upper := upper_ascii <$> String.list_ascii_of_string address in
  let moved := drop 4 upper ++ take 2 upper ++ ["0"; "0"]%char in
  let expanded := moved ≫= ibanLookup in
  let checksum :=
    decimal (98 - parseInt (ibanReduce (length expanded) expanded) mod 97) in
  replicate (2 - length checksum) 0 ++ checksum.

(** [fromBase36(value)]. *)
Definition fromBase36 (value : string) : Z :=
  foldl (λ acc a,
           let n := Z.of_nat (nat_of_ascii (lower_ascii a)) in
           acc * 36 + (if n <=? 57 then n - 48 else n - 87))
        0 (String.list_ascii_of_string value).

(** [value.toString(16)] of a non-negative integer. *)
Fixpoint hexOf (fuel : nat) (v : Z) (acc : list ascii) : list ascii :=
  match fuel with
  | O => acc
  | S fuel' =>
      if v =? 0 then acc
      else hexOf fuel' (Z.shiftr v 4) (hexChar (Z.land v 0x0f) :: acc)
  end.

Definition toString16 (v : Z) : list ascii :=
  if v =? 0 then ["0"%char] else hexOf (S (Z.to_nat (Z.log2 v))) v [].

(** [getAddress(address)]: [None] stands for the thrown "invalid address",
    "bad address checksum" or "bad icap checksum".  An address of 40
    hexadecimal digits, with or without ["0x"], is returned with its
    checksum; when it is in mixed case it must carry the right checksum.
    An address in the ICAP form must carry the right check digits, and is
    returned as the hexadecimal address it stands for. *)
Definition getAddress (address : string) : option string :=
  let address' :=
    if startsWith address "0x" then address
    else String "0" (String "x" address) in
  if isHex40 (String.substring 2 (String.length address') address') then
    let result := getChecksumAddress address' in
    if isMixedCase address' && negb (String.eqb result address')
    then None else Some result
  else if isIcap address then
    let chars := String.list_ascii_of_string address in
    if bool_decide
         ((λ a, Z.of_nat (nat_of_ascii a) - 48) <$> take 2 (drop 2 chars)
          = ibanChecksum address)
    then
      let result :=
        toString16 (fromBase36 (String.string_of_list_ascii (drop 4 chars))) in
      let padded := replicate (40 - length result) "0"%char ++ result in
      Some (getChecksumAddress
              (String "0" (String "x" (String.string_of_list_ascii padded))))
    else None
  else None.

(** [toBeArray(value)]: the big-endian bytes of a non-negative integer,
    without leading zeros; negative values are refused. *)
Fixpoint beDigits (fuel : nat) (v : Z) (acc : list Z) : list Z :=
  match fuel with
  | O => acc
  | S fuel' =>
      if v =? 0 then acc
      else beDigits fuel' (Z.shiftr v 8) (Z.land v 0xff :: acc)
  end.

Definition toBeArray (value : Z) : option (list Z) :=
  if value <? 0 then None
  else Some (beDigits (S (Z.to_nat (Z.log2 value))) value []).

(** [zeroPadValue(data, length)]: zeros are added on the left. *)
Definition zeroPadValue (data : list Z) (len : nat) : option (list Z) :=
  if (length data <=? len)%nat
  then Some (replicate (len - length data) 0 ++ data)
  else None.

(** A value together with the Solidity type it is packed as. *)
Inductive packed :=
  | PAddress (value : string)
  | PUint (bits : nat) (value : Z)
  | PBytes (size : nat) (value : string).

(** [_pack(type, value)]. *)
Definition _pack (p : packed) : option (list Z) :=
  match p with
  | PAddress value => getAddress value ≫= getBytes
  | PUint bits value =>
      if ((bits mod 8 =? 0) && negb (bits =? 0) && (bits <=? 256))%nat
      then toBeArray value ≫= (λ b, zeroPadValue b (bits / 8))
      else None
  | PBytes size value =>
      if (negb (size =? 0) && (size <=? 32))%nat then
        bytes ← getBytes value;
        if (length bytes =? size)%nat then Some bytes else None
      else None
  end.

(** [solidityPacked(types, values)]. *)
Definition solidityPacked (ps : list packed) : option string :=
  (λ tight, hexlify (concat tight)) <$> mapM _pack ps.

End Ethers.

(** ** Relayer digests ([relayer/src/index.ts], lines 32-79; the same
    functions, with the configuration passed in [params], are in
    [lib/arena.ts]) *)

Module Relayer.
Import Js Ethers.
Local Open Scope Z_scope.

(** [enum ActionType]. *)
Inductive ActionType := SET_NAME | JOIN | MOVE.

Definition ActionType_value (a : ActionType) : Z :=
  match a with SET_NAME => 0 | JOIN => 1 | MOVE => 2 end.

(** The module-level configuration read from the environment. *)
Record config := Config { CHAIN_ID : Z; ARENA_ADDRESS : string }.

Definition commonDomain (chainId : Z) (arenaAddress : string)
  : option string :=
  solidityPacked [PUint 256 chainId; PAddress arenaAddress] ≫= keccak256.

Definition digestJoin (cfg : config) (player : string) (nonce deadline : Z)
  : option string :=
  domain ← commonDomain (CHAIN_ID cfg) (ARENA_ADDRESS cfg);
  solidityPacked
    [PBytes 32 domain; PUint 8 (ActionType_value JOIN); PAddress player;
     PUint 256 nonce; PUint 256 deadline] ≫= keccak256.

Definition digestMove (cfg : config) (player : string) (dir : Z)
    (nonce deadline : Z) : option string :=
  domain ← commonDomain (CHAIN_ID cfg) (ARENA_ADDRESS cfg);
  solidityPacked
    [PBytes 32 domain; PUint 8 (ActionType_value MOVE); PAddress player;
     PUint 8 dir; PUint 256 nonce; PUint 256 deadline] ≫= keccak256.

Definition digestSetName (cfg : config) (player : string)
    (nameBytes12 : string) (nonce deadline : Z) : option string :=
  domain ← commonDomain (CHAIN_ID cfg) (ARENA_ADDRESS cfg);
  solidityPacked
    [PBytes 32 domain; PUint 8 (ActionType_value SET_NAME); PAddress player;
     PBytes 12 nameBytes12; PUint 256 nonce; PUint 256 deadline] ≫= keccak256.

End Relayer.

(** ** Digests of the [Arena] contract ([Arena.sol], section "Digests") *)

Module Arena.
Local Open Scope Z_scope.

(** [enum ActionType { SET_NAME, JOIN, MOVE }]. *)
Inductive ActionType := SET_NAME | JOIN | MOVE.

(** A Solidity value with its static type. *)
Inductive abiValue :=
  | Uint (bits : nat) (value : Z)
  | Address (value : Z)
  | BytesN (size : nat) (value : list Z)
  | Enum (value : ActionType).

(** Big-endian bytes of an unsigned integer of [n] bytes. *)
Definition beBytes (n : nat) (v : Z) : list Z :=
  (λ i, (v / 256 ^ Z.of_nat (n - 1 - i)) mod 256) <$> seq 0 n.

(** [abi.encodePacked]: static values are written without padding; an
    enum is written as a [uint8]. *)
Definition encodePacked1 (v : abiValue) : list Z :=
  match v with
  | Uint bits value => beBytes (bits / 8) value
  | Address value => beBytes 20 value
  | BytesN _ value => value
  | Enum SET_NAME => beBytes 1 0
  | Enum JOIN => beBytes 1 1
  | Enum MOVE => beBytes 1 2
  end.

Definition encodePacked (vs : list abiValue) : list Z :=
  concat (encodePacked1 <$> vs).

(** The execution context: [block.chainid] and [address(this)]. *)
Record context := Context { chainid : Z; this : Z }.

Definition _commonDomain (ctx : context) : list Z :=
  Keccak.keccak256 (encodePacked [Uint 256 (chainid ctx); Address (this ctx)]).

Definition _digestSetName (ctx : context) (player : Z) (newName : list Z)
    (nonce deadline : Z) : list Z :=
  Keccak.keccak256 (encodePacked
    [BytesN 32 (_commonDomain ctx); Enum SET_NAME; Address player;
     BytesN 12 newName; Uint 256 nonce; Uint 256 deadline]).

Definition _digestJoin (ctx : context) (player : Z) (nonce deadline : Z)
  : list Z :=
  Keccak.keccak256 (encodePacked
    [BytesN 32 (_commonDomain ctx); Enum JOIN; Address player;
     Uint 256 nonce; Uint 256 deadline]).

Definition _digestMove (ctx : context) (player : Z) (dir : Z)
    (nonce deadline : Z) : list Z :=
  Keccak.keccak256 (encodePacked
    [BytesN 32 (_commonDomain ctx); Enum MOVE; Address player;
     Uint 8 dir; Uint 256 nonce; Uint 256 deadline]).

End Arena.

(** ** Notions used to state the digest properties *)

Module Abi.
Import Js Ethers.
Local Open Scope Z_scope.

(** The integer written by big-endian bytes. *)
Definition beValue (bytes : list Z) : Z :=
  foldl (λ acc b, acc * 256 + b) 0 bytes.

(** The 160-bit value of an address string accepted by [getAddress]. *)
Definition addressOf (address : string) : option Z :=
  bytes ← getAddress address ≫= getBytes;
  if (length bytes =? 20)%nat then Some (beValue bytes) else None.

(** The optional hex string [r] denotes exactly the bytes [d]. *)
Definition renders (r : option string) (d : list Z) : Prop :=
  r = Some (hexlify d) ∧ getBytes (hexlify d) = Some d.

End Abi.

(** ** ethers: signatures and signed messages *)

Module Sig.
Import Js Ethers.
Local Open Scope Z_scope.

(** A parsed signature: [r], [s] (32 bytes each) and [v] (27 or 28). *)
Record signature := Signature { sig_r : list Z; sig_s : list Z; sig_v : Z }.

(** [Signature.getNormalizedV]. *)
Definition getNormalizedV (v : Z) : option Z :=
  if (v =? 0) || (v =? 27) then Some 27
  else if (v =? 1) || (v =? 28) then Some 28
  else if v <? 35 then None
  else Some (if Z.land v 1 =? 0 then 28 else 27).

(** [Signature.from(sig)] for a string: 64 bytes (compact form, the top bit
    of [s] carrying the parity) or 65 bytes ([r], [s], [v]); anything else
    is refused ("invalid raw signature length", "non-canonical s",
    "invalid v", or the error of [getBytes]). *)
Definition Signature_from (sig : string) : option signature :=
  bytes ← getBytes sig;
  if (length bytes =? 64)%nat then
    let r := take 32 bytes in
    let s := drop 32 bytes in
    let s0 := nth 0 s 0 in
    let v := if Z.land s0 0x80 =? 0 then 27 else 28 in
    Some (Signature r (Z.land s0 0x7f :: drop 1 s) v)
  else if (length bytes =? 65)%nat then
    let r := take 32 bytes in
    let s := take 32 (drop 32 bytes) in
    if Z.land (nth 0 s 0) 0x80 =? 0 then
      v ← getNormalizedV (nth 64 bytes 0);
      Some (Signature r s v)
    else None
  else None.

(** Decimal digits of a length, as character codes ([String(n)]). *)
Fixpoint decimalDigits (fuel : nat) (n : nat) (acc : list Z) : list Z :=
  match fuel with
  | O => acc
  | S fuel' =>
      let acc' := (48 + Z.of_nat (n mod 10)) :: acc in
      if (n <? 10)%nat then acc' else decimalDigits fuel' (n / 10) acc'
  end.

Definition decimal (n : nat) : list Z := decimalDigits (S n) n [].

(** ["\x19Ethereum Signed Message:\n"]. *)
Definition MessagePrefix : list Z :=
  0x19 :: charCodes "Ethereum Signed Message:" ++ [10].

(** [hashMessage(message)] for a byte array: the hash of the prefix, the
    decimal length and the message. *)
Definition hashMessage (message : list Z) : list Z :=
  Keccak.keccak256 (MessagePrefix ++ decimal (length message) ++ message).

(** [computeAddress(publicKey)] for the 64 bytes of an uncompressed public
    key: the last 20 bytes of its hash, as a checksummed address. *)
Definition computeAddress (publicKey : list Z) : string :=
  getChecksumAddress (hexlify (drop 12 (Keccak.keccak256 publicKey))).

End Sig.

(** ** Signature check and address check of the relayer
    ([relayer/src/index.ts], lines 81-100) *)

Module Verify.
Import Js Ethers Sig.
Local Open Scope Z_scope.

Section Recovery.

(** Recovery of the secp256k1 public key (64 bytes) from a 32-byte digest
    and a parsed signature; [None] when the library refuses the signature
    ("invalid signature for digest").  The elliptic-curve arithmetic is
    not part of this repository and stays a parameter. *)
Variable recoverPublicKey : list Z → signature → option (list Z).

(** [verifyMessage(message, sig)] = [recoverAddress(hashMessage(message), sig)]. *)
Definition verifyMessage (message : list Z) (sig : string) : option string :=
  signature ← Signature_from sig;
  publicKey ← recoverPublicKey (hashMessage message) signature;
  Some (computeAddress publicKey).

(** [verifyBurnerSignature]; [None] when an exception escapes. *)
Definition verifyBurnerSignature (player digest sig : string) : option bool :=
  message ← getBytes digest;
  recovered ← verifyMessage message sig;
  Some (String.eqb (toLowerCase recovered) (toLowerCase player)).

End Recovery.

(** [isAddr]: whether [getAddress] accepts the string. *)
Definition isAddr (x : string) : bool :=
  match getAddress x with Some _ => true | None => false end.

(** An exception value, as far as [normalizeErr] looks at it: the fields
    [shortMessage], [reason], [message] and [code] ([None] when missing),
    and the text of [String(e)]. *)
Record jsError := JsError {
  shortMessage : option string;
  reason : option string;
  message : option string;
  asString : string;
  code : option string
}.

(** [a || b] for an optional string [a]: a missing or empty string is
    falsy. *)
Definition orElse (a : option string) (b : string) : string :=
  match a with
  | Some s => if String.eqb s EmptyString then b else s
  | None => b
  end.

(** [normalizeErr]: [{ code, msg, data }] without [data], which no caller
    reads. *)
Definition normalizeErr (e : jsError) : option string * string :=
  let msg :=
    orElse (shortMessage e)
      (orElse (reason e) (orElse (message e) (asString e))) in
  (code e, msg).

End Verify.

(** ** Notions used to state the signature properties *)

Module Case.
Import Js.

Definition isUpperAscii (a : ascii) : bool :=
  let n := nat_of_ascii a in (65 <=? n)%nat && (n <=? 90)%nat.

(** Two characters that are the same letter in either case, or equal. *)
Definition same_letter (a b : ascii) : Prop :=
  a = b
  ∨ (isUpperAscii a = true ∧ nat_of_ascii b = (nat_of_ascii a + 32)%nat)
  ∨ (isUpperAscii b = true ∧ nat_of_ascii a = (nat_of_ascii b + 32)%nat).

(** Equality of strings up to the case of ASCII letters. *)
Inductive eq_nocase : string → string → Prop :=
  | eq_nocase_nil : eq_nocase EmptyString EmptyString
  | eq_nocase_cons a b s t :
      same_letter a b → eq_nocase s t → eq_nocase (String a s) (String b t).

End Case.

(** ** Submission queue and in-flight table
    ([relayer/src/index.ts], lines 110-116 and 140-159)

    The queue is a chain of promises.  A promise is identified by the
    expression that created it and by the call of [enqueue] it was
    created for: the [i]-th call creates [run] and the new [tail] and
    returns a promise of its own (the function is [async]); when its task
    is started, the call to the contract returns a promise, and for a
    task of [enqueueMoveOnce] there is the promise of the wrapping [async]
    function as well.  Jobs of the promise machinery and settlements of
    external calls are steps of a transition system, which may interleave
    in any order with calls of [enqueue] and [enqueueMoveOnce]. *)

Module Queue.
Import Js Verify.

(** The calls made through the contract object, with their gas limit. *)
Inductive call :=
  | JoinFor (player : string) (nonce deadline : Z) (sig : string) (gasLimit : Z)
  | SetNameFor (player nameBytes12 : string) (nonce deadline : Z)
               (sig : string) (gasLimit : Z)
  | MoveFor (player : string) (dir nonce deadline : Z) (sig : string)
            (gasLimit : Z)
  | KickInactive (player : string) (gasLimit : Z).

(** What a promise settles with. *)
Inductive value := Undefined | Tx (hash : string).
Inductive outcome := Fulfilled (v : value) | Rejected (e : jsError).

(** Where a promise was created. *)
Inductive site :=
  | AtRun    (* [tail.then(fn, fn)] *)
  | AtTail   (* [run.then(() => undefined, () => undefined)], and the
                initial [Promise.resolve()] *)
  | AtRet    (* the promise returned by the async function [enqueue] *)
  | AtCall   (* the promise returned by the call to the contract *)
  | AtWrap.  (* the promise of the async function built in [enqueueMoveOnce] *)

Global Instance site_eq_dec : EqDecision site.
Proof. solve_decision. Defined.

Global Instance site_countable : Countable site.
Proof.
  refine (inj_countable'
    (λ s, match s with
          | AtRun => 0 | AtTail => 1 | AtRet => 2 | AtCall => 3 | AtWrap => 4
          end)%nat
    (λ n, match n with
          | 0 => AtRun | 1 => AtTail | 2 => AtRet | 3 => AtCall | _ => AtWrap
          end)%nat _).
  by intros [].
Defined.

Abbreviation pid := (site * nat)%type.

(** The functions handed to [then] and to [enqueue]. *)
Inductive closure :=
  | Submit (c : call)
      (* [() => arena.joinFor(...)] and the like *)
  | Guarded (key : string) (c : call)
      (* [async () => { try { return await fn(); }
                        finally { moveInFlight.delete(key); } }] *)
  | ToUndefined.
      (* [() => undefined] *)

(** The state of a promise. *)
Inductive cell :=
  | Settled (o : outcome)
  | Then (src : pid) (cb : closure)
      (* created by [src.then(cb, cb)]; [cb] has not run yet *)
  | Adopt (src : pid)
      (* resolved with the promise [src], whose outcome it will take *)
  | AwaitFinally (src : pid) (key : string)
      (* the wrapper of [enqueueMoveOnce], suspended at [await fn()] *)
  | Extern (c : call).
      (* a call to the contract in progress *)

Record state := State {
  heap : gmap pid cell;
  tail : pid;                       (* [let tail] *)
  count : nat;                      (* calls of [enqueue] so far *)
  moveInFlight : gmap string pid    (* [const moveInFlight] *)
}.

(** [let tail = Promise.resolve()] and an empty table. *)
Definition init : state :=
  State {[ (AtTail, 0%nat) := Settled (Fulfilled Undefined) ]} (AtTail, 0%nat) 0 ∅.

(** [enqueue(fn)]. *)
Definition enqueue (fn : closure) (s : state) : pid * state :=
  let i := S (count s) in
  (* const run = tail.then(fn, fn); *)
  let run := (AtRun, i) in
  let h1 := <[run := Then (tail s) fn]> (heap s) in
  (* tail = run.then(() => undefined, () => undefined); *)
  let tail' := (AtTail, i) in
  let h2 := <[tail' := Then run ToUndefined]> h1 in
  (* return run;  (from an async function) *)
  let ret := (AtRet, i) in
  let h3 := <[ret := Adopt run]> h2 in
  (ret, State h3 tail' i (moveInFlight s)).

(** The result [{ deduped, promise }] of [enqueueMoveOnce]. *)
Record onceResult := OnceResult { deduped : bool; promise : pid }.

(** [enqueueMoveOnce(player, fn)], [fn] being the call [c]. *)
Definition enqueueMoveOnce (player : string) (c : call) (s : state)
  : onceResult * state :=
  let key := toLowerCase player in
  match moveInFlight s !! key with
  | Some existing => (OnceResult true existing, s)
  | None =>
      let '(p, s') := enqueue (Guarded key c) s in
      (OnceResult false p,
       State (heap s') (tail s') (count s') (<[key := p]> (moveInFlight s')))
  end.

Definition is_settled (s : state) (p : pid) : Prop :=
  ∃ o, heap s !! p = Some (Settled o).

Definition set_heap (s : state) (h : gmap pid cell) : state :=
  State h (tail s) (count s) (moveInFlight s).

(** What can be observed of a run. *)
Inductive event :=
  | EvEnqueue (fn : closure) (ret : pid)
      (* [enqueue(fn)] was called and returned [ret] *)
  | EvDeduped (player : string) (c : call) (existing : pid)
      (* [enqueueMoveOnce] found an entry and enqueued nothing *)
  | EvCall (c : call)
      (* the contract was called *)
  | EvSettle (c : call) (o : outcome)
      (* a call to the contract settled *)
  | EvCleanup (key : string)
      (* a [finally] block deleted the entry of [key] *)
  | EvJob.
      (* another job of the promise machinery *)

(** One step of the relayer process. *)
Inductive step : state → event → state → Prop :=
  | step_enqueue s c :
      (* a handler calls [enqueue(() => arena....)] *)
      step s (EvEnqueue (Submit c) (enqueue (Submit c) s).1)
             (enqueue (Submit c) s).2
  | step_move_deduped s player c existing :
      (* the move handler calls [enqueueMoveOnce]: entry found *)
      enqueueMoveOnce player c s = (OnceResult true existing, s) →
      step s (EvDeduped player c existing) s
  | step_move_enqueued s player c p s' :
      (* the move handler calls [enqueueMoveOnce]: no entry *)
      enqueueMoveOnce player c s = (OnceResult false p, s') →
      step s (EvEnqueue (Guarded (toLowerCase player) c) p) s'
  | step_start_submit s i src c :
      (* [tail] has settled: [fn] runs and calls the contract *)
      heap s !! (AtRun, i) = Some (Then src (Submit c)) →
      is_settled s src →
      heap s !! (AtCall, i) = None →
      step s (EvCall c)
        (set_heap s (<[(AtRun, i) := Adopt (AtCall, i)]>
                       (<[(AtCall, i) := Extern c]> (heap s))))
  | step_start_guarded s i src key c :
      (* the same for a task of [enqueueMoveOnce]: the wrapper calls the
         contract and waits for it *)
      heap s !! (AtRun, i) = Some (Then src (Guarded key c)) →
      is_settled s src →
      heap s !! (AtCall, i) = None →
      heap s !! (AtWrap, i) = None →
      step s (EvCall c)
        (set_heap s (<[(AtRun, i) := Adopt (AtWrap, i)]>
                       (<[(AtWrap, i) := AwaitFinally (AtCall, i) key]>
                          (<[(AtCall, i) := Extern c]> (heap s)))))
  | step_then_undefined s p src :
      (* [() => undefined] runs once [run] has settled, either way *)
      heap s !! p = Some (Then src ToUndefined) →
      is_settled s src →
      step s EvJob (set_heap s (<[p := Settled (Fulfilled Undefined)]> (heap s)))
  | step_adopt s p src o :
      (* a promise takes the outcome of the promise it was resolved with *)
      heap s !! p = Some (Adopt src) →
      heap s !! src = Some (Settled o) →
      step s EvJob (set_heap s (<[p := Settled o]> (heap s)))
  | step_finally s w src key o :
      (* the wrapper resumes: [finally] deletes the entry, and the wrapper
         settles like the call *)
      heap s !! w = Some (AwaitFinally src key) →
      heap s !! src = Some (Settled o) →
      step s (EvCleanup key)
        (State (<[w := Settled o]> (heap s)) (tail s) (count s)
               (delete key (moveInFlight s)))
  | step_settle s q c o :
      (* the contract call succeeds or fails *)
      heap s !! q = Some (Extern c) →
      step s (EvSettle c o) (set_heap s (<[q := Settled o]> (heap s))).

(** Runs from the initial state, with the events in the order they
    happened. *)
Inductive run : list event → state → Prop :=
  | run_init : run [] init
  | run_step tr s ev s' : run tr s → step s ev s' → run (tr ++ [ev]) s'.

(** Several steps in a row. *)
Inductive steps : state → list event → state → Prop :=
  | steps_nil s : steps s [] s
  | steps_cons s ev s' evs s'' :
      step s ev s' → steps s' evs s'' → steps s (ev :: evs) s''.

(** Steps that need no outside event: jobs of the promise machinery. *)
Definition internal (ev : event) : bool :=
  match ev with
  | EvCall _ | EvCleanup _ | EvJob => true
  | _ => false
  end.

(** The call a task makes. *)
Definition call_of (fn : closure) : option call :=
  match fn with
  | Submit c | Guarded _ c => Some c
  | ToUndefined => None
  end.

(** The tasks enqueued, the calls made and the calls settled, in order. *)
Definition enqueued (tr : list event) : list closure :=
  omap (λ ev, match ev with EvEnqueue fn _ => Some fn | _ => None end) tr.

Definition returned (tr : list event) : list pid :=
  omap (λ ev, match ev with EvEnqueue _ ret => Some ret | _ => None end) tr.

Definition called (tr : list event) : list call :=
  omap (λ ev, match ev with EvCall c => Some c | _ => None end) tr.

Definition settled (tr : list event) : list (call * outcome) :=
  omap (λ ev, match ev with EvSettle c o => Some (c, o) | _ => None end) tr.

End Queue.
(** ** Notions used to state the queue properties *)

Module QueueInv.
Import Queue.

(** How far the promises of a finished task have come: whether the
    wrapper's [finally] has run, and whether [run], the next [tail] and
    the promise returned by [enqueue] have settled. *)
Record progress := Progress {
  cleaned : bool; ran : bool; tailed : bool; delivered : bool
}.

Inductive stage :=
  | Running
  | Finished (o : outcome) (pr : progress).

(** The promise that [run] is resolved with. *)
Definition target (fn : closure) (i : nat) : pid :=
  match fn with Guarded _ _ => (AtWrap, i) | _ => (AtCall, i) end.

(** The promises of the [i]-th task before it starts. *)
Definition waiting_cell (i : nat) (fn : closure) (st : site) : option cell :=
  match st with
  | AtRun => Some (Then (AtTail, (i - 1)%nat) fn)
  | AtTail => Some (Then (AtRun, i) ToUndefined)
  | AtRet => Some (Adopt (AtRun, i))
  | AtCall | AtWrap => None
  end.

(** The promises of the [i]-th task once it has started. *)
Definition started_cell (i : nat) (fn : closure) (c : call) (sg : stage)
    (st : site) : option cell :=
  match sg with
  | Running =>
      match st with
      | AtCall => Some (Extern c)
      | AtWrap =>
          match fn with
          | Guarded key _ => Some (AwaitFinally (AtCall, i) key)
          | _ => None
          end
      | AtRun => Some (Adopt (target fn i))
      | AtTail => Some (Then (AtRun, i) ToUndefined)
      | AtRet => Some (Adopt (AtRun, i))
      end
  | Finished o pr =>
      match st with
      | AtCall => Some (Settled o)
      | AtWrap =>
          match fn with
          | Guarded key _ =>
              Some (if cleaned pr then Settled o
                    else AwaitFinally (AtCall, i) key)
          | _ => None
          end
      | AtRun => Some (if ran pr then Settled o else Adopt (target fn i))
      | AtTail =>
          Some (if tailed pr then Settled (Fulfilled Undefined)
                else Then (AtRun, i) ToUndefined)
      | AtRet => Some (if delivered pr then Settled o else Adopt (AtRun, i))
      end
  end.

Definition progress_ok (fn : closure) (pr : progress) : Prop :=
  (ran pr = true →
   match fn with Guarded _ _ => cleaned pr = true | _ => True end)
  ∧ (tailed pr = true → ran pr = true)
  ∧ (delivered pr = true → ran pr = true).

(** Entries of the table and tasks of [enqueueMoveOnce] whose [finally]
    has not run. *)
Definition is_guarded_enqueue (key : string) (ev : event) : bool :=
  match ev with
  | EvEnqueue (Guarded k _) _ => bool_decide (k = key)
  | _ => false
  end.

Definition is_cleanup (key : string) (ev : event) : bool :=
  match ev with
  | EvCleanup k => bool_decide (k = key)
  | _ => false
  end.

Definition guarded_enqueued (key : string) (tr : list event) : nat :=
  length (filter (λ ev, is_guarded_enqueue key ev) tr).

Definition cleanups (key : string) (tr : list event) : nat :=
  length (filter (λ ev, is_cleanup key ev) tr).

(** Steps of the promise machinery other than the call of a task. *)
Definition quiet (ev : event) : bool :=
  match ev with
  | EvCleanup _ | EvJob => true
  | _ => false
  end.

(** The events of the queue at work: no request arrives, and the
    submitter answers a call [c] with [answer c]. *)
Definition answers (answer : call → outcome) (ev : event) : Prop :=
  match ev with
  | EvEnqueue _ _ | EvDeduped _ _ _ => False
  | EvSettle c o => o = answer c
  | _ => True
  end.

(** What a series of steps leaves alone. *)
Definition frame (i : nat) (s s' : state) : Prop :=
  (∀ st j, j ≠ i → heap s' !! (st, j) = heap s !! (st, j))
  ∧ count s' = count s ∧ tail s' = tail s.

(** What the trace says of a started task: the task that runs is the last
    one called and the only one not settled; a finished task has its
    outcome in the trace, and the tail promise of a task is settled before
    the next task is called. *)
Definition stage_ok (tr : list event) (i : nat) (fn : closure) (c : call)
    (sg : stage) : Prop :=
  match sg with
  | Running =>
      i = length (called tr)
      ∧ S (length (settled tr)) = length (called tr)
  | Finished o pr =>
      settled tr !! (i - 1)%nat = Some (c, o)
      ∧ progress_ok fn pr
      ∧ (i < length (called tr) → tailed pr = true)
  end.

(** The invariant of the runs. *)
Record inv (tr : list event) (s : state) : Prop := Inv {
  inv_count : count s = length (enqueued tr);
  inv_tail : tail s = (AtTail, count s);
  inv_returned : returned tr = (λ i, (AtRet, i)) <$> seq 1 (count s);
  inv_tasks : ∀ fn, fn ∈ enqueued tr → fn ≠ ToUndefined;
  inv_called :
    Some <$> called tr
    = call_of <$> take (length (called tr)) (enqueued tr);
  inv_called_le : length (called tr) ≤ count s;
  inv_settled : (settled tr).*1 = take (length (settled tr)) (called tr);
  inv_settled_le : length (settled tr) ≤ length (called tr);
  inv_zero : ∀ st,
    heap s !! (st, 0) =
      match st with
      | AtTail => Some (Settled (Fulfilled Undefined))
      | _ => None
      end;
  inv_fresh : ∀ st i, count s < i → heap s !! (st, i) = None;
  inv_waiting : ∀ i fn,
    length (called tr) < i → enqueued tr !! (i - 1) = Some fn →
    ∀ st, heap s !! (st, i) = waiting_cell i fn st;
  inv_started : ∀ i fn,
    1 ≤ i ≤ length (called tr) → enqueued tr !! (i - 1) = Some fn →
    ∃ c sg,
      call_of fn = Some c
      ∧ (∀ st, heap s !! (st, i) = started_cell i fn c sg st)
      ∧ stage_ok tr i fn c sg;
  inv_flight_run : ∀ i src key c,
    heap s !! (AtRun, i) = Some (Then src (Guarded key c)) →
    moveInFlight s !! key = Some (AtRet, i);
  inv_flight_wrap : ∀ i src key,
    heap s !! (AtWrap, i) = Some (AwaitFinally src key) →
    moveInFlight s !! key = Some (AtRet, i);
  inv_flight_entry : ∀ key h,
    moveInFlight s !! key = Some h →
    ∃ i, h = (AtRet, i)
         ∧ ((∃ src c, heap s !! (AtRun, i) = Some (Then src (Guarded key c)))
            ∨ (∃ src, heap s !! (AtWrap, i) = Some (AwaitFinally src key)));
  inv_flight_count : ∀ key,
    guarded_enqueued key tr
    = cleanups key tr + match moveInFlight s !! key with Some _ => 1 | None => 0 end
}.

(** Every promise of a reachable heap belongs to one of four kinds of
    index: the initial tail, an index not yet used, a waiting task or a
    started task. *)
Inductive kind (tr : list event) (s : state) (i : nat) : Prop :=
  | kind_zero :
      i = 0 →
      (∀ st, heap s !! (st, i) =
         match st with
         | AtTail => Some (Settled (Fulfilled Undefined))
         | _ => None
         end) →
      kind tr s i
  | kind_fresh :
      count s < i → (∀ st, heap s !! (st, i) = None) → kind tr s i
  | kind_waiting fn :
      length (called tr) < i ≤ count s →
      enqueued tr !! (i - 1) = Some fn → fn ≠ ToUndefined →
      (∀ st, heap s !! (st, i) = waiting_cell i fn st) →
      kind tr s i
  | kind_started fn c sg :
      1 ≤ i ≤ length (called tr) →
      enqueued tr !! (i - 1) = Some fn → call_of fn = Some c →
      (∀ st, heap s !! (st, i) = started_cell i fn c sg st) →
      stage_ok tr i fn c sg →
      kind tr s i.

End QueueInv.

(** ** A run of the queue, used to illustrate its properties *)

Module QueueDemo.
Import Queue Verify.

Definition alice : string := "0x7E5F4552091A69125d5DfCb7b8C2659029395Bdf".

Definition kick : call := KickInactive alice 200000.

Definition move : call := MoveFor alice 1 7 1900000000 "0x00" 300000.

Definition failure : jsError :=
  JsError None None (Some "nonce too low") "Error: nonce too low" None.

(** A [/kick] request and a [/move] request arrive, the move is asked for
    again in lower case, the kick is called and fails. *)
Definition demo_trace : list event :=
  [ EvEnqueue (Submit kick) (AtRet, 1%nat);
    EvEnqueue (Guarded (Js.toLowerCase alice) move) (AtRet, 2%nat);
    EvDeduped (Js.toLowerCase alice) move (AtRet, 2%nat);
    EvCall kick;
    EvSettle kick (Rejected failure) ].

Definition demo_state : state :=
  let s1 := (enqueue (Submit kick) init).2 in
  let s2 := (enqueueMoveOnce alice move s1).2 in
  let s3 :=
    set_heap s2 (<[(AtRun, 1%nat) := Adopt (AtCall, 1%nat)]>
                   (<[(AtCall, 1%nat) := Extern kick]> (heap s2))) in
  set_heap s3 (<[(AtCall, 1%nat) := Settled (Rejected failure)]> (heap s3)).

(** The state after the fourth event: the kick is called and has no
    outcome yet. *)
Definition demo_running : state :=
  let s1 := (enqueue (Submit kick) init).2 in
  let s2 := (enqueueMoveOnce alice move s1).2 in
  set_heap s2 (<[(AtRun, 1%nat) := Adopt (AtCall, 1%nat)]>
                 (<[(AtCall, 1%nat) := Extern kick]> (heap s2))).

(** The run goes on: the promises of the kick take its failure, the tail
    settles, the move is called and succeeds. *)
Definition demo_served : list event :=
  demo_trace
  ++ [ EvJob; EvJob; EvCall move; EvSettle move (Fulfilled (Tx "0x5e1d")) ].

Definition demo_served_state : state :=
  let s4 :=
    set_heap demo_state
      (<[(AtRun, 1%nat) := Settled (Rejected failure)]> (heap demo_state)) in
  let s5 :=
    set_heap s4
      (<[(AtTail, 1%nat) := Settled (Fulfilled Undefined)]> (heap s4)) in
  let s6 :=
    set_heap s5
      (<[(AtRun, 2%nat) := Adopt (AtWrap, 2%nat)]>
         (<[(AtWrap, 2%nat) :=
              AwaitFinally (AtCall, 2%nat) (Js.toLowerCase alice)]>
            (<[(AtCall, 2%nat) := Extern move]> (heap s5)))) in
  set_heap s6
    (<[(AtCall, 2%nat) := Settled (Fulfilled (Tx "0x5e1d"))]> (heap s6)).

End QueueDemo.

(** ** The HTTP handlers: [/health], [/join], [/set-name], [/move], [/kick] *)

Module Handlers.
Import Js Verify Relayer Queue.

(** The JSON bodies of the answers. *)
Inductive body :=
  | Health (chainId relayer relayerBalance arena : string)
  | Hash (hash : string)
  | Deduped
  | Refusal (error : string)
  | Failure (error : string) (code : option string)
  | Diagnosis (code : option string) (msg : string).

(** An answer: [res.status(status).json(body)]; [res.json] alone has
    status 200. *)
Record response := Response { status : Z; payload : body }.

(** What a handler does with a request: it answers at once, or it awaits
    a promise of the queue and answers when that promise settles. *)
Inductive reply :=
  | Answer (r : response)
  | Await (p : pid).

(** The [catch] block of [/join], [/set-name] and [/kick]. *)
Definition joinCatch (e : jsError) : response :=
  let err := normalizeErr e in
  Response 400 (Failure err.2 err.1).

(** The test of the [catch] block of [/move] on the lower-cased message. *)
Definition isOrderingConflict (msg : string) : bool :=
  let m := toLowerCase (orElse (Some msg) EmptyString) in
  includes m "higher priority"
  || includes m "nonce too low"
  || includes m "replacement transaction underpriced".

(** The [catch] block of [/move]. *)
Definition moveCatch (e : jsError) : response :=
  let err := normalizeErr e in
  if isOrderingConflict err.2
  then Response 409 (Failure err.2 err.1)
  else Response 400 (Failure err.2 err.1).

(** Reading [tx.hash] of [undefined] throws a [TypeError], which the
    [catch] block receives (the text is the one of V8). *)
Definition undefinedHash : jsError :=
  JsError None None
    (Some "Cannot read properties of undefined (reading 'hash')")
    "TypeError: Cannot read properties of undefined (reading 'hash')"
    None.

(** The answer once the awaited promise has settled:
    [res.json({ ok: true, hash: tx.hash })], or the [catch] block. *)
Definition settledWith (catch : jsError → response) (o : outcome)
  : response :=
  match o with
  | Fulfilled (Tx hash) => Response 200 (Hash hash)
  | Fulfilled Undefined => catch undefinedHash
  | Rejected e => catch e
  end.

Definition joinSettled : outcome → response := settledWith joinCatch.
Definition setNameSettled : outcome → response := settledWith joinCatch.
Definition moveSettled : outcome → response := settledWith moveCatch.
Definition kickSettled : outcome → response := settledWith joinCatch.

(** [/health]: the answer from the result of the two calls to the
    provider. *)
Definition health (r : jsError + body) : response :=
  match r with
  | inr b => Response 200 b
  | inl e => let err := normalizeErr e in Response 500 (Diagnosis err.1 err.2)
  end.

Section Requests.

(** The key recovery of the signature check, the configuration, and the
    error that ethers throws on this request when it throws (its text is
    not modelled). *)
Variable recoverPublicKey : list Z → Sig.signature → option (list Z).
Variable cfg : config.
Variable thrown : jsError.

(** The fields of a request body, typed as the handlers declare them;
    [nonce] and [deadline] are given by what [BigInt] makes of them, a
    number or the error it throws, and [dir] by what [Number] makes of it,
    [None] when that is not an integer. *)
Record joinBody := JoinBody {
  join_player : string;
  join_nonce : jsError + Z;
  join_deadline : jsError + Z;
  join_sig : string
}.

Record setNameBody := SetNameBody {
  name_player : string;
  name_nameBytes12 : string;
  name_nonce : jsError + Z;
  name_deadline : jsError + Z;
  name_sig : string
}.

Record moveBody := MoveBody {
  move_player : string;
  move_dir : option Z;
  move_nonce : jsError + Z;
  move_deadline : jsError + Z;
  move_sig : string
}.

Record kickBody := KickBody { kick_player : string }.

Definition refuse (error : string) : reply :=
  Answer (Response 400 (Refusal error)).

(** The part of a handler from the digest on: the digest and the
    signature check may throw, a wrong signer is refused, and otherwise
    [submit] hands the task to the queue. *)
Definition checked (catch : jsError → response) (player : string)
    (digest : option string) (sig : string)
    (submit : state → reply * state) (s : state) : reply * state :=
  match digest with
  | None => (Answer (catch thrown), s)
  | Some dig =>
      match verifyBurnerSignature recoverPublicKey player dig sig with
      | None => (Answer (catch thrown), s)
      | Some false => (refuse "Bad burner sig", s)
      | Some true => submit s
      end
  end.

(** [app.post("/join", ...)] up to its [await]. *)
Definition join (b : joinBody) (s : state) : reply * state :=
  if negb (isAddr (join_player b)) then (refuse "Bad player address", s)
  else if negb (startsWith (join_sig b) "0x") then (refuse "Bad sig", s)
  else
    match join_nonce b with
    | inl e => (Answer (joinCatch e), s)
    | inr n =>
        match join_deadline b with
        | inl e => (Answer (joinCatch e), s)
        | inr dl =>
            checked joinCatch (join_player b)
              (digestJoin cfg (join_player b) n dl) (join_sig b)
              (λ s,
                 let '(p, s') :=
                   enqueue
                     (Submit (JoinFor (join_player b) n dl (join_sig b)
                                250000)) s in
                 (Await p, s'))
              s
        end
    end.

(** [app.post("/set-name", ...)] up to its [await]. *)
Definition setName (b : setNameBody) (s : state) : reply * state :=
  if negb (isAddr (name_player b)) then (refuse "Bad player address", s)
  else if negb (startsWith (name_nameBytes12 b) "0x")
          || negb (String.length (name_nameBytes12 b) =? 26)%nat
  then (refuse "Bad nameBytes12 (must be 12 bytes hex)", s)
  else
    match name_nonce b with
    | inl e => (Answer (joinCatch e), s)
    | inr n =>
        match name_deadline b with
        | inl e => (Answer (joinCatch e), s)
        | inr dl =>
            checked joinCatch (name_player b)
              (digestSetName cfg (name_player b) (name_nameBytes12 b) n dl)
              (name_sig b)
              (λ s,
                 let '(p, s') :=
                   enqueue
                     (Submit (SetNameFor (name_player b) (name_nameBytes12 b)
                                n dl (name_sig b) 250000)) s in
                 (Await p, s'))
              s
        end
    end.

(** [[0, 1, 2, 3].includes(d)]. *)
Definition isDir (d : option Z) : bool :=
  match d with
  | Some d => (0 <=? d)%Z && (d <=? 3)%Z
  | None => false
  end.

(** [app.post("/move", ...)] up to [await promise]; a deduped request is
    answered at once. *)
Definition move (b : moveBody) (s : state) : reply * state :=
  if negb (isAddr (move_player b)) then (refuse "Bad player address", s)
  else if negb (isDir (move_dir b)) then (refuse "Bad dir", s)
  else
    let d := default 0%Z (move_dir b) in
    match move_nonce b with
    | inl e => (Answer (moveCatch e), s)
    | inr n =>
        match move_deadline b with
        | inl e => (Answer (moveCatch e), s)
        | inr dl =>
            checked moveCatch (move_player b)
              (digestMove cfg (move_player b) d n dl) (move_sig b)
              (λ s,
                 let '(r, s') :=
                   enqueueMoveOnce (move_player b)
                     (MoveFor (move_player b) d n dl (move_sig b) 300000) s in
                 if deduped r then (Answer (Response 200 Deduped), s')
                 else (Await (promise r), s'))
              s
        end
    end.

(** [app.post("/kick", ...)] up to its [await]. *)
Definition kick (b : kickBody) (s : state) : reply * state :=
  if negb (isAddr (kick_player b)) then (refuse "Bad player address", s)
  else
    let '(p, s') := enqueue (Submit (KickInactive (kick_player b) 200000)) s in
    (Await p, s').

End Requests.

End Handlers.

(** ** A valid request, used to illustrate the handlers *)

Module HandlerDemo.
Import Js Verify Relayer Queue Handlers QueueDemo.

(** A key recovery that always finds the public key of the private key 1,
    whose address is [alice]. *)
Definition recover (_ : list Z) (_ : Sig.signature) : option (list Z) :=
  Some (Arena.beBytes 32
          0x79BE667EF9DCBBAC55A06295CE870B07029BFCDB2DCE28D959F2815B16F81798
        ++ Arena.beBytes 32
          0x483ADA7726A3C4655DA4FBFC0E1108A8FD17B448A68554199C47D08FFB10D4B8).

Definition cfg : config :=
  Config 10143 "0x00000000000000000000000000000000000000a1".

Definition signed : string := hexlify (replicate 64 1%Z ++ [27%Z]).

Definition joinRequest : joinBody := JoinBody alice (inr 0%Z) (inr 0%Z) signed.

Definition moveRequest : moveBody :=
  MoveBody alice (Some 3%Z) (inr 0%Z) (inr 0%Z) signed.

Definition setNameRequest : setNameBody :=
  SetNameBody alice "0x74656a000000000000000000" (inr 0%Z) (inr 0%Z) signed.

End HandlerDemo.

(** ** A submission that the chain refuses as out of order *)

Module FailureDemo.
Import Js Verify Queue QueueInv QueueDemo Handlers HandlerDemo.

(** The double quote, character 34. *)
Definition dquote : string := String "034" EmptyString.

(** The error that a contract call of ethers rejects with when the node
    answers [eth_sendRawTransaction] with the JSON-RPC error of code -32000
    and message [nonce too low]: [getRpcError] hands the short text, the
    code [NONCE_EXPIRED] and the node's answer to [makeError], which keeps
    the short text as [shortMessage] and appends the details to [message].
    There is no [reason].  The bytes of the transaction are cut short
    here. *)
Definition nonceExpired : jsError :=
  let short := "nonce has already been used" in
  let text :=
    short +:+ " (transaction=" +:+ dquote +:+ "0x02f86d" +:+ dquote
    +:+ ", info={ " +:+ dquote +:+ "error" +:+ dquote +:+ ": { "
    +:+ dquote +:+ "code" +:+ dquote +:+ ": -32000, "
    +:+ dquote +:+ "message" +:+ dquote +:+ ": "
    +:+ dquote +:+ "nonce too low" +:+ dquote
    +:+ " } }, code=NONCE_EXPIRED, version=6.13.5)" in
  JsError (Some short) None (Some text) ("Error: " +:+ text)
    (Some "NONCE_EXPIRED").

Definition kickRequest : kickBody := KickBody alice.

(** The life of a request whose submission fails, from the start of the
    process: the handler [first] hands a task to the queue and awaits the
    promise [p]; the queue calls [c]; the submitter rejects the call with
    [e]; jobs of the promise machinery follow, after which [p] is rejected
    with [e] and the queue can make no call. *)
Definition rejected_once (first : state → reply * state) (c : call)
    (e : jsError) : Prop :=
  ∃ p fn s1 evs s2,
    first init = (Await p, s1)
    ∧ step init (EvEnqueue fn p) s1 ∧ call_of fn = Some c
    ∧ steps s1 (EvCall c :: EvSettle c (Rejected e) :: evs) s2
    ∧ Forall (λ ev, quiet ev = true) evs
    ∧ heap s2 !! p = Some (Settled (Rejected e))
    ∧ ∀ c' s', ¬ step s2 (EvCall c') s'.

End FailureDemo.

(** ** The [Arena] contract: state and entry points ([Arena.sol]) *)

Module ArenaGame.
Import Arena.
Local Open Scope Z_scope.

Definition MAP_SIZE : Z := 64.
Definition INACTIVITY_TIMEOUT : Z := 15.

(** The custom errors of the contract; [Panic] is the revert of checked
    arithmetic, [InvalidSignature] the revert of [ECDSA.recover]. *)
Inductive error :=
  | BadSig | Expired | BadNonce | NotJoined | InvalidDir | NameEmpty
  | NotInactive | NotActive | Panic | InvalidSignature.

(** [struct Player { uint8 x; uint8 y; uint32 score; bool joined; }]. *)
Record Player := mkPlayer { x : Z; y : Z; score : Z; joined : bool }.

(** The storage.  A mapping reads as zero where nothing was written:
    [None] stands for the zero value. *)
Record state := State {
  players : gmap Z Player;
  nameOf : gmap Z (list Z);
  tileOccupant : gmap Z Z;
  nonces : gmap Z Z;
  lastActiveAt : gmap Z Z
}.

Definition empty : state := State ∅ ∅ ∅ ∅ ∅.

Definition playerOf (st : state) (a : Z) : Player :=
  default (mkPlayer 0 0 0 false) (players st !! a).

Definition nameOfPlayer (st : state) (a : Z) : list Z :=
  default (replicate 12 0) (nameOf st !! a).

Definition occupant (occ : gmap Z Z) (tile : Z) : Z := default 0 (occ !! tile).

Definition nonceOf (st : state) (a : Z) : Z := default 0 (nonces st !! a).

Definition lastActive (st : state) (a : Z) : Z :=
  default 0 (lastActiveAt st !! a).

(** The block: [block.timestamp], [block.prevrandao], [block.number]. *)
Record block := Block { timestamp : Z; prevrandao : Z; number : Z }.

(** Conversions to [uint8] and [uint16], which truncate. *)
Definition uint8 (v : Z) : Z := v mod 256.
Definition uint16 (v : Z) : Z := v mod 65536.

(** [_tileId]: the sum cannot overflow a [uint16]. *)
Definition _tileId (x y : Z) : Z :=
  uint16 (uint16 x + uint16 y * uint16 MAP_SIZE).

(** [_applyDir], in an [unchecked] block. *)
Definition _applyDir (x y dir : Z) : Z * Z :=
  if dir =? 0 then
    if y =? 0 then (x, y) else (x, uint8 (y - 1))
  else if dir =? 1 then
    if y =? MAP_SIZE - 1 then (x, y) else (x, uint8 (y + 1))
  else if dir =? 2 then
    if x =? 0 then (x, y) else (uint8 (x - 1), y)
  else
    if x =? MAP_SIZE - 1 then (x, y) else (uint8 (x + 1), y).

(** [uint256(keccak256(abi.encodePacked(...)))]. *)
Definition hashToUint (vs : list abiValue) : Z :=
  Abi.beValue (Keccak.keccak256 (encodePacked vs)).

(** The probes of [_spawn]: [n] iterations of the loop from index [i]. *)
Fixpoint probe (occ : gmap Z Z) (seed : Z) (i : Z) (n : nat)
  : option (Z * Z) :=
  match n with
  | O => None
  | S n' =>
      let h := hashToUint [Uint 256 seed; Uint 256 i] in
      let x := uint8 (h mod MAP_SIZE) in
      let y := uint8 (Z.shiftr h 8 mod MAP_SIZE) in
      if occupant occ (_tileId x y) =? 0 then Some (x, y)
      else probe occ seed (i + 1) n'
  end.

(** [_spawn]: forty probes, then a tile that may be occupied. *)
Definition _spawn (ctx : context) (blk : block) (occ : gmap Z Z)
    (player salt : Z) : Z * Z :=
  let seed :=
    hashToUint [Uint 256 (prevrandao blk); Uint 256 (timestamp blk);
                Uint 256 (number blk); Address player; Uint 256 salt;
                Address (this ctx)] in
  match probe occ seed 0 40 with
  | Some xy => xy
  | None => (uint8 (seed mod MAP_SIZE), uint8 (Z.shiftr seed 8 mod MAP_SIZE))
  end.

(** [_checkDeadline]. *)
Definition _checkDeadline (blk : block) (deadline : Z) : error + unit :=
  if negb (deadline =? 0) && (timestamp blk >? deadline)
  then inl Expired else inr tt.

(** [_useNonce]; the addition is checked. *)
Definition _useNonce (player nonce : Z) (st : state) : error + state :=
  if negb (nonceOf st player =? nonce) then inl BadNonce
  else if 2 ^ 256 <=? nonce + 1 then inl Panic
  else inr (State (players st) (nameOf st) (tileOccupant st)
              (<[player := nonce + 1]> (nonces st)) (lastActiveAt st)).

Definition setLastActive (player : Z) (t : Z) (st : state) : state :=
  State (players st) (nameOf st) (tileOccupant st) (nonces st)
    (<[player := t]> (lastActiveAt st)).

Definition setPlayer (a : Z) (p : Player) (st : state) : state :=
  State (<[a := p]> (players st)) (nameOf st) (tileOccupant st) (nonces st)
    (lastActiveAt st).

Definition setOccupant (tile a : Z) (st : state) : state :=
  State (players st) (nameOf st) (<[tile := a]> (tileOccupant st))
    (nonces st) (lastActiveAt st).

Definition setName (a : Z) (name : list Z) (st : state) : state :=
  State (players st) (<[a := name]> (nameOf st)) (tileOccupant st)
    (nonces st) (lastActiveAt st).

(** [_joinIfNeeded]. *)
Definition _joinIfNeeded (ctx : context) (blk : block) (player : Z)
    (st : state) : state :=
  if joined (playerOf st player) then st
  else
    let '(sx, sy) := _spawn ctx blk (tileOccupant st) player 0 in
    let st1 := setPlayer player (mkPlayer sx sy 0 true) st in
    let st2 := setOccupant (_tileId sx sy) player st1 in
    setLastActive player (timestamp blk) st2.

(** [_move]. *)
Definition _move (ctx : context) (blk : block) (player dir : Z)
    (st : state) : error + state :=
  if dir >? 3 then inl InvalidDir
  else
    let me := playerOf st player in
    if negb (joined me) then inl NotJoined
    else
      let fromX := x me in
      let fromY := y me in
      let '(toX, toY) := _applyDir fromX fromY dir in
      if (toX =? fromX) && (toY =? fromY) then inr st
      else
        let fromTile := _tileId fromX fromY in
        let toTile := _tileId toX toY in
        let st1 := setOccupant fromTile 0 st in
        let victim := occupant (tileOccupant st1) toTile in
        let killed :=
          if negb (victim =? 0) && negb (victim =? player)
             && joined (playerOf st1 victim)
          then
            if 2 ^ 32 <=? score me + 1 then inl Panic
            else
              let st2 := setLastActive player (timestamp blk) st1 in
              let st3 :=
                setPlayer player
                  (mkPlayer fromX fromY (score me + 1) true) st2 in
              let st4 := setOccupant toTile 0 st3 in
              let v := playerOf st4 victim in
              let st5 := setPlayer victim (mkPlayer (x v) (y v) 0 true) st4 in
              let '(rx, ry) :=
                _spawn ctx blk (tileOccupant st5) victim
                  (score me + 1 + toTile) in
              let st6 := setPlayer victim (mkPlayer rx ry 0 true) st5 in
              inr (setOccupant (_tileId rx ry) victim st6)
          else inr st1 in
        match killed with
        | inl e => inl e
        | inr st' =>
            let me' := playerOf st' player in
            let st'' :=
              setPlayer player (mkPlayer toX toY (score me') (joined me'))
                st' in
            inr (setOccupant toTile player st'')
        end.

Section Entry.

(** The key recovery under [ECDSA.recover]; [ECDSA.recover] reverts
    when it fails, and when it yields the zero address. *)
Variable recover : list Z → list Z → option Z.

(** [MessageHashUtils.toEthSignedMessageHash]. *)
Definition toEthSignedMessageHash (digest : list Z) : list Z :=
  Keccak.keccak256
    (0x19 :: Ethers.charCodes "Ethereum Signed Message:" ++ [10; 51; 50]
     ++ digest).

(** [_verify]. *)
Definition _verify (signer : Z) (digest sig : list Z) : error + unit :=
  match recover (toEthSignedMessageHash digest) sig with
  | None => inl InvalidSignature
  | Some recovered =>
      if recovered =? 0 then inl InvalidSignature
      else if recovered =? signer then inr tt else inl BadSig
  end.

(** A call of the contract. *)
Inductive call :=
  | SetNameFor (player : Z) (newName : list Z) (nonce deadline : Z)
      (sig : list Z)
  | JoinFor (player nonce deadline : Z) (sig : list Z)
  | MoveFor (player dir nonce deadline : Z) (sig : list Z)
  | KickInactive (player : Z).

Definition setNameFor (ctx : context) (blk : block) (player : Z)
    (newName : list Z) (nonce deadline : Z) (sig : list Z) (st : state)
  : error + state :=
  match _checkDeadline blk deadline with
  | inl e => inl e
  | inr _ =>
      match _useNonce player nonce st with
      | inl e => inl e
      | inr st1 =>
          if bool_decide (newName = replicate 12 0) then inl NameEmpty
          else
            match _verify player
                    (_digestSetName ctx player newName nonce deadline) sig with
            | inl e => inl e
            | inr _ =>
                inr (setLastActive player (timestamp blk)
                       (setName player newName st1))
            end
      end
  end.

Definition joinFor (ctx : context) (blk : block) (player nonce deadline : Z)
    (sig : list Z) (st : state) : error + state :=
  match _checkDeadline blk deadline with
  | inl e => inl e
  | inr _ =>
      match _useNonce player nonce st with
      | inl e => inl e
      | inr st1 =>
          match _verify player (_digestJoin ctx player nonce deadline) sig with
          | inl e => inl e
          | inr _ =>
              inr (_joinIfNeeded ctx blk player
                     (setLastActive player (timestamp blk) st1))
          end
      end
  end.

Definition moveFor (ctx : context) (blk : block)
    (player dir nonce deadline : Z) (sig : list Z) (st : state)
  : error + state :=
  match _checkDeadline blk deadline with
  | inl e => inl e
  | inr _ =>
      match _useNonce player nonce st with
      | inl e => inl e
      | inr st1 =>
          match _verify player (_digestMove ctx player dir nonce deadline)
                  sig with
          | inl e => inl e
          | inr _ =>
              _move ctx blk player dir
                (setLastActive player (timestamp blk) st1)
          end
      end
  end.

Definition kickInactive (blk : block) (player : Z) (st : state)
  : error + state :=
  let p := playerOf st player in
  if negb (joined p) then inl NotActive
  else
    let last := lastActive st player in
    if 2 ^ 256 <=? last + INACTIVITY_TIMEOUT then inl Panic
    else if timestamp blk <=? last + INACTIVITY_TIMEOUT then inl NotInactive
    else
      let tile := _tileId (x p) (y p) in
      let st1 :=
        if occupant (tileOccupant st) tile =? player
        then setOccupant tile 0 st else st in
      let st2 := setPlayer player (mkPlayer (x p) (y p) 0 false) st1 in
      let st3 := setName player (replicate 12 0) st2 in
      inr (setLastActive player 0 st3).

(** A transaction: the call runs in the block, and a revert leaves the
    storage as it was. *)
Definition execute (ctx : context) (blk : block) (c : call) (st : state)
  : error + state :=
  match c with
  | SetNameFor player newName nonce deadline sig =>
      setNameFor ctx blk player newName nonce deadline sig st
  | JoinFor player nonce deadline sig =>
      joinFor ctx blk player nonce deadline sig st
  | MoveFor player dir nonce deadline sig =>
      moveFor ctx blk player dir nonce deadline sig st
  | KickInactive player => kickInactive blk player st
  end.

(** The states of the contract: what successful transactions, each in a
    block of its own choosing, make of the empty storage. *)
Inductive reachable (ctx : context) : state → Prop :=
  | reachable_empty : reachable ctx empty
  | reachable_step st blk c st' :
      reachable ctx st → execute ctx blk c st = inr st' →
      reachable ctx st'.

End Entry.

(** What the storage promises: the players are on the map, and a tile
    with an occupant holds a joined player who stands on it. *)
Definition on_map (p : Player) : Prop :=
  0 ≤ x p < MAP_SIZE ∧ 0 ≤ y p < MAP_SIZE.

Definition players_on_map (st : state) : Prop :=
  ∀ a p, players st !! a = Some p → on_map p.

Definition occupants_stand (st : state) : Prop :=
  ∀ tile a, tileOccupant st !! tile = Some a → a ≠ 0 →
    joined (playerOf st a) = true
    ∧ _tileId (x (playerOf st a)) (y (playerOf st a)) = tile.

(** The player [a] occupies no tile. *)
Definition free (st : state) (a : Z) : Prop :=
  ∀ tile, tileOccupant st !! tile ≠ Some a.

(** The invariant of the storage. *)
Definition wf (st : state) : Prop :=
  players_on_map st ∧ occupants_stand st ∧ joined (playerOf st 0) = false.

(** The signer and the nonce of a relayed call. *)
Definition intent (c : call) : option (Z * Z) :=
  match c with
  | SetNameFor player _ nonce _ _ => Some (player, nonce)
  | JoinFor player nonce _ _ => Some (player, nonce)
  | MoveFor player _ nonce _ _ => Some (player, nonce)
  | KickInactive _ => None
  end.

(** Later states: any number of successful transactions. *)
Inductive evolves (recover : list Z → list Z → option Z) (ctx : context)
  : state → state → Prop :=
  | evolves_refl st : evolves recover ctx st st
  | evolves_step st blk c st' st'' :
      execute recover ctx blk c st = inr st' →
      evolves recover ctx st' st'' →
      evolves recover ctx st st''.

End ArenaGame.
(** ** A game, used to illustrate the contract *)

Module ArenaDemo.
Import Arena ArenaGame.
Local Open Scope Z_scope.

(** A key recovery that always finds the address 5. *)
Definition recover (_ _ : list Z) : option Z := Some 5.

Definition ctx : context := Context 10143 0xa1.

Definition blk : block := Block 1000 7 42.

Definition later : block := Block 2000 8 43.

(** The storage after the player 5 has joined. *)
Definition joinedState : state :=
  match execute recover ctx blk (JoinFor 5 0 0 []) empty with
  | inr st => st
  | inl _ => empty
  end.

(** The storage after a move to the right. *)
Definition movedState : state :=
  match execute recover ctx blk (MoveFor 5 3 1 0 []) joinedState with
  | inr st => st
  | inl _ => empty
  end.

(** The storage after the player has been kicked. *)
Definition kickedState : state :=
  match execute recover ctx later (KickInactive 5) joinedState with
  | inr st => st
  | inl _ => empty
  end.

End ArenaDemo.

(** ** The client: the name typed by the player ([app/page.tsx]) *)

Module Client.
Import Js.
Local Open Scope Z_scope.

(** The characters that [/[^a-zA-Z0-9 _.-]/g] leaves in place. *)
Definition isNameChar (c : Z) : bool :=
  (97 <=? c) && (c <=? 122) || (65 <=? c) && (c <=? 90)
  || (48 <=? c) && (c <=? 57)
  || (c =? 32) || (c =? 95) || (c =? 46) || (c =? 45).

(** [sanitizeName]. *)
Definition sanitizeName (name : option (list Z)) : list Z :=
  filter (λ c, isNameChar c) (take 12 (trim (default [] name))).

End Client.

(* ================================================================== *)
(** * Part II: properties                                              *)
(* ================================================================== *)

(** ** Rate limiter *)

Section RateLimitFacts.
Import RateLimit.

Lemma rateLimit_other ip ip' now (hits : gmap string entry) :
  ip ≠ ip' → (rateLimit ip' now hits).2 !! ip = hits !! ip.
Proof.
  intros Hne. unfold rateLimit.
  destruct (hits !! ip') as [e|]; simpl;
    repeat case_match; simpl; by rewrite lookup_insert_ne.
Qed.

Lemma rateLimit_inside ip now c r (hits : gmap string entry) :
  hits !! ip = Some (Entry c r) → (now ≤ r)%Z →
  rateLimit ip now hits =
    (if (c + 1 >? max)%Z then Reject 429 else Next,
     <[ip := Entry (c + 1) r]> hits).
Proof.
  intros Hin Hle. unfold rateLimit. rewrite Hin. simpl.
  destruct (Z.gtb_spec now r) as [Hgt|_]; [lia|].
  by destruct (c + 1 >? max)%Z.
Qed.

Lemma rateLimit_opens ip now (hits : gmap string entry) :
  match hits !! ip with Some e => (resetAt e < now)%Z | None => True end →
  rateLimit ip now hits = (Next, <[ip := Entry 1 (now + windowMs)]> hits).
Proof.
  unfold rateLimit. destruct (hits !! ip) as [e|]; [|done].
  intros Hlt. destruct (Z.gtb_spec now (resetAt e)); [done|lia].
Qed.

Lemma serve_cons ip now reqs (hits : gmap string entry) :
  serve ((ip, now) :: reqs) hits =
    (ip, (rateLimit ip now hits).1) :: serve reqs (rateLimit ip now hits).2.
Proof. simpl. by destruct (rateLimit ip now hits). Qed.

Lemma times_of_cons ip ip' now reqs :
  times_of ip ((ip', now) :: reqs) =
    if decide (ip' = ip) then now :: times_of ip reqs else times_of ip reqs.
Proof. unfold times_of. rewrite filter_cons. simpl. by case_decide. Qed.

Lemma decisions_of_cons ip ip' d ds :
  decisions_of ip ((ip', d) :: ds) =
    if decide (ip' = ip) then d :: decisions_of ip ds else decisions_of ip ds.
Proof. unfold decisions_of. rewrite filter_cons. simpl. by case_decide. Qed.

Lemma serve_inside ip c r reqs (hits : gmap string entry) :
  hits !! ip = Some (Entry c r) →
  Forall (λ t, (t ≤ r)%Z) (times_of ip reqs) →
  decisions_of ip (serve reqs hits) = in_window c (length (times_of ip reqs)).
Proof.
  revert hits c. induction reqs as [|[ip' now] reqs IH]; intros hits c Hin Hall.
  - reflexivity.
  - rewrite serve_cons, decisions_of_cons. rewrite times_of_cons in Hall |- *.
    destruct (decide (ip' = ip)) as [->|Hne].
    + apply Forall_cons in Hall as [Hnow Hall].
      rewrite (rateLimit_inside _ _ _ _ _ Hin Hnow). cbn [fst snd length in_window].
      f_equal. apply IH; [by rewrite lookup_insert_eq|done].
    + apply IH; [|done]. by rewrite rateLimit_other.
Qed.

(** C8.  A request that finds no entry for its origin, or an expired one,
    opens a window of 2000 ms: it is let through and the counter restarts
    at 1.  Whatever other origins do in between, the next 24 requests of
    that origin arriving inside the window are let through as well and
    the 26th is answered 429: one rejection among the 26. *)
Theorem rateLimit_fixed_window
    (ip : string) (t1 : Z) (ts : list Z)
    (reqs : list (string * Z)) (hits : gmap string entry) :
  match hits !! ip with Some e => (resetAt e < t1)%Z | None => True end →
  times_of ip reqs = t1 :: ts →
  length ts = 25 →
  Forall (λ t, (t ≤ t1 + 2000)%Z) ts →
  rateLimit ip t1 hits = (Next, <[ip := Entry 1 (t1 + 2000)]> hits)
  ∧ decisions_of ip (serve reqs hits) = replicate 25 Next ++ [Reject 429].
Proof.
  intros Hopen Htimes Hlen Hall.
  split; [by apply rateLimit_opens|].
  revert hits Hopen Htimes.
  induction reqs as [|[ip' now] reqs IH]; intros hits Hopen Htimes; [done|].
  rewrite serve_cons, decisions_of_cons. rewrite times_of_cons in Htimes.
  destruct (decide (ip' = ip)) as [->|Hne].
  - injection Htimes as -> Hts.
    rewrite (rateLimit_opens _ _ _ Hopen). cbn [fst snd].
    rewrite (serve_inside ip 1 (t1 + windowMs));
      [|by rewrite lookup_insert_eq|by rewrite Hts].
    by rewrite Hts, Hlen.
  - apply IH; [|done]. by rewrite rateLimit_other.
Qed.

Lemma rateLimit_fixed_window_witness :
  let reqs := ("10.0.0.1", 1000%Z) :: ("10.0.0.2", 1001%Z)
              :: replicate 25 ("10.0.0.1", 3000%Z) in
  rateLimit "10.0.0.1" 1000 ∅ = (Next, <[ "10.0.0.1" := Entry 1 3000 ]> ∅)
  ∧ decisions_of "10.0.0.1" (serve reqs ∅) = replicate 25 Next ++ [Reject 429].
Proof.
  apply (rateLimit_fixed_window "10.0.0.1" 1000 (replicate 25 3000%Z)).
  - rewrite lookup_empty. exact I.
  - reflexivity.
  - reflexivity.
  - apply Forall_replicate. lia.
Defined.

End RateLimitFacts.

(** ** Bit-level facts used by the string functions *)

Section BitFacts.
Local Open Scope Z_scope.

(** A property of the integers below a (small) bound, decided by running
    through them. *)
Lemma range_check (P : Z → bool) (n : nat) :
  forallb P (Z.of_nat <$> seq 0 n) = true →
  ∀ z, 0 ≤ z < Z.of_nat n → P z = true.
Proof.
  intros Hall z Hz. rewrite forallb_forall in Hall. apply Hall.
  apply in_map_iff. exists (Z.to_nat z). split; [lia|].
  apply in_seq. lia.
Qed.

Lemma lor_shiftl_add hi lo k :
  0 ≤ k → 0 ≤ lo < 2 ^ k → Z.lor (Z.shiftl hi k) lo = hi * 2 ^ k + lo.
Proof.
  intros Hk Hlo. rewrite <- Z.shiftl_mul_pow2 by done.
  symmetry. apply Z.add_nocarry_lor.
  apply Z.bits_inj'. intros n Hn. rewrite Z.land_spec, Z.bits_0.
  destruct (Z.ltb_spec n k).
  - by rewrite Z.shiftl_spec_low.
  - rewrite <- (Z.mod_small lo (2 ^ k)) by done.
    rewrite Z.mod_pow2_bits_high by lia. apply andb_false_r.
Qed.

Lemma land_0x3f a : Z.land a 0x3f = a mod 64.
Proof. change 0x3f with (Z.ones 6). by rewrite Z.land_ones. Qed.

Lemma land_0x3ff a : Z.land a 0x3ff = a mod 1024.
Proof. change 0x3ff with (Z.ones 10). by rewrite Z.land_ones. Qed.

Lemma land_0x0f a : Z.land a 0x0f = a mod 16.
Proof. change 0x0f with (Z.ones 4). by rewrite Z.land_ones. Qed.

Lemma land_0xfc00 c : 0 ≤ c < 65536 → Z.land c 0xfc00 = c / 1024 * 1024.
Proof.
  intros Hc. apply Z.bits_inj'. intros n Hn.
  rewrite Z.land_spec.
  change 0xfc00 with (Z.shiftl (Z.ones 6) 10).
  change 1024 with (2 ^ 10).
  rewrite <- Z.shiftl_mul_pow2, <- Z.shiftr_div_pow2 by lia.
  destruct (Z.ltb_spec n 10).
  - rewrite !Z.shiftl_spec_low by lia. apply andb_false_r.
  - rewrite !Z.shiftl_spec by lia. rewrite Z.shiftr_spec by lia.
    replace (n - 10 + 10) with n by lia.
    destruct (Z.ltb_spec n 16).
    + rewrite Z.ones_spec_low by lia. apply andb_true_r.
    + rewrite Z.ones_spec_high by lia.
      rewrite <- (Z.mod_small c (2 ^ 16)) by lia.
      by rewrite Z.mod_pow2_bits_high by lia.
Qed.

Lemma lor_0x80 y : 0 ≤ y < 64 → Z.lor y 0x80 = 0x80 + y.
Proof.
  intros. change 0x80 with (Z.shiftl 2 6) at 1.
  rewrite Z.lor_comm, lor_shiftl_add; lia.
Qed.

Lemma lor_0xc0 x : 0 ≤ x < 32 → Z.lor x 0xc0 = 0xc0 + x.
Proof.
  intros. change 0xc0 with (Z.shiftl 6 5) at 1.
  rewrite Z.lor_comm, lor_shiftl_add; lia.
Qed.

Lemma lor_0xe0 x : 0 ≤ x < 16 → Z.lor x 0xe0 = 0xe0 + x.
Proof.
  intros. change 0xe0 with (Z.shiftl 14 4) at 1.
  rewrite Z.lor_comm, lor_shiftl_add; lia.
Qed.

Lemma lor_0xf0 x : 0 ≤ x < 8 → Z.lor x 0xf0 = 0xf0 + x.
Proof.
  intros. change 0xf0 with (Z.shiftl 30 3) at 1.
  rewrite Z.lor_comm, lor_shiftl_add; lia.
Qed.

(** How the decoder reads the bytes the encoder writes. *)
Lemma lead1_facts c : 0 ≤ c < 0x80 → (Z.shiftr c 7 =? 0) = true.
Proof.
  intros. rewrite Z.shiftr_div_pow2 by lia. apply Z.eqb_eq.
  apply Z.div_small. lia.
Qed.

Lemma lead2_facts x :
  0 ≤ x < 32 →
  (Z.shiftr (0xc0 + x) 7 =? 0) = false
  ∧ (Z.land (0xc0 + x) 0xe0 =? 0xc0) = true
  ∧ Z.land (0xc0 + x) 0x3f = x.
Proof.
  intros Hx.
  pose proof (range_check
    (λ x, negb (Z.shiftr (0xc0 + x) 7 =? 0)
          && (Z.land (0xc0 + x) 0xe0 =? 0xc0)
          && (Z.land (0xc0 + x) 0x3f =? x)) 32 eq_refl x Hx) as H.
  apply andb_prop in H as [H H3]. apply andb_prop in H as [H1 H2].
  apply negb_true_iff in H1. by apply Z.eqb_eq in H3.
Qed.

Lemma lead3_facts x :
  0 ≤ x < 16 →
  (Z.shiftr (0xe0 + x) 7 =? 0) = false
  ∧ (Z.land (0xe0 + x) 0xe0 =? 0xc0) = false
  ∧ (Z.land (0xe0 + x) 0xf0 =? 0xe0) = true
  ∧ Z.land (0xe0 + x) 0x1f = x.
Proof.
  intros Hx.
  pose proof (range_check
    (λ x, negb (Z.shiftr (0xe0 + x) 7 =? 0)
          && negb (Z.land (0xe0 + x) 0xe0 =? 0xc0)
          && (Z.land (0xe0 + x) 0xf0 =? 0xe0)
          && (Z.land (0xe0 + x) 0x1f =? x)) 16 eq_refl x Hx) as H.
  apply andb_prop in H as [H H4]. apply andb_prop in H as [H H3].
  apply andb_prop in H as [H1 H2].
  apply negb_true_iff in H1, H2. by apply Z.eqb_eq in H4.
Qed.

Lemma lead4_facts x :
  0 ≤ x < 8 →
  (Z.shiftr (0xf0 + x) 7 =? 0) = false
  ∧ (Z.land (0xf0 + x) 0xe0 =? 0xc0) = false
  ∧ (Z.land (0xf0 + x) 0xf0 =? 0xe0) = false
  ∧ (Z.land (0xf0 + x) 0xf8 =? 0xf0) = true
  ∧ Z.land (0xf0 + x) 0x0f = x.
Proof.
  intros Hx.
  pose proof (range_check
    (λ x, negb (Z.shiftr (0xf0 + x) 7 =? 0)
          && negb (Z.land (0xf0 + x) 0xe0 =? 0xc0)
          && negb (Z.land (0xf0 + x) 0xf0 =? 0xe0)
          && (Z.land (0xf0 + x) 0xf8 =? 0xf0)
          && (Z.land (0xf0 + x) 0x0f =? x)) 8 eq_refl x Hx) as H.
  apply andb_prop in H as [H H5]. apply andb_prop in H as [H H4].
  apply andb_prop in H as [H H3]. apply andb_prop in H as [H1 H2].
  apply negb_true_iff in H1, H2, H3. by apply Z.eqb_eq in H5.
Qed.

Lemma continue_tail res y :
  0 ≤ y < 64 → Js.continue res (0x80 + y) = Some (res * 64 + y).
Proof.
  intros Hy. unfold Js.continue.
  pose proof (range_check (λ y, Z.land (0x80 + y) 0xc0 =? 0x80) 64 eq_refl y Hy)
    as ->.
  f_equal. rewrite land_0x3f.
  replace ((0x80 + y) mod 64) with y by (Z.div_mod_to_equations; lia).
  by rewrite lor_shiftl_add by lia.
Qed.

End BitFacts.

Section HexFacts.
Import Js Wf.
Local Open Scope Z_scope.

Lemma hex_byte v :
  is_byte v →
  hexValue (hexChar (Z.shiftr (Z.land v 0xf0) 4)) ≫= (λ hi,
  hexValue (hexChar (Z.land v 0x0f)) ≫= (λ lo, Some (hi * 16 + lo))) = Some v.
Proof.
  intros Hv.
  set (P := λ v, match hexValue (hexChar (Z.shiftr (Z.land v 0xf0) 4)) ≫= (λ hi,
             hexValue (hexChar (Z.land v 0x0f)) ≫= (λ lo, Some (hi * 16 + lo)))
                 with Some w => w =? v | None => false end).
  assert (HP : P v = true) by (apply (range_check P 256); [by vm_compute|done]).
  unfold P in HP. case_match; [|done]. f_equal. lia.
Qed.

Lemma parseHexPairs_hexDigits bytes :
  Forall is_byte bytes → parseHexPairs (hexDigits bytes) = Some bytes.
Proof.
  induction 1 as [|v bytes Hv _ IH]; [done|].
  cbn [hexDigits parseHexPairs].
  pose proof (hex_byte v Hv) as Hb.
  destruct (hexValue (hexChar (Z.shiftr (Z.land v 240) 4))) as [hi|]; [|done].
  destruct (hexValue (hexChar (Z.land v 15))) as [lo|]; [|done].
  simpl in *. rewrite IH. simpl. congruence.
Qed.

Lemma getBytes_hexlify bytes :
  Forall is_byte bytes → getBytes (hexlify bytes) = Some bytes.
Proof. intros H. unfold getBytes, hexlify. simpl. by apply parseHexPairs_hexDigits. Qed.

End HexFacts.

(** ** UTF-8 encoding and decoding *)

Section Utf8Facts.
Import Js Wf.
Local Open Scope Z_scope.

Local Ltac dlia := Z.div_mod_to_equations; lia.

Lemma high_test c :
  code_unit c → (Z.land c 0xfc00 =? 0xd800) = isHighSurrogate c.
Proof.
  intros Hc. rewrite land_0xfc00 by done. unfold isHighSurrogate, code_unit in *.
  destruct (Z.eqb_spec (c / 1024 * 1024) 0xd800);
    destruct (Z.leb_spec 0xd800 c); destruct (Z.ltb_spec c 0xdc00);
    simpl; try done; dlia.
Qed.

Lemma low_test c :
  code_unit c → (Z.land c 0xfc00 =? 0xdc00) = isLowSurrogate c.
Proof.
  intros Hc. rewrite land_0xfc00 by done. unfold isLowSurrogate, code_unit in *.
  destruct (Z.eqb_spec (c / 1024 * 1024) 0xdc00);
    destruct (Z.leb_spec 0xdc00 c); destruct (Z.ltb_spec c 0xe000);
    simpl; try done; dlia.
Qed.

Lemma isHighSurrogate_range c :
  isHighSurrogate c = true ↔ 0xd800 ≤ c < 0xdc00.
Proof. unfold isHighSurrogate. rewrite andb_true_iff. lia. Qed.

Lemma isLowSurrogate_range c :
  isLowSurrogate c = true ↔ 0xdc00 ≤ c < 0xe000.
Proof. unfold isLowSurrogate. rewrite andb_true_iff. lia. Qed.

(** The encoder computes the arithmetic encoding. *)
Lemma toUtf8Bytes_Encodes_len n s bs :
  (length s ≤ n)%nat → Forall code_unit s →
  toUtf8Bytes s = Some bs → Encodes s bs.
Proof.
  revert s bs. induction n as [|n IH]; intros s bs Hlen Hs Henc.
  { destruct s; [|simpl in Hlen; lia]. injection Henc as <-. constructor. }
  destruct s as [|c rest]; [injection Henc as <-; constructor|].
  apply Forall_cons in Hs as [Hc Hrest]. simpl in Hlen.
  cbn [toUtf8Bytes] in Henc. unfold code_unit in Hc.
  destruct (Z.ltb_spec c 0x80) as [H1|H1].
  { destruct (toUtf8Bytes rest) as [r|] eqn:Hr; [|done].
    injection Henc as <-. apply Encodes_1; [lia|]. apply IH; [lia|done|done]. }
  destruct (Z.ltb_spec c 0x800) as [H2|H2].
  { destruct (toUtf8Bytes rest) as [r|] eqn:Hr; [|done].
    injection Henc as <-.
    rewrite Z.shiftr_div_pow2, land_0x3f by lia. change (2 ^ 6) with 64.
    rewrite lor_0xc0, lor_0x80 by dlia.
    apply Encodes_2; [lia|]. apply IH; [lia|done|done]. }
  rewrite high_test in Henc by done.
  destruct (isHighSurrogate c) eqn:Hhi.
  - destruct rest as [|c2 rest']; [done|].
    apply Forall_cons in Hrest as [Hc2 Hrest']. simpl in Hlen.
    rewrite low_test in Henc by done.
    destruct (isLowSurrogate c2) eqn:Hlo; [|done].
    destruct (toUtf8Bytes rest') as [r|] eqn:Hr; [|done].
    injection Henc as <-.
    apply isHighSurrogate_range in Hhi as Hhi'.
    apply isLowSurrogate_range in Hlo as Hlo'.
    rewrite !land_0x3ff, Z.shiftl_mul_pow2 by lia.
    replace (0x10000 + c mod 1024 * 2 ^ 10 + c2 mod 1024)
      with (0x10000 + (c - 0xd800) * 1024 + (c2 - 0xdc00)) by dlia.
    set (p := 0x10000 + (c - 0xd800) * 1024 + (c2 - 0xdc00)).
    assert (0x10000 ≤ p < 0x110000) by (unfold p; lia).
    rewrite !Z.shiftr_div_pow2, !land_0x3f by lia.
    change (2 ^ 18) with 262144. change (2 ^ 12) with 4096.
    change (2 ^ 6) with 64.
    rewrite lor_0xf0, !lor_0x80 by dlia.
    apply (Encodes_4 c c2 rest' r Hhi Hlo). apply IH; [lia|done|done].
  - destruct (toUtf8Bytes rest) as [r|] eqn:Hr; [|done].
    injection Henc as <-.
    rewrite !Z.shiftr_div_pow2, !land_0x3f by lia.
    change (2 ^ 12) with 4096. change (2 ^ 6) with 64.
    rewrite lor_0xe0, !lor_0x80 by dlia.
    apply Encodes_3; [lia|done|]. apply IH; [lia|done|done].
Qed.

Lemma toUtf8Bytes_Encodes s bs :
  Forall code_unit s → toUtf8Bytes s = Some bs → Encodes s bs.
Proof. by apply (toUtf8Bytes_Encodes_len (length s)). Qed.

(** Well-formed strings are always encoded. *)
Lemma toUtf8Bytes_wellFormed_len n s :
  (length s ≤ n)%nat → Forall code_unit s → wellFormed s = true →
  is_Some (toUtf8Bytes s).
Proof.
  revert s. induction n as [|n IH]; intros s Hlen Hs Hwf.
  { destruct s; [by eexists|simpl in Hlen; lia]. }
  destruct s as [|c rest]; [by eexists|].
  apply Forall_cons in Hs as [Hc Hrest]. simpl in Hlen.
  cbn [toUtf8Bytes wellFormed] in *.
  destruct (Z.ltb_spec c 0x80) as [H1|H1].
  { assert (isHighSurrogate c = false) as Hh
      by (apply not_true_is_false; rewrite isHighSurrogate_range; lia).
    rewrite Hh in Hwf. apply andb_prop in Hwf as [_ Hwf].
    destruct (IH rest) as [r ->]; [lia|done|done|by eexists]. }
  destruct (Z.ltb_spec c 0x800) as [H2|H2].
  { assert (isHighSurrogate c = false) as Hh
      by (apply not_true_is_false; rewrite isHighSurrogate_range; lia).
    rewrite Hh in Hwf. apply andb_prop in Hwf as [_ Hwf].
    destruct (IH rest) as [r ->]; [lia|done|done|by eexists]. }
  rewrite high_test by done.
  destruct (isHighSurrogate c).
  - destruct rest as [|c2 rest']; [done|].
    apply Forall_cons in Hrest as [Hc2 Hrest']. simpl in Hlen.
    apply andb_prop in Hwf as [Hlo Hwf].
    rewrite low_test, Hlo by done.
    destruct (IH rest') as [r ->]; [lia|done|done|by eexists].
  - apply andb_prop in Hwf as [_ Hwf].
    destruct (IH rest) as [r ->]; [lia|done|done|by eexists].
Qed.

Lemma Encodes_bytes s bs : Encodes s bs → Forall code_unit s → Forall is_byte bs.
Proof.
  unfold is_byte, code_unit.
  induction 1 as [|c s bs Hc _ IH|c s bs Hc _ IH|c s bs Hc Hh _ IH
                  |c c2 s bs Hh Hl _ IH]; intros Hs.
  - constructor.
  - apply Forall_cons in Hs as [_ Hs]. constructor; [lia|auto].
  - apply Forall_cons in Hs as [_ Hs]. repeat constructor; try dlia. auto.
  - apply Forall_cons in Hs as [_ Hs]. repeat constructor; try dlia. auto.
  - apply Forall_cons in Hs as [_ Hs]. apply Forall_cons in Hs as [_ Hs].
    apply isHighSurrogate_range in Hh. apply isLowSurrogate_range in Hl.
    repeat constructor; try dlia. auto.
Qed.

Lemma Encodes_length s bs : Encodes s bs → (length s ≤ length bs)%nat.
Proof. induction 1; simpl; lia. Qed.

(** The last byte written for a string that does not end in U+0000 is not
    zero. *)
Lemma Encodes_last s bs :
  Encodes s bs → Forall code_unit s → last s ≠ Some 0 → last bs ≠ Some 0.
Proof.
  induction 1 as [|c s bs Hc He IH|c s bs Hc He IH|c s bs Hc Hh He IH
                  |c c2 s bs Hh Hl He IH]; intros Hs Hlast.
  - done.
  - apply Forall_cons in Hs as [_ Hs].
    rewrite last_cons in Hlast |- *.
    destruct (last s) eqn:Hls.
    + destruct (last bs) eqn:Hlb; [by apply IH|].
      apply last_None in Hlb as ->. by inversion He; simplify_eq.
    + apply last_None in Hls as ->. by inversion He; simplify_eq.
  - apply Forall_cons in Hs as [_ Hs].
    rewrite last_cons in Hlast. rewrite !last_cons.
    destruct (last bs) eqn:Hlb.
    + destruct (last s) eqn:Hls; [by apply IH|].
      apply last_None in Hls as ->. by inversion He; simplify_eq.
    + intros [=]. dlia.
  - apply Forall_cons in Hs as [_ Hs].
    rewrite last_cons in Hlast. rewrite !last_cons.
    destruct (last bs) eqn:Hlb.
    + destruct (last s) eqn:Hls; [by apply IH|].
      apply last_None in Hls as ->. by inversion He; simplify_eq.
    + intros [=]. dlia.
  - apply Forall_cons in Hs as [_ Hs]. apply Forall_cons in Hs as [_ Hs].
    rewrite !last_cons in Hlast. rewrite !last_cons.
    destruct (last bs) eqn:Hlb.
    + destruct (last s) eqn:Hls; [by apply IH|].
      apply last_None in Hls as ->. by inversion He; simplify_eq.
    + intros [=]. dlia.
Qed.

Lemma checkCodePoint_ok res mask :
  mask < res → res ≤ 0x10ffff → ¬ (0xd800 ≤ res ≤ 0xdfff) →
  checkCodePoint res mask = Some res.
Proof.
  intros. unfold checkCodePoint.
  destruct (Z.gtb_spec res 0x10ffff); [lia|].
  destruct (Z.leb_spec 0xd800 res); destruct (Z.leb_spec res 0xdfff);
    simpl; try lia; destruct (Z.leb_spec res mask); by try lia.
Qed.

(** Decoding what the encoder wrote gives the string back. *)
Lemma Encodes_decode s bs :
  Encodes s bs → wellFormed s = true → toUtf8String bs = Some s.
Proof.
  unfold toUtf8String.
  induction 1 as [|c s bs Hc He IH|c s bs Hc He IH|c s bs Hc Hh He IH
                  |c c2 s bs Hh Hl He IH]; intros Hwf.
  - done.
  - cbn [wellFormed] in Hwf.
    assert (isHighSurrogate c = false) as Hh
      by (apply not_true_is_false; rewrite isHighSurrogate_range; lia).
    rewrite Hh in Hwf. apply andb_prop in Hwf as [_ Hwf].
    cbn [getUtf8CodePoints]. rewrite lead1_facts by done.
    specialize (IH Hwf). destruct (getUtf8CodePoints bs) as [cps|]; [|done].
    simpl in *. destruct (Z.leb_spec c 0xffff); [|lia]. congruence.
  - cbn [wellFormed] in Hwf.
    assert (isHighSurrogate c = false) as Hh
      by (apply not_true_is_false; rewrite isHighSurrogate_range; lia).
    rewrite Hh in Hwf. apply andb_prop in Hwf as [_ Hwf].
    cbn [getUtf8CodePoints].
    destruct (lead2_facts (c / 64)) as (-> & -> & ->); [dlia|].
    rewrite continue_tail by dlia. cbn [mbind option_bind].
    replace (c / 64 * 64 + c mod 64) with c by dlia.
    rewrite checkCodePoint_ok by lia. cbn [mbind option_bind].
    specialize (IH Hwf). destruct (getUtf8CodePoints bs) as [cps|]; [|done].
    simpl in *. destruct (Z.leb_spec c 0xffff); [|lia]. congruence.
  - cbn [wellFormed] in Hwf. rewrite Hh in Hwf.
    apply andb_prop in Hwf as [Hl Hwf]. apply negb_true_iff in Hl.
    apply not_true_iff_false in Hh, Hl.
    rewrite isHighSurrogate_range in Hh. rewrite isLowSurrogate_range in Hl.
    cbn [getUtf8CodePoints].
    destruct (lead3_facts (c / 4096)) as (-> & -> & -> & ->); [dlia|].
    rewrite !continue_tail by dlia. cbn [mbind option_bind].
    rewrite continue_tail by dlia. cbn [mbind option_bind].
    replace ((c / 4096 * 64 + c / 64 mod 64) * 64 + c mod 64) with c by dlia.
    rewrite checkCodePoint_ok by lia. cbn [mbind option_bind].
    specialize (IH Hwf). destruct (getUtf8CodePoints bs) as [cps|]; [|done].
    simpl in *. destruct (Z.leb_spec c 0xffff); [|lia]. congruence.
  - cbn [wellFormed] in Hwf. rewrite Hh, Hl in Hwf. simpl in Hwf.
    apply isHighSurrogate_range in Hh. apply isLowSurrogate_range in Hl.
    assert (0x10000 ≤ p < 0x110000) as Hp by (unfold p; lia).
    cbn [getUtf8CodePoints].
    destruct (lead4_facts (p / 262144)) as (-> & -> & -> & -> & ->); [dlia|].
    rewrite !continue_tail by dlia. cbn [mbind option_bind].
    rewrite continue_tail by dlia. cbn [mbind option_bind].
    rewrite continue_tail by dlia. cbn [mbind option_bind].
    replace (((p / 262144 * 64 + p / 4096 mod 64) * 64 + p / 64 mod 64) * 64
             + p mod 64) with p by dlia.
    rewrite checkCodePoint_ok by lia. cbn [mbind option_bind].
    specialize (IH Hwf). destruct (getUtf8CodePoints bs) as [cps|]; [|done].
    simpl in IH. injection IH as IH.
    cbn [fmap option_fmap option_map fromCodePoints].
    destruct (Z.leb_spec p 0xffff); [lia|].
    rewrite !land_0x3ff, Z.shiftr_div_pow2 by lia. change (2 ^ 10) with 1024.
    f_equal. rewrite IH. f_equal; [unfold p; dlia|]. f_equal. unfold p; dlia.
Qed.

End Utf8Facts.

(** ** Player names *)

Section NameFacts.
Import Js Wf Names.
Local Open Scope Z_scope.

Lemma trimStart_suffix s : trimStart s `suffix_of` s.
Proof.
  induction s as [|c s IH]; [done|]. simpl.
  destruct (isWhiteSpace c); [by apply suffix_cons_r|done].
Qed.

Lemma trimStart_Forall (P : Z → Prop) s : Forall P s → Forall P (trimStart s).
Proof.
  intros Hs. destruct (trimStart_suffix s) as [k Hk].
  rewrite Hk in Hs. by apply Forall_app in Hs as [_ Hs].
Qed.

Lemma trim_Forall (P : Z → Prop) s : Forall P s → Forall P (trim s).
Proof.
  intros Hs. unfold trim, trimEnd.
  apply Forall_reverse, trimStart_Forall, Forall_reverse.
  by apply trimStart_Forall.
Qed.

Lemma trimStart_id s :
  (∀ c, head s = Some c → isWhiteSpace c = false) → trimStart s = s.
Proof. destruct s as [|c s]; [done|]. intros H. simpl. by rewrite H. Qed.

(** A name that neither starts nor ends with white space is left alone. *)
Lemma trim_id s :
  (∀ c, head s = Some c → isWhiteSpace c = false) →
  (∀ c, last s = Some c → isWhiteSpace c = false) →
  trim s = s.
Proof.
  intros Hh Hl. unfold trim, trimEnd. rewrite (trimStart_id s Hh).
  rewrite trimStart_id; [apply reverse_involutive|].
  intros c Hc. apply Hl. by rewrite <- head_reverse.
Qed.

Lemma stripEnd_zeros bs zs j :
  last bs ≠ Some 0 → Forall (λ z, z = 0) zs → (j ≤ length zs)%nat →
  stripEnd (bs ++ zs) (length bs + j) = length bs.
Proof.
  intros Hlast Hzs. induction j as [|j IH]; intros Hj.
  - rewrite Nat.add_0_r. destruct (length bs) as [|e] eqn:Hlen; [done|].
    cbn [stripEnd]. rewrite lookup_app_l by lia.
    rewrite last_lookup, Hlen in Hlast. simpl in Hlast.
    destruct (bs !! e) as [[| |]|]; done.
  - rewrite Nat.add_succ_r. cbn [stripEnd].
    rewrite lookup_app_r by lia.
    destruct (zs !! (length bs + j - length bs)%nat) as [z|] eqn:Hz.
    + rewrite Forall_lookup in Hzs. rewrite (Hzs _ _ Hz). apply IH. lia.
    + apply lookup_ge_None in Hz. lia.
Qed.

Lemma hexlifyString_hexlify bytes :
  Forall is_byte bytes → hexlifyString (hexlify bytes) = Some (hexlify bytes).
Proof. intros H. unfold hexlifyString. by rewrite getBytes_hexlify. Qed.

Lemma is_byte_zeros n : Forall is_byte (replicate n 0).
Proof. apply Forall_replicate. unfold is_byte. lia. Qed.

(** What [toBytes12FromName] returns once the trimmed, cut name has been
    encoded: the first 12 bytes of the encoding, completed with zeros. *)
Lemma toBytes12FromName_bytes name bytes :
  Forall code_unit name →
  toUtf8Bytes (take 12 (trim name)) = Some bytes →
  toBytes12FromName (Some name)
  = Some (hexlify (take 12 (bytes ++ replicate 12 0))).
Proof.
  intros Hname Henc. unfold toBytes12FromName. change (default [] (Some name)) with name.
  rewrite Henc. cbn [mbind option_bind].
  assert (Forall is_byte bytes) as Hbytes.
  { apply (Encodes_bytes (take 12 (trim name))).
    - apply toUtf8Bytes_Encodes; [|done]. by apply Forall_take, trim_Forall.
    - by apply Forall_take, trim_Forall. }
  set (sliced := if (12 <? length bytes)%nat then take 12 bytes else bytes).
  assert (sliced ++ replicate (12 - length sliced) 0
          = take 12 (bytes ++ replicate 12 0)) as Hpad.
  { unfold sliced. destruct (Nat.ltb_spec 12 (length bytes)).
    - rewrite length_take, Nat.min_l by lia. simpl.
      rewrite app_nil_r, take_app_le by lia. done.
    - rewrite take_app_ge by lia. f_equal.
      by rewrite take_replicate, Nat.min_l by lia. }
  assert (length sliced ≤ 12)%nat as Hlen.
  { unfold sliced. destruct (Nat.ltb_spec 12 (length bytes)); [|done].
    rewrite length_take. lia. }
  unfold zeroPadBytes. destruct (Nat.leb_spec (length sliced) 12); [|lia].
  cbn [mbind option_bind]. rewrite Hpad.
  apply hexlifyString_hexlify, Forall_take, Forall_app.
  split; [done|apply is_byte_zeros].
Qed.

End NameFacts.

Section NameRoundTrip.
Import Js Wf Names.
Local Open Scope Z_scope.

(** C9 (as the code has it).  [toBytes12FromName] first removes the white
    space around the name and keeps 12 code units of the rest; the payload
    is the first 12 bytes of the UTF-8 encoding of that, completed with
    zeros to 12 bytes.  When the trimmed name is well-formed, fits in 12
    bytes and does not end in U+0000, [bytes12ToString] returns exactly
    the trimmed name, which is the name itself when it neither starts nor
    ends with white space. *)
Theorem name_round_trip (name : list Z) :
  Forall code_unit name →
  (∀ bytes,
      toUtf8Bytes (take 12 (trim name)) = Some bytes →
      ∃ b12, toBytes12FromName (Some name) = Some b12
             ∧ getBytes b12 = Some (take 12 (bytes ++ replicate 12 0)))
  ∧ (∀ bytes,
      wellFormed (trim name) = true →
      toUtf8Bytes (trim name) = Some bytes → (length bytes ≤ 12)%nat →
      last (trim name) ≠ Some 0 →
      ∃ b12, toBytes12FromName (Some name) = Some b12
             ∧ getBytes b12 = Some (bytes ++ replicate (12 - length bytes) 0)
             ∧ bytes12ToString b12 = Some (trim name))
  ∧ ((∀ c, head name = Some c → isWhiteSpace c = false) →
     (∀ c, last name = Some c → isWhiteSpace c = false) →
     trim name = name).
Proof.
  intros Hname.
  assert (∀ bytes, toUtf8Bytes (take 12 (trim name)) = Some bytes →
            Forall is_byte (take 12 (bytes ++ replicate 12 0))) as Hby.
  { intros bytes Henc. apply Forall_take, Forall_app.
    split; [|apply is_byte_zeros].
    apply (Encodes_bytes (take 12 (trim name))).
    - apply toUtf8Bytes_Encodes; [|done]. by apply Forall_take, trim_Forall.
    - by apply Forall_take, trim_Forall. }
  split; [|split].
  - intros bytes Henc. eexists. split.
    + by apply toBytes12FromName_bytes.
    + by apply getBytes_hexlify, Hby.
  - intros bytes Hwf Henc Hlen Hlast.
    pose proof (toUtf8Bytes_Encodes _ _ (trim_Forall _ _ Hname) Henc) as He.
    pose proof (Encodes_length _ _ He) as Hle.
    assert (take 12 (trim name) = trim name) as Htk by (apply take_ge; lia).
    rewrite <- Htk in Henc.
    assert (take 12 (bytes ++ replicate 12 0)
            = bytes ++ replicate (12 - length bytes) 0) as Hpad.
    { rewrite take_app_ge by lia. f_equal.
      by rewrite take_replicate, Nat.min_l by lia. }
    eexists. split; [by apply toBytes12FromName_bytes|].
    rewrite <- Hpad. split; [by apply getBytes_hexlify, Hby|].
    unfold bytes12ToString. rewrite getBytes_hexlify by by apply Hby.
    cbn [mbind option_bind]. rewrite Hpad.
    rewrite length_app, stripEnd_zeros.
    + rewrite take_app_length. by apply Encodes_decode.
    + apply (Encodes_last (trim name)); [done|by apply trim_Forall|done].
    + by apply Forall_replicate.
    + done.
  - apply trim_id.
Qed.

Lemma name_round_trip_witness :
  let name := [32; 116; 101; 106] in
  (∀ bytes,
      toUtf8Bytes (take 12 (trim name)) = Some bytes →
      ∃ b12, toBytes12FromName (Some name) = Some b12
             ∧ getBytes b12 = Some (take 12 (bytes ++ replicate 12 0)))
  ∧ (∀ bytes,
      wellFormed (trim name) = true →
      toUtf8Bytes (trim name) = Some bytes → (length bytes ≤ 12)%nat →
      last (trim name) ≠ Some 0 →
      ∃ b12, toBytes12FromName (Some name) = Some b12
             ∧ getBytes b12 = Some (bytes ++ replicate (12 - length bytes) 0)
             ∧ bytes12ToString b12 = Some (trim name))
  ∧ ((∀ c, head name = Some c → isWhiteSpace c = false) →
     (∀ c, last name = Some c → isWhiteSpace c = false) →
     trim name = name).
Proof.
  apply (name_round_trip [32; 116; 101; 106]).
  repeat constructor; lia.
Defined.

(** The name [" tej"] fits in 12 bytes (its encoding has 4), yet encoding
    and decoding it returns ["tej"]. *)
Lemma name_round_trip_counterexample :
  toUtf8Bytes [32; 116; 101; 106] = Some [32; 116; 101; 106]
  ∧ toBytes12FromName (Some [32; 116; 101; 106])
    = Some "0x74656a000000000000000000"%string
  ∧ bytes12ToString "0x74656a000000000000000000" = Some [116; 101; 106].
Proof. repeat split; vm_compute; reflexivity. Qed.

End NameRoundTrip.

(** ** Keccak: shape of the output *)

Section KeccakFacts.
Import Keccak Wf.
Local Open Scope Z_scope.

Lemma round_length A rc : length (round A rc) = 25%nat.
Proof.
  unfold round, iota, chi.
  destruct (map _ (seq 0 25)) as [|a rest] eqn:H.
  - apply (f_equal length) in H. by rewrite length_map, length_seq in H.
  - apply (f_equal length) in H. rewrite length_map, length_seq in H.
    simpl in *. done.
Qed.

Lemma keccakF_length A : length (keccakF A) = 25%nat.
Proof.
  unfold keccakF.
  change roundConstants with (take 23 roundConstants ++ [0x8000000080008008]).
  rewrite foldl_app. simpl foldl at 1. apply round_length.
Qed.

Lemma absorb_length n A bs : length A = 25%nat → length (absorb n A bs) = 25%nat.
Proof.
  revert A bs. induction n as [|n IH]; intros A bs HA; [done|].
  simpl. apply IH. unfold absorbBlock. apply keccakF_length.
Qed.

Lemma bytesOfLane_length l : length (bytesOfLane l) = 8%nat.
Proof. unfold bytesOfLane. by rewrite length_map, length_seq. Qed.

Lemma bytesOfLane_bytes l : Forall is_byte (bytesOfLane l).
Proof.
  unfold bytesOfLane. apply Forall_forall. intros b Hb.
  apply list_elem_of_fmap in Hb as (i & -> & _). unfold is_byte.
  change 0xff with (Z.ones 8). rewrite Z.land_ones by lia.
  apply Z.mod_pos_bound. lia.
Qed.

Lemma concat_length_const {A} (ls : list (list A)) k :
  Forall (λ l, length l = k) ls → length (concat ls) = (length ls * k)%nat.
Proof. induction 1; simpl; [done|]. rewrite length_app. lia. Qed.

(** The hash is 32 bytes long. *)
Lemma keccak256_length msg : length (keccak256 msg) = 32%nat.
Proof.
  unfold keccak256. rewrite length_take.
  rewrite (concat_length_const _ 8).
  - rewrite length_map, absorb_length; [lia|]. by rewrite length_replicate.
  - apply Forall_forall. intros l Hl.
    apply list_elem_of_fmap in Hl as (x & -> & _). apply bytesOfLane_length.
Qed.

Lemma keccak256_bytes msg : Forall is_byte (keccak256 msg).
Proof.
  unfold keccak256. apply Forall_take, Forall_concat, Forall_forall.
  intros l Hl. apply list_elem_of_fmap in Hl as (x & -> & _).
  apply bytesOfLane_bytes.
Qed.

End KeccakFacts.

(** ** Tight packing: ethers against [abi.encodePacked] *)

Section PackingFacts.
Import Js Ethers Abi Arena Wf.
Local Open Scope Z_scope.

Lemma beBytes_S n v : beBytes (S n) v = beBytes n (v / 256) ++ [v mod 256].
Proof.
  unfold beBytes. rewrite seq_S, fmap_app. f_equal.
  - apply list_fmap_ext. intros i j Hj.
    apply lookup_seq in Hj as [-> Hj]. cbn beta.
    replace (Z.of_nat (S n - 1 - (0 + i))) with (Z.of_nat (n - 1 - (0 + i)) + 1)
      by lia.
    rewrite Z.pow_add_r, Z.pow_1_r by lia.
    rewrite (Z.mul_comm _ 256), Z.div_div by lia. done.
  - cbn [fmap list_fmap]. replace (S n - 1 - (0 + n))%nat with 0%nat by lia.
    by rewrite Z.div_1_r.
Qed.

Lemma beBytes_length n v : length (beBytes n v) = n.
Proof. unfold beBytes. by rewrite length_fmap, length_seq. Qed.

Lemma beBytes_bytes n v : Forall is_byte (beBytes n v).
Proof.
  unfold beBytes. apply Forall_forall. intros b Hb.
  apply list_elem_of_fmap in Hb as (i & -> & _).
  unfold is_byte. apply Z.mod_pos_bound. lia.
Qed.

Lemma beBytes_zero n : beBytes n 0 = replicate n 0.
Proof.
  induction n as [|n IH]; [done|].
  rewrite beBytes_S. change (0 / 256) with 0. rewrite IH.
  change (0 mod 256) with 0. by rewrite <- replicate_S_end.
Qed.

Lemma pow256_S k : 256 ^ Z.of_nat (S k) = 256 * 256 ^ Z.of_nat k.
Proof. rewrite Nat2Z.inj_succ, Z.pow_succ_r by lia. done. Qed.

Lemma div256_bound k v :
  0 ≤ v < 256 ^ Z.of_nat (S k) → 0 ≤ v / 256 < 256 ^ Z.of_nat k.
Proof.
  rewrite pow256_S. intros Hv. split; [apply Z.div_pos; lia|].
  apply Z.div_lt_upper_bound; lia.
Qed.

(** Leading zeros of a value that needs fewer bytes. *)
Lemma beBytes_pad k n v :
  0 ≤ v < 256 ^ Z.of_nat k → (k ≤ n)%nat →
  beBytes n v = replicate (n - k) 0 ++ beBytes k v.
Proof.
  revert k v. induction n as [|n IH]; intros k v Hv Hk.
  { assert (k = 0%nat) as -> by lia. done. }
  destruct k as [|k].
  { simpl in Hv. assert (v = 0) as -> by lia.
    rewrite beBytes_zero. simpl. by rewrite app_nil_r. }
  rewrite !beBytes_S. rewrite (IH k (v / 256)); [|by apply div256_bound|lia].
  rewrite <- app_assoc. do 2 f_equal.
Qed.

Lemma beDigits_spec fuel v acc :
  0 ≤ v < 2 ^ Z.of_nat fuel →
  ∃ k, beDigits fuel v acc = beBytes k v ++ acc
       ∧ v < 256 ^ Z.of_nat k
       ∧ (k = 0%nat ∨ 256 ^ Z.of_nat (k - 1) ≤ v).
Proof.
  revert v acc. induction fuel as [|fuel IH]; intros v acc Hv.
  { exists 0%nat. simpl in *. split; [done|]. split; [lia|by left]. }
  cbn [beDigits]. destruct (Z.eqb_spec v 0) as [->|Hne].
  { exists 0%nat. split; [done|]. split; [simpl; lia|by left]. }
  rewrite Nat2Z.inj_succ, Z.pow_succ_r in Hv by lia.
  rewrite Z.shiftr_div_pow2 by lia.
  change 0xff with (Z.ones 8). rewrite Z.land_ones by lia.
  change (2 ^ 8) with 256.
  destruct (IH (v / 256) (v mod 256 :: acc)) as (k & Hk & Hlt & Hmin).
  { split; [apply Z.div_pos; lia|]. apply Z.div_lt_upper_bound; lia. }
  exists (S k). rewrite beBytes_S, <- app_assoc. split; [exact Hk|].
  rewrite pow256_S. split.
  - pose proof (Z.div_mod v 256). pose proof (Z.mod_pos_bound v 256). lia.
  - right. replace (S k - 1)%nat with k by lia.
    destruct Hmin as [->|Hmin]; [simpl; lia|].
    destruct k as [|k]; [simpl; lia|].
    replace (S k - 1)%nat with k in Hmin by lia. rewrite pow256_S.
    pose proof (Z.div_mod v 256). pose proof (Z.mod_pos_bound v 256). lia.
Qed.

Lemma toBeArray_spec v :
  0 ≤ v →
  ∃ k, toBeArray v = Some (beBytes k v)
       ∧ v < 256 ^ Z.of_nat k
       ∧ (k = 0%nat ∨ 256 ^ Z.of_nat (k - 1) ≤ v).
Proof.
  intros Hv. unfold toBeArray. destruct (Z.ltb_spec v 0); [lia|].
  destruct (beDigits_spec (S (Z.to_nat (Z.log2 v))) v []) as (k & Hk & Hb).
  { split; [done|]. rewrite Nat2Z.inj_succ, Z2Nat.id by apply Z.log2_nonneg.
    destruct (Z.eq_dec v 0) as [->|]; [done|].
    apply Z.log2_spec. lia. }
  exists k. rewrite Hk, app_nil_r. done.
Qed.

(** An unsigned integer type of [n] bytes: ethers writes what Solidity
    writes, and refuses exactly the values outside the type. *)
Lemma pack_uint n v :
  (0 < n ≤ 32)%nat → 0 ≤ v < 256 ^ Z.of_nat n →
  _pack (PUint (8 * n) v) = Some (beBytes n v).
Proof.
  intros Hn Hv. unfold _pack.
  replace ((8 * n) mod 8 =? 0)%nat with true
    by (symmetry; apply Nat.eqb_eq; rewrite Nat.mul_comm; apply Nat.Div0.mod_mul).
  replace (8 * n =? 0)%nat with false by (symmetry; apply Nat.eqb_neq; lia).
  replace (8 * n <=? 256)%nat with true by (symmetry; apply Nat.leb_le; lia).
  cbn [andb negb].
  replace (8 * n / 8)%nat with n by (rewrite Nat.mul_comm, Nat.div_mul; lia).
  destruct (toBeArray_spec v) as (k & -> & Hlt & Hmin); [lia|].
  cbn [mbind option_bind]. unfold zeroPadValue. rewrite beBytes_length.
  assert (k ≤ n)%nat as Hk.
  { destruct Hmin as [->|Hmin]; [lia|].
    destruct (decide (k ≤ n)%nat); [done|].
    assert (256 ^ Z.of_nat n ≤ 256 ^ Z.of_nat (k - 1))
      by (apply Z.pow_le_mono_r; lia). lia. }
  destruct (Nat.leb_spec k n); [|lia].
  rewrite <- (beBytes_pad k n v); [done|lia|done].
Qed.

Lemma pack_uint_refuses n v :
  ¬ (0 ≤ v < 256 ^ Z.of_nat n) → _pack (PUint (8 * n) v) = None.
Proof.
  intros Hv. unfold _pack.
  destruct (Nat.eq_dec n 0) as [->|Hn0]; [done|].
  case_match; [|done].
  replace (8 * n / 8)%nat with n by (rewrite Nat.mul_comm, Nat.div_mul; lia).
  destruct (Z.ltb_spec v 0) as [Hneg|Hpos].
  { unfold toBeArray. by destruct (Z.ltb_spec v 0); [|lia]. }
  destruct (toBeArray_spec v) as (k & -> & Hlt & Hmin); [lia|].
  cbn [mbind option_bind]. unfold zeroPadValue. rewrite beBytes_length.
  destruct (Nat.leb_spec k n) as [Hle|]; [|done].
  assert (256 ^ Z.of_nat k ≤ 256 ^ Z.of_nat n)
    by (apply Z.pow_le_mono_r; lia). lia.
Qed.

Lemma beValue_snoc bs b : beValue (bs ++ [b]) = beValue bs * 256 + b.
Proof. unfold beValue. by rewrite foldl_app. Qed.

Lemma beBytes_beValue bs :
  Forall is_byte bs →
  beBytes (length bs) (beValue bs) = bs
  ∧ 0 ≤ beValue bs < 256 ^ Z.of_nat (length bs).
Proof.
  induction bs as [|b bs IH] using rev_ind; intros Hbs.
  { split; [done|]. simpl. unfold beValue. simpl. lia. }
  apply Forall_app in Hbs as [Hbs Hb]. apply Forall_inv in Hb.
  destruct (IH Hbs) as [IH1 IH2]. unfold is_byte in Hb.
  rewrite length_app, Nat.add_1_r, beValue_snoc. split.
  - rewrite beBytes_S.
    rewrite Z.div_add_l, Z.div_small, Z.add_0_r by lia.
    rewrite Z.add_comm, Z.mod_add, Z.mod_small by lia.
    by rewrite IH1.
  - rewrite pow256_S. lia.
Qed.

Lemma hexValue_bound a v : hexValue a = Some v → 0 ≤ v < 16.
Proof.
  unfold hexValue. intros H.
  repeat (case_match; simplify_eq); lia.
Qed.


Lemma parseHexPairs_bytes_len n s bs :
  (String.length s ≤ n)%nat → parseHexPairs s = Some bs → Forall is_byte bs.
Proof.
  revert s bs. induction n as [|n IH]; intros s bs Hn Hp.
  { destruct s; [|simpl in Hn; lia]. injection Hp as <-. constructor. }
  destruct s as [|a [|b s]]; [injection Hp as <-; constructor|done|].
  cbn [parseHexPairs] in Hp. simpl in Hn.
  destruct (hexValue a) as [hi|] eqn:Hhi; [|done].
  destruct (hexValue b) as [lo|] eqn:Hlo; [|done].
  destruct (parseHexPairs s) as [rest|] eqn:Hrest; [|done].
  simpl in Hp. injection Hp as <-.
  apply hexValue_bound in Hhi, Hlo. constructor; [unfold is_byte; lia|].
  apply (IH s); [lia|done].
Qed.

Lemma getBytes_bytes s bs : getBytes s = Some bs → Forall is_byte bs.
Proof.
  unfold getBytes. destruct s as [|p0 [|p1 rest]]; [done..|].
  case_match; [|done]. by apply (parseHexPairs_bytes_len (String.length rest)).
Qed.

(** An address string is packed as the 20 bytes of its value. *)
Lemma pack_address s a :
  addressOf s = Some a → _pack (PAddress s) = Some (beBytes 20 a).
Proof.
  unfold addressOf, _pack. intros Ha.
  destruct (getAddress s ≫= getBytes) as [bs|] eqn:Hbs; [|done].
  cbn [mbind option_bind] in Ha.
  destruct (Nat.eqb_spec (length bs) 20) as [Hlen|]; [|done].
  injection Ha as <-. f_equal. rewrite <- Hlen.
  symmetry. apply beBytes_beValue.
  destruct (getAddress s) as [r|]; [|done]. by apply (getBytes_bytes r).
Qed.

Lemma addressOf_range s a : addressOf s = Some a → 0 ≤ a < 2 ^ 160.
Proof.
  unfold addressOf. intros Ha.
  destruct (getAddress s ≫= getBytes) as [bs|] eqn:Hbs; [|done].
  cbn [mbind option_bind] in Ha.
  destruct (Nat.eqb_spec (length bs) 20) as [Hlen|]; [|done].
  injection Ha as <-.
  assert (Forall is_byte bs) as Hb
    by (destruct (getAddress s) as [r|]; [by apply (getBytes_bytes r)|done]).
  destruct (beBytes_beValue bs Hb) as [_ Hr]. rewrite Hlen in Hr.
  by change (256 ^ Z.of_nat 20) with (2 ^ 160) in Hr.
Qed.

(** Fixed-size bytes given as a hex string. *)
Lemma pack_bytes n hex bs :
  (0 < n ≤ 32)%nat → getBytes hex = Some bs → length bs = n →
  _pack (PBytes n hex) = Some bs.
Proof.
  intros Hn Hb Hlen. unfold _pack.
  destruct (Nat.eqb_spec n 0); [lia|].
  destruct (Nat.leb_spec n 32); [|lia]. cbn [negb andb].
  rewrite Hb. cbn [mbind option_bind].
  by destruct (Nat.eqb_spec (length bs) n).
Qed.

Lemma solidityPacked_spec ps tight :
  Forall2 (λ p bytes, _pack p = Some bytes) ps tight →
  solidityPacked ps = Some (hexlify (concat tight)).
Proof.
  intros H. unfold solidityPacked.
  by apply mapM_Some in H as ->.
Qed.

Lemma ethers_keccak256_hexlify bytes :
  Forall is_byte bytes →
  keccak256 (hexlify bytes) = Some (hexlify (Keccak.keccak256 bytes)).
Proof. intros H. unfold keccak256. by rewrite getBytes_hexlify. Qed.

End PackingFacts.

(** ** The relayer's digests are the contract's *)

Section DigestRefinement.
Import Js Ethers Abi Wf.
Local Open Scope Z_scope.

Lemma bind_some {A B} (f : A → option B) (x : A) : Some x ≫= f = f x.
Proof. reflexivity. Qed.

Lemma pack_uint256 v :
  0 ≤ v < 2 ^ 256 → _pack (PUint 256 v) = Some (Arena.beBytes 32 v).
Proof. intros Hv. apply (pack_uint 32); [lia|]. exact Hv. Qed.

Lemma pack_uint8 v :
  0 ≤ v < 2 ^ 8 → _pack (PUint 8 v) = Some (Arena.beBytes 1 v).
Proof. intros Hv. apply (pack_uint 1); [lia|]. exact Hv. Qed.

Local Ltac all_bytes :=
  apply Forall_concat;
  repeat first [apply keccak256_bytes | apply beBytes_bytes | assumption
               | apply Forall_nil_2 | apply Forall_cons_2].

Local Ltac all_packed :=
  apply solidityPacked_spec;
  repeat match goal with |- Forall2 _ _ _ => constructor end;
  lazymatch goal with
  | |- _pack (PBytes _ (hexlify _)) = _ =>
      apply pack_bytes; [lia | by apply getBytes_hexlify | assumption]
  | |- _pack (PBytes _ _) = _ => apply pack_bytes; [lia | assumption | assumption]
  | |- _pack (PAddress _) = _ => apply pack_address; assumption
  | |- _pack (PUint 256 _) = _ => apply pack_uint256; assumption
  | |- _pack (PUint 8 _) = _ =>
      apply pack_uint8; first [assumption | cbn [Relayer.ActionType_value]; lia]
  end.

(** The byte strings that the contract hashes. *)
Lemma encodePacked_domain cid a :
  Arena.encodePacked [Arena.Uint 256 cid; Arena.Address a]
  = concat [Arena.beBytes 32 cid; Arena.beBytes 20 a].
Proof. reflexivity. Qed.

Lemma encodePacked_join d p nonce deadline :
  Arena.encodePacked
    [Arena.BytesN 32 d; Arena.Enum Arena.JOIN; Arena.Address p;
     Arena.Uint 256 nonce; Arena.Uint 256 deadline]
  = concat [d; Arena.beBytes 1 1; Arena.beBytes 20 p;
            Arena.beBytes 32 nonce; Arena.beBytes 32 deadline].
Proof. reflexivity. Qed.

Lemma encodePacked_move d p dir nonce deadline :
  Arena.encodePacked
    [Arena.BytesN 32 d; Arena.Enum Arena.MOVE; Arena.Address p;
     Arena.Uint 8 dir; Arena.Uint 256 nonce; Arena.Uint 256 deadline]
  = concat [d; Arena.beBytes 1 2; Arena.beBytes 20 p; Arena.beBytes 1 dir;
            Arena.beBytes 32 nonce; Arena.beBytes 32 deadline].
Proof. reflexivity. Qed.

Lemma encodePacked_setName d p newName nonce deadline :
  Arena.encodePacked
    [Arena.BytesN 32 d; Arena.Enum Arena.SET_NAME; Arena.Address p;
     Arena.BytesN 12 newName; Arena.Uint 256 nonce; Arena.Uint 256 deadline]
  = concat [d; Arena.beBytes 1 0; Arena.beBytes 20 p; newName;
            Arena.beBytes 32 nonce; Arena.beBytes 32 deadline].
Proof. reflexivity. Qed.

(** The byte strings that the relayer hashes, for any 32-byte domain. *)
Lemma packed_domain chainId arenaAddress a :
  0 ≤ chainId < 2 ^ 256 → addressOf arenaAddress = Some a →
  solidityPacked [PUint 256 chainId; PAddress arenaAddress]
  = Some (hexlify (concat [Arena.beBytes 32 chainId; Arena.beBytes 20 a])).
Proof. intros. all_packed. Qed.

Lemma packed_join d player p nonce deadline :
  Forall is_byte d → length d = 32%nat → addressOf player = Some p →
  0 ≤ nonce < 2 ^ 256 → 0 ≤ deadline < 2 ^ 256 →
  solidityPacked
    [PBytes 32 (hexlify d); PUint 8 (Relayer.ActionType_value Relayer.JOIN);
     PAddress player; PUint 256 nonce; PUint 256 deadline]
  = Some (hexlify (concat [d; Arena.beBytes 1 1; Arena.beBytes 20 p;
                           Arena.beBytes 32 nonce; Arena.beBytes 32 deadline])).
Proof. intros. all_packed. Qed.

Lemma packed_move d player p dir nonce deadline :
  Forall is_byte d → length d = 32%nat → addressOf player = Some p →
  0 ≤ dir < 2 ^ 8 → 0 ≤ nonce < 2 ^ 256 → 0 ≤ deadline < 2 ^ 256 →
  solidityPacked
    [PBytes 32 (hexlify d); PUint 8 (Relayer.ActionType_value Relayer.MOVE);
     PAddress player; PUint 8 dir; PUint 256 nonce; PUint 256 deadline]
  = Some (hexlify (concat [d; Arena.beBytes 1 2; Arena.beBytes 20 p;
                           Arena.beBytes 1 dir; Arena.beBytes 32 nonce;
                           Arena.beBytes 32 deadline])).
Proof. intros. all_packed. Qed.

Lemma packed_setName d player p nameBytes12 newName nonce deadline :
  Forall is_byte d → length d = 32%nat → addressOf player = Some p →
  getBytes nameBytes12 = Some newName → length newName = 12%nat →
  0 ≤ nonce < 2 ^ 256 → 0 ≤ deadline < 2 ^ 256 →
  solidityPacked
    [PBytes 32 (hexlify d); PUint 8 (Relayer.ActionType_value Relayer.SET_NAME);
     PAddress player; PBytes 12 nameBytes12; PUint 256 nonce; PUint 256 deadline]
  = Some (hexlify (concat [d; Arena.beBytes 1 0; Arena.beBytes 20 p; newName;
                           Arena.beBytes 32 nonce; Arena.beBytes 32 deadline])).
Proof. intros. all_packed. Qed.

Lemma commonDomain_spec chainId arenaAddress a :
  0 ≤ chainId < 2 ^ 256 → addressOf arenaAddress = Some a →
  Relayer.commonDomain chainId arenaAddress
  = Some (hexlify (Arena._commonDomain (Arena.Context chainId a))).
Proof.
  intros Hc Ha. unfold Relayer.commonDomain, Arena._commonDomain.
  rewrite encodePacked_domain, (packed_domain _ _ a), bind_some by done.
  apply ethers_keccak256_hexlify. all_bytes.
Qed.

(** C3.  With the relayer configured for the chain and the address of the
    contract, and for every player address, sequence number, expiry,
    direction and 12-byte name of the contract's types, [digestJoin],
    [digestMove] and [digestSetName] return the hex rendering of exactly
    the 32 bytes that [_digestJoin], [_digestMove] and [_digestSetName]
    compute. *)
Theorem relayer_digests_match_arena
    (cfg : Relayer.config) (ctx : Arena.context)
    (player nameBytes12 : string) (p : Z) (newName : list Z)
    (dir nonce deadline : Z) :
  Relayer.CHAIN_ID cfg = Arena.chainid ctx →
  addressOf (Relayer.ARENA_ADDRESS cfg) = Some (Arena.this ctx) →
  0 ≤ Arena.chainid ctx < 2 ^ 256 →
  addressOf player = Some p →
  getBytes nameBytes12 = Some newName → length newName = 12%nat →
  0 ≤ dir < 2 ^ 8 → 0 ≤ nonce < 2 ^ 256 → 0 ≤ deadline < 2 ^ 256 →
  renders (Relayer.digestJoin cfg player nonce deadline)
          (Arena._digestJoin ctx p nonce deadline)
  ∧ renders (Relayer.digestMove cfg player dir nonce deadline)
            (Arena._digestMove ctx p dir nonce deadline)
  ∧ renders (Relayer.digestSetName cfg player nameBytes12 nonce deadline)
            (Arena._digestSetName ctx p newName nonce deadline).
Proof.
  intros Hchain Harena Hcid Hp Hname Hlen Hdir Hnonce Hdl.
  destruct ctx as [cid this]. cbn [Arena.chainid Arena.this] in *.
  assert (Forall is_byte newName) as Hnb by by apply (getBytes_bytes nameBytes12).
  pose proof (commonDomain_spec _ _ _ Hcid Harena) as Hdom.
  pose proof (keccak256_bytes) as Hkb. pose proof keccak256_length as Hkl.
  split; [|split]; unfold renders.
  - unfold Relayer.digestJoin, Arena._digestJoin.
    rewrite encodePacked_join, Hchain, Hdom, bind_some.
    rewrite (packed_join _ _ p), bind_some by first [apply Hkb|apply Hkl|done].
    split; [|apply getBytes_hexlify, Hkb].
    apply ethers_keccak256_hexlify. all_bytes.
  - unfold Relayer.digestMove, Arena._digestMove.
    rewrite encodePacked_move, Hchain, Hdom, bind_some.
    rewrite (packed_move _ _ p), bind_some by first [apply Hkb|apply Hkl|done].
    split; [|apply getBytes_hexlify, Hkb].
    apply ethers_keccak256_hexlify. all_bytes.
  - unfold Relayer.digestSetName, Arena._digestSetName.
    rewrite encodePacked_setName, Hchain, Hdom, bind_some.
    rewrite (packed_setName _ _ p _ newName), bind_some
      by first [apply Hkb|apply Hkl|done].
    split; [|apply getBytes_hexlify, Hkb].
    apply ethers_keccak256_hexlify. all_bytes.
Qed.

Lemma relayer_digests_match_arena_witness :
  let cfg := Relayer.Config 10143 "0x5aaeb6053f3e94c9b9a09f33669435e7ef1beaed" in
  let ctx := Arena.Context 10143 0x5aaeb6053f3e94c9b9a09f33669435e7ef1beaed in
  let player := "0x7e5f4552091a69125d5dfcb7b8c2659029395bdf"%string in
  let p := 0x7e5f4552091a69125d5dfcb7b8c2659029395bdf in
  let nameBytes12 := "0x74656a000000000000000000"%string in
  let newName := [116; 101; 106; 0; 0; 0; 0; 0; 0; 0; 0; 0] in
  renders (Relayer.digestJoin cfg player 5 0) (Arena._digestJoin ctx p 5 0)
  ∧ renders (Relayer.digestMove cfg player 3 5 0)
            (Arena._digestMove ctx p 3 5 0)
  ∧ renders (Relayer.digestSetName cfg player nameBytes12 5 0)
            (Arena._digestSetName ctx p newName 5 0).
Proof.
  apply (relayer_digests_match_arena
           (Relayer.Config 10143 "0x5aaeb6053f3e94c9b9a09f33669435e7ef1beaed")
           (Arena.Context 10143 0x5aaeb6053f3e94c9b9a09f33669435e7ef1beaed)
           "0x7e5f4552091a69125d5dfcb7b8c2659029395bdf"
           "0x74656a000000000000000000"
           0x7e5f4552091a69125d5dfcb7b8c2659029395bdf
           [116; 101; 106; 0; 0; 0; 0; 0; 0; 0; 0; 0] 3 5 0).
  - reflexivity.
  - vm_compute. reflexivity.
  - cbn [Arena.chainid]. lia.
  - vm_compute. reflexivity.
  - vm_compute. reflexivity.
  - reflexivity.
  - lia.
  - lia.
  - lia.
Defined.

End DigestRefinement.

(** ** Case-insensitive comparison *)

Section CaseFacts.
Import Js Case.

Lemma lower_ascii_spec a :
  nat_of_ascii (lower_ascii a)
  = if isUpperAscii a then (nat_of_ascii a + 32)%nat else nat_of_ascii a.
Proof.
  unfold lower_ascii, isUpperAscii.
  destruct (_ && _) eqn:Hup; [|done].
  apply andb_prop in Hup as [H1 H2].
  apply Nat.leb_le in H1, H2. apply nat_ascii_embedding. lia.
Qed.

Lemma nat_of_ascii_inj a b : nat_of_ascii a = nat_of_ascii b → a = b.
Proof.
  intros H. rewrite <- (ascii_nat_embedding a), <- (ascii_nat_embedding b).
  by rewrite H.
Qed.

Lemma lower_ascii_same a b : lower_ascii a = lower_ascii b ↔ same_letter a b.
Proof.
  unfold same_letter. split.
  - intros H. apply (f_equal nat_of_ascii) in H.
    rewrite !lower_ascii_spec in H.
    destruct (isUpperAscii a) eqn:Ha, (isUpperAscii b) eqn:Hb.
    + left. apply nat_of_ascii_inj. lia.
    + right. left. split; [done|lia].
    + right. right. split; [done|lia].
    + left. by apply nat_of_ascii_inj.
  - intros H. apply nat_of_ascii_inj. rewrite !lower_ascii_spec.
    assert (∀ c, isUpperAscii c = true → (65 ≤ nat_of_ascii c ≤ 90)%nat) as Hr.
    { intros c Hc. unfold isUpperAscii in Hc.
      apply andb_prop in Hc as [H1 H2]. apply Nat.leb_le in H1, H2. lia. }
    assert (∀ c, (90 < nat_of_ascii c)%nat → isUpperAscii c = false) as Hn.
    { intros c Hc. unfold isUpperAscii. apply andb_false_iff. right.
      apply Nat.leb_gt. lia. }
    destruct H as [->|[[Ha Hb]|[Hb Ha]]]; [done| |].
    + rewrite Ha. apply Hr in Ha. rewrite (Hn b) by lia. lia.
    + rewrite Hb. apply Hr in Hb. rewrite (Hn a) by lia. lia.
Qed.

(** Two strings have the same lower-case form exactly when they are equal
    up to the case of their letters. *)
Lemma toLowerCase_eq s t : toLowerCase s = toLowerCase t ↔ eq_nocase s t.
Proof.
  split.
  - revert t. induction s as [|a s IH]; intros [|b t] H; simpl in H;
      try discriminate; [constructor|].
    injection H as Hab Hst. constructor; [by apply lower_ascii_same|auto].
  - induction 1 as [|a b s t Hab _ IH]; [done|]. simpl.
    apply lower_ascii_same in Hab. by rewrite Hab, IH.
Qed.

End CaseFacts.

(** ** Addresses *)

Section AddressFacts.
Import Js Ethers Verify.

(** [getAddress] on the forms of an address: in lower case, in mixed case
    with a wrong checksum, in the ICAP form with the right and with wrong
    check digits. *)
Example getAddress_forms :
  getAddress "0x8ba1f109551bd432803012645ac136ddd64dba72"
  = Some "0x8ba1f109551bD432803012645Ac136ddd64DBA72"
  ∧ getAddress "0x8Ba1f109551bD432803012645Ac136ddd64DBA72" = None
  ∧ getAddress "XE65GB6LDNXYOFTX0NSV3FUWKOWIXAMJK36"
    = Some "0x8ba1f109551bD432803012645Ac136ddd64DBA72"
  ∧ getAddress "XE66GB6LDNXYOFTX0NSV3FUWKOWIXAMJK36" = None
  ∧ isAddr "XE65GB6LDNXYOFTX0NSV3FUWKOWIXAMJK36" = true.
Proof. repeat split; vm_compute; reflexivity. Qed.

End AddressFacts.

(** ** Signature check *)

Section VerifyFacts.
Import Js Ethers Sig Verify Case.
Variable recoverPublicKey : list Z → signature → option (list Z).


(** A signature that does not parse makes [verifyBurnerSignature] throw:
    it returns neither [true] nor [false]. *)
Lemma verifyBurnerSignature_malformed (player digest sig : string) :
  Signature_from sig = None →
  verifyBurnerSignature recoverPublicKey player digest sig = None.
Proof.
  intros Hs. unfold verifyBurnerSignature, verifyMessage.
  destruct (getBytes digest); [|reflexivity].
  rewrite bind_some, Hs. reflexivity.
Qed.

End VerifyFacts.


(* ------------------------------------------------------------------ *)
(** ** The queue: the invariant of the runs *)

Section QueueFacts.
Import Queue QueueInv.

Lemma enqueued_snoc tr ev :
  enqueued (tr ++ [ev])
  = enqueued tr ++ match ev with EvEnqueue fn _ => [fn] | _ => [] end.
Proof. unfold enqueued. rewrite omap_app. by destruct ev. Qed.

Lemma returned_snoc tr ev :
  returned (tr ++ [ev])
  = returned tr ++ match ev with EvEnqueue _ ret => [ret] | _ => [] end.
Proof. unfold returned. rewrite omap_app. by destruct ev. Qed.

Lemma called_snoc tr ev :
  called (tr ++ [ev])
  = called tr ++ match ev with EvCall c => [c] | _ => [] end.
Proof. unfold called. rewrite omap_app. by destruct ev. Qed.

Lemma settled_snoc tr ev :
  settled (tr ++ [ev])
  = settled tr ++ match ev with EvSettle c o => [(c, o)] | _ => [] end.
Proof. unfold settled. rewrite omap_app. by destruct ev. Qed.

Lemma guarded_enqueued_snoc key tr ev :
  guarded_enqueued key (tr ++ [ev])
  = guarded_enqueued key tr + (if is_guarded_enqueue key ev then 1 else 0).
Proof.
  unfold guarded_enqueued. rewrite filter_app, length_app. f_equal.
  rewrite filter_cons, filter_nil. by destruct (is_guarded_enqueue key ev).
Qed.

Lemma cleanups_snoc key tr ev :
  cleanups key (tr ++ [ev])
  = cleanups key tr + (if is_cleanup key ev then 1 else 0).
Proof.
  unfold cleanups. rewrite filter_app, length_app. f_equal.
  rewrite filter_cons, filter_nil. by destruct (is_cleanup key ev).
Qed.

Lemma inv_ext tr tr' s :
  enqueued tr' = enqueued tr → returned tr' = returned tr →
  called tr' = called tr → settled tr' = settled tr →
  (∀ key, guarded_enqueued key tr' = guarded_enqueued key tr) →
  (∀ key, cleanups key tr' = cleanups key tr) →
  inv tr s → inv tr' s.
Proof.
  intros He Hr Hc Hs Hg Hcl [].
  constructor; unfold stage_ok; rewrite ?He, ?Hr, ?Hc, ?Hs; try done.
  intros key. by rewrite Hg, Hcl.
Qed.

Lemma inv_silent tr ev s :
  (match ev with EvDeduped _ _ _ | EvJob => True | _ => False end) →
  inv tr s → inv (tr ++ [ev]) s.
Proof.
  intros Hev. apply inv_ext; intros;
    rewrite ?enqueued_snoc, ?returned_snoc, ?called_snoc, ?settled_snoc,
      ?guarded_enqueued_snoc, ?cleanups_snoc;
    destruct ev; try done; cbn; rewrite ?app_nil_r; try done; lia.
Qed.

Lemma inv_init : inv [] init.
Proof.
  constructor; unfold init; cbn [heap tail count moveInFlight];
    try done; try (cbn; lia).
  - intros fn Hin. by apply elem_of_nil in Hin.
  - intros []; rewrite lookup_singleton; case_decide; by simplify_eq.
  - intros st i Hi. rewrite lookup_singleton. case_decide; [|done].
    simplify_eq. lia.
  - intros i src key c. rewrite lookup_singleton. by case_decide.
  - intros i src key. rewrite lookup_singleton. by case_decide.
Qed.

Lemma inv_kind tr s i : inv tr s → kind tr s i.
Proof.
  intros Hinv.
  destruct (decide (i = 0)) as [->|Hi0].
  { apply kind_zero; [done|]. apply (inv_zero _ _ Hinv). }
  destruct (decide (count s < i)) as [Hn|Hn].
  { apply kind_fresh; [done|]. intros st. by apply (inv_fresh _ _ Hinv). }
  assert (is_Some (enqueued tr !! (i - 1))) as [fn Hfn].
  { apply lookup_lt_is_Some. rewrite <- (inv_count _ _ Hinv). lia. }
  destruct (decide (length (called tr) < i)) as [Hk|Hk].
  - eapply kind_waiting; [lia|done| |].
    + eapply (inv_tasks _ _ Hinv), list_elem_of_lookup_2, Hfn.
    + by apply (inv_waiting _ _ Hinv).
  - destruct (inv_started _ _ Hinv i fn) as (c & sg & Hc & Hcells & Hsg);
      [lia|done|].
    eapply kind_started; [lia|done..].
Qed.

Lemma stage_ok_ext tr tr' i fn c sg :
  called tr' = called tr → settled tr' = settled tr →
  stage_ok tr i fn c sg → stage_ok tr' i fn c sg.
Proof. unfold stage_ok. by intros -> ->. Qed.

Lemma enqueue_heap tr s fn st j :
  inv tr s →
  heap (enqueue fn s).2 !! (st, j)
  = if decide (j = S (count s)) then waiting_cell j fn st
    else heap s !! (st, j).
Proof.
  intros Hinv. unfold enqueue; cbn [snd heap]. rewrite !lookup_insert.
  destruct (decide (j = S (count s))) as [->|Hj].
  - destruct st; repeat (case_decide; simplify_eq); cbn [waiting_cell];
      try done.
    + rewrite (inv_tail _ _ Hinv). do 3 f_equal. lia.
    + apply (inv_fresh _ _ Hinv). lia.
    + apply (inv_fresh _ _ Hinv). lia.
  - repeat (case_decide; simplify_eq); done.
Qed.

Lemma inv_enqueue tr s fn c mif' :
  inv tr s →
  call_of fn = Some c →
  (mif' = moveInFlight s ∧ (∀ key c', fn ≠ Guarded key c'))
  ∨ (∃ key, fn = Guarded key c ∧ moveInFlight s !! key = None
            ∧ mif' = <[key := (AtRet, S (count s))]> (moveInFlight s)) →
  inv (tr ++ [EvEnqueue fn (AtRet, S (count s))])
      (State (heap (enqueue fn s).2) (AtTail, S (count s)) (S (count s)) mif').
Proof.
  intros Hinv Hc Hmif.
  pose proof (λ st j, enqueue_heap tr s fn st j Hinv) as Hheap.
  constructor; cbn [heap tail count moveInFlight];
    rewrite ?enqueued_snoc, ?returned_snoc, ?called_snoc, ?settled_snoc,
      ?app_nil_r, ?length_app; cbn [length].
  - rewrite (inv_count _ _ Hinv). lia.
  - done.
  - rewrite seq_S, fmap_app, (inv_returned _ _ Hinv). done.
  - intros fn' [Hin| ->%list_elem_of_singleton]%elem_of_app.
    + by apply (inv_tasks _ _ Hinv).
    + intros ->. done.
  - rewrite take_app_le; [apply (inv_called _ _ Hinv)|].
    rewrite <- (inv_count _ _ Hinv). apply (inv_called_le _ _ Hinv).
  - pose proof (inv_called_le _ _ Hinv). lia.
  - apply (inv_settled _ _ Hinv).
  - apply (inv_settled_le _ _ Hinv).
  - intros st. rewrite Hheap. case_decide; [lia|]. apply (inv_zero _ _ Hinv).
  - intros st j Hj. rewrite Hheap. case_decide; [lia|].
    apply (inv_fresh _ _ Hinv). lia.
  - intros j fn' Hj [[Hlt Hfn]|[Heq ->]]%lookup_snoc_Some st; rewrite Hheap.
    + rewrite <- (inv_count _ _ Hinv) in Hlt. case_decide; [lia|].
      by apply (inv_waiting _ _ Hinv).
    + rewrite <- (inv_count _ _ Hinv) in Heq. case_decide; [done|lia].
  - intros j fn' Hj [[Hlt Hfn]|[Heq ->]]%lookup_snoc_Some.
    2:{ pose proof (inv_called_le _ _ Hinv).
        rewrite <- (inv_count _ _ Hinv) in Heq. lia. }
    destruct (inv_started _ _ Hinv j fn') as (c' & sg & Hc' & Hcells & Hsg);
      [done..|].
    exists c', sg. split_and!; [done| |].
    + intros st. rewrite Hheap. case_decide; [|done].
      pose proof (inv_called_le _ _ Hinv). lia.
    + eapply stage_ok_ext; [| |done].
      * by rewrite called_snoc, app_nil_r.
      * by rewrite settled_snoc, app_nil_r.
  - intros j src key c'. rewrite Hheap. case_decide as Hj.
    + subst j. cbn [waiting_cell]. intros [= <- ->].
      destruct Hmif as [[_ Hne]|(key' & [= -> ->] & Hnone & ->)].
      * by destruct (Hne key c').
      * by rewrite lookup_insert_eq.
    + intros Hrun. pose proof (inv_flight_run _ _ Hinv _ _ _ _ Hrun) as Hold.
      destruct Hmif as [[-> _]|(key' & _ & Hnone & ->)]; [done|].
      rewrite lookup_insert_ne; [done|]. intros ->. by rewrite Hold in Hnone.
  - intros j src key. rewrite Hheap. case_decide as Hj; [done|].
    intros Hw. pose proof (inv_flight_wrap _ _ Hinv _ _ _ Hw) as Hold.
    destruct Hmif as [[-> _]|(key' & _ & Hnone & ->)]; [done|].
    rewrite lookup_insert_ne; [done|]. intros ->. by rewrite Hold in Hnone.
  - intros key h Hh.
    assert (∀ j, heap s !! (AtRun, j) ≠ None ∨ heap s !! (AtWrap, j) ≠ None →
                 j ≠ S (count s)) as Hused.
    { intros j Hj ->. rewrite !(inv_fresh _ _ Hinv) in Hj by lia.
      by destruct Hj. }
    assert (moveInFlight s !! key = Some h →
      ∃ i, h = (AtRet, i)
        ∧ ((∃ src c, heap (enqueue fn s).2 !! (AtRun, i)
                     = Some (Then src (Guarded key c)))
           ∨ (∃ src, heap (enqueue fn s).2 !! (AtWrap, i)
                     = Some (AwaitFinally src key)))) as Hold.
    { intros Hk.
      destruct (inv_flight_entry _ _ Hinv _ _ Hk)
        as (j & -> & [(src & c' & Hr)|(src & Hw)]); exists j; (split; [done|]).
      - left. exists src, c'. rewrite Hheap. case_decide; [|done].
        destruct (Hused j); [left; congruence|done].
      - right. exists src. rewrite Hheap. case_decide; [|done].
        destruct (Hused j); [right; congruence|done]. }
    destruct Hmif as [[-> _]|(key' & -> & Hnone & ->)]; [by apply Hold|].
    rewrite lookup_insert in Hh. case_decide as Hk; [|by apply Hold].
    simplify_eq. exists (S (count s)). split; [done|]. left.
    exists (tail s), c. rewrite Hheap. case_decide; [|done].
    cbn [waiting_cell]. rewrite (inv_tail _ _ Hinv). do 3 f_equal. lia.
  - intros key. rewrite guarded_enqueued_snoc, cleanups_snoc.
    rewrite (inv_flight_count _ _ Hinv). cbn [is_cleanup is_guarded_enqueue].
    destruct Hmif as [[-> Hne]|(key' & -> & Hnone & ->)].
    + destruct fn as [|k c'|]; [lia| |lia]. by destruct (Hne k c').
    + rewrite lookup_insert. case_bool_decide; case_decide; simplify_eq.
      * rewrite Hnone. lia.
      * lia.
Qed.

(** Only the next task can start, and only when nothing runs. *)
Lemma start_next tr s i src fn :
  inv tr s →
  heap s !! (AtRun, i) = Some (Then src fn) → is_settled s src →
  i = S (length (called tr))
  ∧ length (settled tr) = length (called tr)
  ∧ enqueued tr !! length (called tr) = Some fn
  ∧ i ≤ count s
  ∧ src = (AtTail, length (called tr))
  ∧ (∀ st, heap s !! (st, i) = waiting_cell i fn st).
Proof.
  intros Hinv Hrun [o Hsrc].
  destruct (inv_kind tr s i Hinv) as [Hi Hc|Hi Hc|fn' Hi Hfn Hne Hc
                                     |fn' c sg Hi Hfn Hcall Hc Hsg];
    rewrite Hc in Hrun; cbn in Hrun.
  - done.
  - done.
  - injection Hrun as <- <-.
    pose proof (inv_settled_le _ _ Hinv) as HFK.
    destruct (inv_kind tr s (i - 1) Hinv) as [Hj Hd|Hj Hd|fn2 Hj Hfn2 Hne2 Hd
                                             |fn2 c2 sg2 Hj Hfn2 Hc2 Hd Hsg2];
      rewrite Hd in Hsrc; cbn in Hsrc; try done.
    + assert (i = 1) as -> by lia. assert (length (called tr) = 0) as HK by lia.
      split_and!; first [done|lia|by rewrite HK].
    + assert (i = S (length (called tr))) as -> by lia.
      destruct sg2 as [|o2 pr2]; [done|]. destruct Hsg2 as (Hs & _ & _).
      apply lookup_lt_Some in Hs.
      replace (S (length (called tr)) - 1) with (length (called tr)) in *
        by lia.
      split_and!; first [done|lia].
  - destruct sg as [|o' [cl [] tl dl]]; done.
Qed.

Lemma inv_start tr s i fn c h' :
  inv tr s →
  i = S (length (called tr)) →
  length (settled tr) = length (called tr) →
  enqueued tr !! length (called tr) = Some fn →
  call_of fn = Some c →
  i ≤ count s →
  is_settled s (AtTail, length (called tr)) →
  (∀ st, heap s !! (st, i) = waiting_cell i fn st) →
  (∀ st j, h' !! (st, j) = if decide (j = i)
                            then started_cell i fn c Running st
                            else heap s !! (st, j)) →
  inv (tr ++ [EvCall c]) (set_heap s h').
Proof.
  intros Hinv -> HFK Hfn Hc Hle [ot Htail] Hwait Hheap.
  pose proof (inv_called_le _ _ Hinv) as HKn.
  assert (∀ j fn2 c2 sg2, 1 ≤ j ≤ length (called tr) →
            (∀ st, heap s !! (st, j) = started_cell j fn2 c2 sg2 st) →
            stage_ok tr j fn2 c2 sg2 →
            stage_ok (tr ++ [EvCall c]) j fn2 c2 sg2) as Hstage.
  { intros j fn2 c2 sg2 Hj Hcells. unfold stage_ok.
    rewrite called_snoc, settled_snoc, app_nil_r, length_app. cbn [length].
    destruct sg2 as [|o2 pr2]; [lia|].
    intros (Hs & Hok & Ht). split_and!; [done..|].
    intros Hlt. destruct (decide (j < length (called tr))); [by apply Ht|].
    assert (j = length (called tr)) as -> by lia.
    rewrite Hcells in Htail. by destruct pr2 as [cl rn [] dl]. }
  constructor; cbn [heap tail count moveInFlight set_heap];
    rewrite ?enqueued_snoc, ?returned_snoc, ?called_snoc, ?settled_snoc,
      ?app_nil_r, ?length_app; cbn [length].
  - apply (inv_count _ _ Hinv).
  - apply (inv_tail _ _ Hinv).
  - apply (inv_returned _ _ Hinv).
  - apply (inv_tasks _ _ Hinv).
  - replace (length (called tr) + 1) with (S (length (called tr))) by lia.
    rewrite (take_S_r _ _ _ Hfn), !fmap_app, (inv_called _ _ Hinv).
    cbn. by rewrite Hc.
  - lia.
  - rewrite take_app_le by lia. apply (inv_settled _ _ Hinv).
  - lia.
  - intros st. rewrite Hheap. case_decide; [lia|]. apply (inv_zero _ _ Hinv).
  - intros st j Hj. rewrite Hheap. case_decide; [lia|].
    by apply (inv_fresh _ _ Hinv).
  - intros j fn' Hj Hfn' st. rewrite Hheap. case_decide; [lia|].
    apply (inv_waiting _ _ Hinv); [lia|done].
  - intros j fn' Hj Hfn'.
    destruct (decide (j = S (length (called tr)))) as [->|Hne].
    + replace (S (length (called tr)) - 1) with (length (called tr)) in Hfn'
        by lia.
      simplify_eq. exists c, Running. split_and!; [done| |].
      * intros st. rewrite Hheap. by case_decide.
      * unfold stage_ok. rewrite called_snoc, settled_snoc, app_nil_r,
          length_app. cbn [length]. lia.
    + destruct (inv_started _ _ Hinv j fn') as (c' & sg & Hc' & Hcells & Hsg);
        [lia|done|].
      exists c', sg. split_and!; [done| |].
      * intros st. rewrite Hheap. by case_decide.
      * apply Hstage; [lia|done..].
  - intros j src key c'. rewrite Hheap. case_decide; [done|].
    apply (inv_flight_run _ _ Hinv).
  - intros j src key. rewrite Hheap. case_decide as Hj.
    + subst j. destruct fn as [|key' c'|]; try done. cbn.
      intros [= <- <-]. eapply (inv_flight_run _ _ Hinv).
      rewrite Hwait. done.
    + apply (inv_flight_wrap _ _ Hinv).
  - intros key h Hh.
    destruct (inv_flight_entry _ _ Hinv _ _ Hh)
      as (j & -> & [(src & c' & Hr)|(src & Hw)]); exists j; (split; [done|]).
    + destruct (decide (j = S (length (called tr)))) as [->|Hne].
      * right. rewrite Hwait in Hr. cbn in Hr. simplify_eq.
        eexists. rewrite Hheap. case_decide; [|done]. done.
      * left. exists src, c'. rewrite Hheap. by case_decide.
    + right. exists src. rewrite Hheap. case_decide; [|done].
      subst j. by rewrite Hwait in Hw.
  - intros key. rewrite guarded_enqueued_snoc, cleanups_snoc.
    cbn [is_cleanup is_guarded_enqueue]. rewrite !Nat.add_0_r.
    apply (inv_flight_count _ _ Hinv).
Qed.
(** A started task never has a pending [then] on its [run] promise. *)
Lemma started_run_not_then i fn c sg src fn' :
  started_cell i fn c sg AtRun ≠ Some (Then src fn').
Proof. by destruct sg as [|o [cl [] tl dl]]. Qed.

(** The promises of a finished task settle one after the other. *)
Lemma inv_advance tr s i fn c o pr pr' h' :
  inv tr s →
  1 ≤ i ≤ length (called tr) →
  enqueued tr !! (i - 1) = Some fn → call_of fn = Some c →
  (∀ st, heap s !! (st, i) = started_cell i fn c (Finished o pr) st) →
  stage_ok tr i fn c (Finished o pr) →
  cleaned pr' = cleaned pr →
  progress_ok fn pr' →
  (tailed pr = true → tailed pr' = true) →
  (∀ st j, h' !! (st, j) = if decide (j = i)
                            then started_cell i fn c (Finished o pr') st
                            else heap s !! (st, j)) →
  inv tr (set_heap s h').
Proof.
  intros Hinv Hi Hfn Hc Hcells (Hs & Hok & Ht) Hcl Hok' Ht' Hheap.
  assert (h' !! (AtWrap, i) = heap s !! (AtWrap, i)) as Hwrap.
  { rewrite Hheap, Hcells. case_decide; [|done]. cbn. by rewrite Hcl. }
  constructor; cbn [heap tail count moveInFlight set_heap].
  - apply (inv_count _ _ Hinv).
  - apply (inv_tail _ _ Hinv).
  - apply (inv_returned _ _ Hinv).
  - apply (inv_tasks _ _ Hinv).
  - apply (inv_called _ _ Hinv).
  - apply (inv_called_le _ _ Hinv).
  - apply (inv_settled _ _ Hinv).
  - apply (inv_settled_le _ _ Hinv).
  - intros st. rewrite Hheap. case_decide; [lia|]. apply (inv_zero _ _ Hinv).
  - intros st j Hj. rewrite Hheap. pose proof (inv_called_le _ _ Hinv).
    case_decide; [lia|]. by apply (inv_fresh _ _ Hinv).
  - intros j fn' Hj Hfn' st. rewrite Hheap. case_decide; [lia|].
    by apply (inv_waiting _ _ Hinv).
  - intros j fn' Hj Hfn'. destruct (decide (j = i)) as [->|Hne].
    + simplify_eq. exists c, (Finished o pr'). split_and!; [done| |].
      * intros st. rewrite Hheap. by case_decide.
      * split_and!; [done..|]. intros Hlt. by apply Ht', Ht.
    + destruct (inv_started _ _ Hinv j fn') as (c' & sg & Hc' & Hcells' & Hsg);
        [done..|].
      exists c', sg. split_and!; [done| |done].
      intros st. rewrite Hheap. by case_decide.
  - intros j src key c'. rewrite Hheap. case_decide as Hj.
    + intros Hr. by apply started_run_not_then in Hr.
    + apply (inv_flight_run _ _ Hinv).
  - intros j src key. destruct (decide (j = i)) as [->|Hne].
    + rewrite Hwrap. apply (inv_flight_wrap _ _ Hinv).
    + rewrite Hheap. case_decide; [done|]. apply (inv_flight_wrap _ _ Hinv).
  - intros key h Hh.
    destruct (inv_flight_entry _ _ Hinv _ _ Hh)
      as (j & -> & [(src & c' & Hr)|(src & Hw)]); exists j; (split; [done|]).
    + left. exists src, c'. rewrite Hheap. case_decide; [|done].
      subst j. rewrite Hcells in Hr. by apply started_run_not_then in Hr.
    + right. exists src. destruct (decide (j = i)) as [->|Hne].
      * by rewrite Hwrap.
      * rewrite Hheap. by case_decide.
  - apply (inv_flight_count _ _ Hinv).
Qed.

(** The wrapper of [enqueueMoveOnce] runs its [finally]. *)
Lemma inv_finally tr s i key c o pr h' :
  inv tr s →
  1 ≤ i ≤ length (called tr) →
  enqueued tr !! (i - 1) = Some (Guarded key c) →
  (∀ st, heap s !! (st, i)
         = started_cell i (Guarded key c) c (Finished o pr) st) →
  stage_ok tr i (Guarded key c) c (Finished o pr) →
  cleaned pr = false →
  (∀ st j, h' !! (st, j) =
     if decide (j = i)
     then started_cell i (Guarded key c) c
            (Finished o (Progress true (ran pr) (tailed pr) (delivered pr))) st
     else heap s !! (st, j)) →
  inv (tr ++ [EvCleanup key])
      (State h' (tail s) (count s) (delete key (moveInFlight s))).
Proof.
  intros Hinv Hi Hfn Hcells (Hs & Hok & Ht) Hcl Hheap.
  assert (moveInFlight s !! key = Some (AtRet, i)) as Hkey.
  { eapply (inv_flight_wrap _ _ Hinv). rewrite Hcells. cbn. by rewrite Hcl. }
  constructor; cbn [heap tail count moveInFlight];
    rewrite ?enqueued_snoc, ?returned_snoc, ?called_snoc, ?settled_snoc,
      ?app_nil_r.
  - apply (inv_count _ _ Hinv).
  - apply (inv_tail _ _ Hinv).
  - apply (inv_returned _ _ Hinv).
  - apply (inv_tasks _ _ Hinv).
  - apply (inv_called _ _ Hinv).
  - apply (inv_called_le _ _ Hinv).
  - apply (inv_settled _ _ Hinv).
  - apply (inv_settled_le _ _ Hinv).
  - intros st. rewrite Hheap. case_decide; [lia|]. apply (inv_zero _ _ Hinv).
  - intros st j Hj. rewrite Hheap. pose proof (inv_called_le _ _ Hinv).
    case_decide; [lia|]. by apply (inv_fresh _ _ Hinv).
  - intros j fn' Hj Hfn' st. rewrite Hheap. case_decide; [lia|].
    by apply (inv_waiting _ _ Hinv).
  - intros j fn' Hj Hfn'. destruct (decide (j = i)) as [->|Hne].
    + simplify_eq. eexists c, (Finished o _). split_and!; [done| |].
      * intros st. rewrite Hheap. by case_decide.
      * unfold stage_ok. rewrite called_snoc, settled_snoc, !app_nil_r.
        split_and!; [done| |done].
        destruct Hok as (? & ? & ?). by split_and!.
    + destruct (inv_started _ _ Hinv j fn') as (c' & sg & Hc' & Hcells' & Hsg);
        [done..|].
      exists c', sg. split_and!; [done| |].
      * intros st. rewrite Hheap. by case_decide.
      * eapply stage_ok_ext; [| |done].
        -- by rewrite called_snoc, app_nil_r.
        -- by rewrite settled_snoc, app_nil_r.
  - intros j src key' c'. rewrite Hheap. case_decide as Hj.
    + intros Hr. by apply started_run_not_then in Hr.
    + intros Hr. pose proof (inv_flight_run _ _ Hinv _ _ _ _ Hr) as Hold.
      rewrite lookup_delete_ne; [done|]. intros ->.
      rewrite Hkey in Hold. by simplify_eq.
  - intros j src key'. rewrite Hheap. case_decide as Hj; [done|].
    intros Hw. pose proof (inv_flight_wrap _ _ Hinv _ _ _ Hw) as Hold.
    rewrite lookup_delete_ne; [done|]. intros ->.
    rewrite Hkey in Hold. by simplify_eq.
  - intros key' h Hh. rewrite lookup_delete in Hh.
    case_decide as Hk; [done|].
    destruct (inv_flight_entry _ _ Hinv _ _ Hh)
      as (j & -> & [(src & c' & Hr)|(src & Hw)]); exists j; (split; [done|]).
    + left. exists src, c'. rewrite Hheap. case_decide; [|done].
      subst j. rewrite Hcells in Hr. by apply started_run_not_then in Hr.
    + right. exists src. rewrite Hheap. case_decide; [|done].
      subst j. rewrite Hcells in Hw. cbn in Hw. rewrite Hcl in Hw.
      by simplify_eq.
  - intros key'. rewrite guarded_enqueued_snoc, cleanups_snoc.
    cbn [is_cleanup is_guarded_enqueue].
    rewrite (inv_flight_count _ _ Hinv key'), lookup_delete.
    case_bool_decide; case_decide; simplify_eq.
    + rewrite Hkey. lia.
    + lia.
Qed.

(** The call of the running task settles. *)
Lemma inv_settle tr s i fn c o h' :
  inv tr s →
  1 ≤ i ≤ length (called tr) →
  enqueued tr !! (i - 1) = Some fn → call_of fn = Some c →
  (∀ st, heap s !! (st, i) = started_cell i fn c Running st) →
  stage_ok tr i fn c Running →
  (∀ st j, h' !! (st, j) =
     if decide (j = i)
     then started_cell i fn c
            (Finished o (Progress false false false false)) st
     else heap s !! (st, j)) →
  inv (tr ++ [EvSettle c o]) (set_heap s h').
Proof.
  intros Hinv Hi Hfn Hc Hcells [-> HFK] Hheap.
  assert (called tr !! length (settled tr) = Some c) as Hcalled.
  { pose proof (f_equal (λ l, l !! length (settled tr)) (inv_called _ _ Hinv))
      as Hl. cbn beta in Hl.
    rewrite !list_lookup_fmap, lookup_take in Hl.
    case_decide; [|lia].
    replace (length (called tr) - 1) with (length (settled tr)) in Hfn by lia.
    rewrite Hfn in Hl. cbn in Hl. rewrite Hc in Hl.
    destruct (called tr !! length (settled tr)); cbn in Hl; by simplify_eq. }
  assert (h' !! (AtWrap, length (called tr))
          = heap s !! (AtWrap, length (called tr))) as Hwrap.
  { rewrite Hheap, Hcells. case_decide; [|done]. done. }
  constructor; cbn [heap tail count moveInFlight set_heap];
    rewrite ?enqueued_snoc, ?returned_snoc, ?called_snoc, ?settled_snoc,
      ?app_nil_r, ?length_app; cbn [length].
  - apply (inv_count _ _ Hinv).
  - apply (inv_tail _ _ Hinv).
  - apply (inv_returned _ _ Hinv).
  - apply (inv_tasks _ _ Hinv).
  - apply (inv_called _ _ Hinv).
  - apply (inv_called_le _ _ Hinv).
  - replace (length (settled tr) + 1) with (S (length (settled tr))) by lia.
    rewrite (take_S_r _ _ _ Hcalled), fmap_app, (inv_settled _ _ Hinv). done.
  - lia.
  - intros st. rewrite Hheap. case_decide; [lia|]. apply (inv_zero _ _ Hinv).
  - intros st j Hj. rewrite Hheap. pose proof (inv_called_le _ _ Hinv).
    case_decide; [lia|]. by apply (inv_fresh _ _ Hinv).
  - intros j fn' Hj Hfn' st. rewrite Hheap. case_decide; [lia|].
    by apply (inv_waiting _ _ Hinv).
  - intros j fn' Hj Hfn'.
    destruct (decide (j = length (called tr))) as [->|Hne].
    + simplify_eq. eexists c, (Finished o _). split_and!; [done| |].
      * intros st. rewrite Hheap. by case_decide.
      * unfold stage_ok. rewrite called_snoc, settled_snoc, !app_nil_r.
        split_and!; [|done|lia].
        replace (length (called tr) - 1) with (length (settled tr)) by lia.
        by apply list_lookup_middle.
    + destruct (inv_started _ _ Hinv j fn') as (c' & sg & Hc' & Hcells' & Hsg);
        [done..|].
      exists c', sg. split_and!; [done| |].
      * intros st. rewrite Hheap. by case_decide.
      * unfold stage_ok in *. rewrite called_snoc, settled_snoc, !app_nil_r.
        destruct sg as [|o' pr']; [lia|].
        destruct Hsg as (Hs & ? & ?). split_and!; [|done..].
        by apply lookup_app_l_Some.
  - intros j src key c'. rewrite Hheap. case_decide as Hj.
    + intros Hr. by apply started_run_not_then in Hr.
    + apply (inv_flight_run _ _ Hinv).
  - intros j src key. destruct (decide (j = length (called tr))) as [->|Hne].
    + rewrite Hwrap. apply (inv_flight_wrap _ _ Hinv).
    + rewrite Hheap. case_decide; [done|]. apply (inv_flight_wrap _ _ Hinv).
  - intros key h Hh.
    destruct (inv_flight_entry _ _ Hinv _ _ Hh)
      as (j & -> & [(src & c' & Hr)|(src & Hw)]); exists j; (split; [done|]).
    + left. exists src, c'. rewrite Hheap. case_decide; [|done].
      subst j. rewrite Hcells in Hr. by apply started_run_not_then in Hr.
    + right. exists src.
      destruct (decide (j = length (called tr))) as [->|Hne].
      * by rewrite Hwrap.
      * rewrite Hheap. by case_decide.
  - intros key. rewrite guarded_enqueued_snoc, cleanups_snoc.
    cbn [is_cleanup is_guarded_enqueue]. rewrite !Nat.add_0_r.
    apply (inv_flight_count _ _ Hinv).
Qed.
(** Every step of the queue keeps the invariant. *)
Lemma inv_step tr s ev s' : inv tr s → step s ev s' → inv (tr ++ [ev]) s'.
Proof.
  intros Hinv Hstep.
  destruct Hstep as [s c|s player c existing Hd|s player c p s' Hm
    |s i src c Hrun Hsrc Hcall|s i src key c Hrun Hsrc Hcall Hwrap
    |s p src Hp Hsrc|s p src o Hp Hsrc|s w src key o Hw Hsrc|s q c o Hq].
  - apply (inv_enqueue tr s (Submit c) c); [done..|]. left. by split.
  - by apply inv_silent.
  - unfold enqueueMoveOnce in Hm.
    destruct (moveInFlight s !! Js.toLowerCase player) eqn:Hkey; [done|].
    injection Hm as <- <-.
    apply (inv_enqueue tr s (Guarded (Js.toLowerCase player) c) c); [done..|].
    right. by exists (Js.toLowerCase player).
  - destruct (start_next _ _ _ _ _ Hinv Hrun Hsrc)
      as (Hi & HFK & Hfn & Hle & -> & Hwait).
    eapply (inv_start tr s i (Submit c) c); try done.
    intros st j. rewrite !lookup_insert.
    destruct (decide (j = i)) as [->|Hne].
    + destruct st; repeat (case_decide; simplify_eq);
        try done; by rewrite Hwait.
    + repeat (case_decide; simplify_eq); done.
  - destruct (start_next _ _ _ _ _ Hinv Hrun Hsrc)
      as (Hi & HFK & Hfn & Hle & -> & Hwait).
    eapply (inv_start tr s i (Guarded key c) c); try done.
    intros st j. rewrite !lookup_insert.
    destruct (decide (j = i)) as [->|Hne].
    + destruct st; repeat (case_decide; simplify_eq);
        try done; by rewrite Hwait.
    + repeat (case_decide; simplify_eq); done.
  - apply inv_silent; [done|]. destruct p as [st i]. destruct Hsrc as [os Hsrc].
    destruct (inv_kind tr s i Hinv) as [Hi Hc|Hi Hc|fn Hi Hfn Hne Hc
                                       |fn c sg Hi Hfn Hcall Hc Hsg];
      rewrite Hc in Hp.
    + by destruct st.
    + done.
    + destruct st; cbn in Hp; simplify_eq. rewrite Hc in Hsrc. done.
    + destruct st, sg as [|o [cl rn tl dl]]; cbn in Hp; try done;
        try (by destruct fn); try (by destruct rn); try (by destruct dl);
        try (by destruct fn, cl).
      * simplify_eq. by rewrite Hc in Hsrc.
      * destruct tl; simplify_eq. rewrite Hc in Hsrc. cbn in Hsrc.
        destruct rn; [|done].
        apply (inv_advance tr s i fn c o (Progress cl true false dl)
                 (Progress cl true true dl)); try done;
          try (destruct Hsg as (_ & (? & ? & ?) & _); by split_and!).
        intros st j. rewrite lookup_insert.
        destruct (decide (j = i)) as [->|Hne].
        -- destruct st; case_decide; simplify_eq; try done; by rewrite Hc.
        -- case_decide; simplify_eq; done.
  - apply inv_silent; [done|]. destruct p as [st i].
    destruct (inv_kind tr s i Hinv) as [Hi Hc|Hi Hc|fn Hi Hfn Hne Hc
                                       |fn c sg Hi Hfn Hcall Hc Hsg];
      rewrite Hc in Hp.
    + by destruct st.
    + done.
    + destruct st; cbn in Hp; simplify_eq. rewrite Hc in Hsrc. done.
    + destruct st, sg as [|o' [cl rn tl dl]]; cbn in Hp; try done;
        try (by destruct fn); try (by destruct tl); try (by destruct fn, cl).
      * simplify_eq. destruct fn; cbn [target] in Hsrc; rewrite Hc in Hsrc; done.
      * destruct rn; simplify_eq.
        assert (o' = o ∧ match fn with Guarded _ _ => cl = true | _ => True end)
          as [-> Hcl].
        { destruct fn; cbn [target] in Hsrc; rewrite Hc in Hsrc; cbn in Hsrc;
            simplify_eq; try done.
          destruct cl; by simplify_eq. }
        apply (inv_advance tr s i fn c o (Progress cl false tl dl)
                 (Progress cl true tl dl)); try done;
          try (destruct Hsg as (_ & (? & ? & ?) & _); by split_and!).
        intros st j. rewrite lookup_insert.
        destruct (decide (j = i)) as [->|Hne].
        -- destruct st; case_decide; simplify_eq; try done; by rewrite Hc.
        -- case_decide; simplify_eq; done.
      * simplify_eq. by rewrite Hc in Hsrc.
      * destruct dl; simplify_eq. rewrite Hc in Hsrc. cbn in Hsrc.
        destruct rn; simplify_eq.
        apply (inv_advance tr s i fn c o (Progress cl true tl false)
                 (Progress cl true tl true)); try done;
          try (destruct Hsg as (_ & (? & ? & ?) & _); by split_and!).
        intros st j. rewrite lookup_insert.
        destruct (decide (j = i)) as [->|Hne].
        -- destruct st; case_decide; simplify_eq; try done; by rewrite Hc.
        -- case_decide; simplify_eq; done.
  - destruct w as [st i].
    destruct (inv_kind tr s i Hinv) as [Hi Hc|Hi Hc|fn Hi Hfn Hne Hc
                                       |fn c sg Hi Hfn Hcall Hc Hsg];
      rewrite Hc in Hw.
    + by destruct st.
    + done.
    + by destruct st.
    + destruct st, sg as [|o' [cl rn tl dl]]; cbn in Hw; try done;
        try (by destruct rn); try (by destruct tl); try (by destruct dl).
      * destruct fn as [|key' c'|]; simplify_eq. by rewrite Hc in Hsrc.
      * destruct fn as [|key' c'|]; [done| |done]. destruct cl; simplify_eq.
        rewrite Hc in Hsrc. cbn in Hsrc, Hcall. simplify_eq.
        apply (inv_finally tr s i key c o (Progress false rn tl dl));
          try done.
        intros st j. rewrite lookup_insert.
        destruct (decide (j = i)) as [->|Hne].
        -- destruct st; case_decide; simplify_eq; try done; by rewrite Hc.
        -- case_decide; simplify_eq; done.
  - destruct q as [st i].
    destruct (inv_kind tr s i Hinv) as [Hi Hc|Hi Hc|fn Hi Hfn Hne Hc
                                       |fn c' sg Hi Hfn Hcall Hc Hsg];
      rewrite Hc in Hq.
    + by destruct st.
    + done.
    + by destruct st.
    + destruct st, sg as [|o' [cl rn tl dl]]; cbn in Hq; try done;
        try (by destruct rn); try (by destruct tl); try (by destruct dl);
        try (by destruct fn); try (by destruct fn, cl).
      simplify_eq.
      apply (inv_settle tr s i fn c o); try done.
      intros st j. rewrite lookup_insert.
      destruct (decide (j = i)) as [->|Hne].
      * destruct st; case_decide; simplify_eq; try done; by rewrite Hc.
      * case_decide; simplify_eq; done.
Qed.

(** The invariant holds along every run. *)
Lemma run_inv tr s : run tr s → inv tr s.
Proof.
  induction 1 as [|tr s ev s' _ IH Hstep]; [apply inv_init|].
  by apply inv_step with s.
Qed.
(* ------------------------------------------------------------------ *)
(** ** The queue: progress *)

Lemma steps_app s evs1 s1 evs2 s2 :
  steps s evs1 s1 → steps s1 evs2 s2 → steps s (evs1 ++ evs2) s2.
Proof.
  induction 1 as [|s ev s' evs s'' Hstep _ IH]; [done|].
  intros H2. cbn. eapply steps_cons; [done|]. by apply IH.
Qed.

Lemma steps_one s ev s' : step s ev s' → steps s [ev] s'.
Proof. intros H. eapply steps_cons; [done|]. apply steps_nil. Qed.

Lemma run_steps tr s evs s' : run tr s → steps s evs s' → run (tr ++ evs) s'.
Proof.
  intros Hrun Hsteps. revert tr Hrun.
  induction Hsteps as [|s ev s' evs s'' Hstep _ IH]; intros tr Hrun.
  - by rewrite app_nil_r.
  - rewrite cons_middle, app_assoc. apply IH. by eapply run_step.
Qed.

(** A prefix of a run is a run. *)
Lemma run_prefix tr1 tr2 s : run (tr1 ++ tr2) s → ∃ s1, run tr1 s1.
Proof.
  revert s. induction tr2 as [|ev tr2 IH] using rev_ind; intros s Hrun.
  - rewrite app_nil_r in Hrun. by exists s.
  - rewrite app_assoc in Hrun. inversion Hrun as [Hnil|tr s0 ev' s' Hrun0 _ Heq].
    + by destruct (tr1 ++ tr2).
    + apply app_inj_tail in Heq as [-> ->]. by eapply IH.
Qed.

Lemma quiet_called evs :
  Forall (λ ev, quiet ev = true) evs → called evs = [].
Proof.
  induction 1 as [|ev evs Hev _ IH]; [done|]. by destruct ev.
Qed.

Lemma quiet_settled evs :
  Forall (λ ev, quiet ev = true) evs → settled evs = [].
Proof.
  induction 1 as [|ev evs Hev _ IH]; [done|]. by destruct ev.
Qed.

Lemma quiet_enqueued evs :
  Forall (λ ev, quiet ev = true) evs → enqueued evs = [].
Proof.
  induction 1 as [|ev evs Hev _ IH]; [done|]. by destruct ev.
Qed.

Lemma quiet_returned evs :
  Forall (λ ev, quiet ev = true) evs → returned evs = [].
Proof.
  induction 1 as [|ev evs Hev _ IH]; [done|]. by destruct ev.
Qed.

Lemma quiet_internal evs :
  Forall (λ ev, quiet ev = true) evs → Forall (λ ev, internal ev = true) evs.
Proof. intros H. eapply Forall_impl; [done|]. by intros []. Qed.

Lemma cells_insert (h : gmap pid cell) st0 i v st j :
  <[(st0, i) := v]> h !! (st, j)
  = if decide (j = i)
    then if decide (st = st0) then Some v else h !! (st, i)
    else h !! (st, j).
Proof. rewrite lookup_insert. repeat case_decide; by simplify_eq. Qed.

Lemma frame_refl i s : frame i s s.
Proof. by split_and!. Qed.

Lemma frame_trans i s1 s2 s3 : frame i s1 s2 → frame i s2 s3 → frame i s1 s3.
Proof.
  intros (H1 & ? & ?) (H2 & ? & ?). split_and!; [|congruence..].
  intros st j Hj. by rewrite H2, H1.
Qed.

(** The promises of a finished task can all settle, by steps of the
    promise machinery alone. *)
Lemma finish s i fn c o pr :
  call_of fn = Some c →
  (∀ st, heap s !! (st, i) = started_cell i fn c (Finished o pr) st) →
  progress_ok fn pr →
  ∃ evs s',
    steps s evs s'
    ∧ Forall (λ ev, quiet ev = true) evs
    ∧ (∀ st, heap s' !! (st, i)
             = started_cell i fn c
                 (Finished o (Progress true true true true)) st)
    ∧ frame i s s'.
Proof.
  intros Hc Hcells Hok. destruct pr as [cl rn tl dl].
  (* the wrapper's [finally] *)
  assert (∃ evs s1, steps s evs s1 ∧ Forall (λ ev, quiet ev = true) evs
            ∧ (∀ st, heap s1 !! (st, i)
                 = started_cell i fn c (Finished o (Progress true rn tl dl)) st)
            ∧ frame i s s1) as (evs1 & s1 & Hs1 & Hq1 & Hc1 & Hf1).
  { destruct fn as [c'|key c'|]; [| |done].
    - exists [], s. split_and!; [constructor|constructor| |apply frame_refl].
      intros st. rewrite Hcells. by destruct st.
    - destruct cl.
      { exists [], s. by split_and!; [constructor|constructor| |apply frame_refl]. }
      eexists [_], _. split_and!.
      + apply steps_one. eapply (step_finally s (AtWrap, i) (AtCall, i) key o).
        * by rewrite Hcells.
        * by rewrite Hcells.
      + by repeat constructor.
      + intros st. cbn [heap]. rewrite cells_insert, decide_True by done.
        case_decide; [by subst|]. rewrite Hcells. by destruct st.
      + split_and!; [|done..]. intros st j Hj. cbn [heap].
        rewrite cells_insert. by rewrite decide_False. }
  destruct Hok as (Hrn & Htl & Hdl). cbn in Hrn, Htl, Hdl.
  (* [run] adopts the outcome *)
  assert (∃ evs s2, steps s1 evs s2 ∧ Forall (λ ev, quiet ev = true) evs
            ∧ (∀ st, heap s2 !! (st, i)
                 = started_cell i fn c
                     (Finished o (Progress true true tl dl)) st)
            ∧ frame i s1 s2) as (evs2 & s2 & Hs2 & Hq2 & Hc2 & Hf2).
  { destruct rn.
    { exists [], s1. by split_and!; [constructor|constructor| |apply frame_refl]. }
    eexists [_], _. split_and!.
    + apply steps_one. eapply (step_adopt s1 (AtRun, i) (target fn i) o).
      * by rewrite Hc1.
      * destruct fn; cbn [target]; by rewrite Hc1.
    + by repeat constructor.
    + intros st. cbn [heap set_heap]. rewrite cells_insert, decide_True by done.
      case_decide; [by subst|]. rewrite Hc1. by destruct st.
    + split_and!; [|done..]. intros st j Hj. cbn [heap set_heap].
      rewrite cells_insert. by rewrite decide_False. }
  (* the next [tail] settles *)
  assert (∃ evs s3, steps s2 evs s3 ∧ Forall (λ ev, quiet ev = true) evs
            ∧ (∀ st, heap s3 !! (st, i)
                 = started_cell i fn c
                     (Finished o (Progress true true true dl)) st)
            ∧ frame i s2 s3) as (evs3 & s3 & Hs3 & Hq3 & Hc3 & Hf3).
  { destruct tl.
    { exists [], s2. by split_and!; [constructor|constructor| |apply frame_refl]. }
    eexists [_], _. split_and!.
    + apply steps_one. eapply (step_then_undefined s2 (AtTail, i) (AtRun, i)).
      * by rewrite Hc2.
      * eexists. by rewrite Hc2.
    + by repeat constructor.
    + intros st. cbn [heap set_heap]. rewrite cells_insert, decide_True by done.
      case_decide; [by subst|]. rewrite Hc2. by destruct st.
    + split_and!; [|done..]. intros st j Hj. cbn [heap set_heap].
      rewrite cells_insert. by rewrite decide_False. }
  (* the promise returned by [enqueue] adopts the outcome *)
  assert (∃ evs s4, steps s3 evs s4 ∧ Forall (λ ev, quiet ev = true) evs
            ∧ (∀ st, heap s4 !! (st, i)
                 = started_cell i fn c
                     (Finished o (Progress true true true true)) st)
            ∧ frame i s3 s4) as (evs4 & s4 & Hs4 & Hq4 & Hc4 & Hf4).
  { destruct dl.
    { exists [], s3. by split_and!; [constructor|constructor| |apply frame_refl]. }
    eexists [_], _. split_and!.
    + apply steps_one. eapply (step_adopt s3 (AtRet, i) (AtRun, i) o).
      * by rewrite Hc3.
      * by rewrite Hc3.
    + by repeat constructor.
    + intros st. cbn [heap set_heap]. rewrite cells_insert, decide_True by done.
      case_decide; [by subst|]. rewrite Hc3. by destruct st.
    + split_and!; [|done..]. intros st j Hj. cbn [heap set_heap].
      rewrite cells_insert. by rewrite decide_False. }
  exists (evs1 ++ evs2 ++ evs3 ++ evs4), s4. split_and!.
  - eapply steps_app; [done|]. eapply steps_app; [done|].
    by eapply steps_app.
  - by rewrite !Forall_app.
  - done.
  - eapply frame_trans; [done|]. eapply frame_trans; [done|].
    by eapply frame_trans.
Qed.
(** When nothing runs, the next task of the queue can be called, by steps
    of the promise machinery alone. *)
Lemma can_start tr s fn :
  inv tr s →
  length (settled tr) = length (called tr) →
  enqueued tr !! length (called tr) = Some fn →
  ∃ c evs s',
    call_of fn = Some c
    ∧ steps s (evs ++ [EvCall c]) s'
    ∧ Forall (λ ev, quiet ev = true) evs.
Proof.
  intros Hinv HFK Hfn.
  set (K := length (called tr)) in *.
  assert (∀ st, heap s !! (st, S K) = waiting_cell (S K) fn st) as Hwait.
  { apply (inv_waiting _ _ Hinv); [unfold K; lia|].
    by replace (S K - 1) with K by lia. }
  assert (∃ c, call_of fn = Some c) as [c Hc].
  { pose proof (inv_tasks _ _ Hinv fn (list_elem_of_lookup_2 _ _ _ Hfn)).
    destruct fn; by eauto. }
  assert (∃ evs s1, steps s evs s1 ∧ Forall (λ ev, quiet ev = true) evs
            ∧ is_settled s1 (AtTail, K)
            ∧ ∀ st, heap s1 !! (st, S K) = waiting_cell (S K) fn st)
    as (evs & s1 & Hsteps & Hq & Htail & Hwait1).
  { destruct (decide (K = 0)) as [HK|HK].
    - exists [], s. split_and!; [constructor|constructor| |done].
      rewrite HK. eexists. apply (inv_zero _ _ Hinv AtTail).
    - assert (is_Some (enqueued tr !! (K - 1))) as [fnK HfnK].
      { apply lookup_lt_is_Some. apply lookup_lt_Some in Hfn. lia. }
      destruct (inv_started _ _ Hinv K fnK)
        as (cK & sg & HcK & Hcells & Hsg); [unfold K in *; lia|done|].
      destruct sg as [|o pr]; [unfold stage_ok, K in *; lia|].
      destruct Hsg as (_ & Hok & _).
      destruct (finish s K fnK cK o pr HcK Hcells Hok)
        as (evs & s1 & Hsteps & Hq & Hfin & Hframe & _ & _).
      exists evs, s1. split_and!; [done..| |].
      + eexists. by rewrite Hfin.
      + intros st. rewrite Hframe by lia. apply Hwait. }
  assert (∀ st, heap s1 !! (st, S K)
                = waiting_cell (S K) fn st) as Hw by done.
  exists c, evs.
  destruct fn as [c'|key c'|]; [| |done]; cbn in Hc; injection Hc as ->.
  - eexists. split_and!; [done| |done].
    eapply steps_app; [done|]. apply steps_one.
    apply (step_start_submit s1 (S K) (AtTail, K) c).
    + rewrite Hw. cbn. by rewrite Nat.sub_0_r.
    + done.
    + by rewrite Hw.
  - eexists. split_and!; [done| |done].
    eapply steps_app; [done|]. apply steps_one.
    apply (step_start_guarded s1 (S K) (AtTail, K) key c).
    + rewrite Hw. cbn. by rewrite Nat.sub_0_r.
    + done.
    + by rewrite Hw.
    + by rewrite Hw.
Qed.

(** The promise returned by [enqueue] settles only with the outcome of
    its own task. *)
Lemma ret_outcome tr s i o :
  inv tr s → heap s !! (AtRet, i) = Some (Settled o) →
  ∃ fn c,
    1 ≤ i ∧ enqueued tr !! (i - 1) = Some fn ∧ call_of fn = Some c
    ∧ settled tr !! (i - 1) = Some (c, o).
Proof.
  intros Hinv Hret.
  destruct (inv_kind tr s i Hinv) as [Hi Hc|Hi Hc|fn Hi Hfn Hne Hc
                                     |fn c sg Hi Hfn Hcall Hc Hsg];
    rewrite Hc in Hret; try done.
  destruct sg as [|o' [cl rn tl []]]; cbn in Hret; simplify_eq.
  destruct Hsg as (Hs & _). exists fn, c. split_and!; [lia|done..].
Qed.

Lemma returned_lookup tr s k ret :
  inv tr s → returned tr !! k = Some ret → ret = (AtRet, S k).
Proof.
  intros Hinv. rewrite (inv_returned _ _ Hinv), list_lookup_fmap.
  destruct (seq 1 (count s) !! k) as [j|] eqn:Hj; [|done].
  apply lookup_seq in Hj as [-> _]. by intros [= <-].
Qed.

(** A task whose call has settled is finished. *)
Lemma settled_finished tr s k c o :
  inv tr s → settled tr !! k = Some (c, o) →
  ∃ fn pr,
    enqueued tr !! k = Some fn ∧ call_of fn = Some c
    ∧ 1 ≤ S k ≤ length (called tr)
    ∧ (∀ st, heap s !! (st, S k)
             = started_cell (S k) fn c (Finished o pr) st)
    ∧ progress_ok fn pr.
Proof.
  intros Hinv Hs.
  pose proof (lookup_lt_Some _ _ _ Hs) as Hk.
  pose proof (inv_settled_le _ _ Hinv) as HFK.
  pose proof (inv_called_le _ _ Hinv) as HKn.
  assert (is_Some (enqueued tr !! k)) as [fn Hfn].
  { apply lookup_lt_is_Some. rewrite <- (inv_count _ _ Hinv). lia. }
  destruct (inv_started _ _ Hinv (S k) fn) as (c' & sg & Hc' & Hcells & Hsg);
    [lia|by rewrite Nat.sub_1_r|].
  destruct sg as [|o' pr]; [unfold stage_ok in Hsg; lia|].
  destruct Hsg as (Hs' & Hok & _). rewrite Nat.sub_1_r in Hs'. cbn in Hs'.
  rewrite Hs in Hs'. simplify_eq.
  exists fn, pr. split_and!; [done..|lia|lia|done|done].
Qed.
End QueueFacts.

(* ------------------------------------------------------------------ *)
(** ** The queue: ordering, failures and the in-flight table *)

Section QueueClaims.
Import Queue QueueInv QueueDemo.

Lemma demo_run : run demo_trace demo_state.
Proof.
  unfold demo_trace, demo_state.
  set (s1 := (enqueue (Submit kick) init).2).
  set (s2 := (enqueueMoveOnce alice move s1).2).
  set (s3 := set_heap s2 _).
  apply (run_step [_; _; _; _] s3).
  2:{ apply (step_settle s3 (AtCall, 1) kick). by vm_compute. }
  apply (run_step [_; _; _] s2).
  2:{ apply (step_start_submit s2 1 (AtTail, 0) kick).
      - by vm_compute.
      - eexists. by vm_compute.
      - by vm_compute. }
  apply (run_step [_; _] s2).
  2:{ apply step_move_deduped. by vm_compute. }
  apply (run_step [_] s1).
  2:{ apply (step_move_enqueued s1 alice move). by vm_compute. }
  apply (run_step [] init); [apply run_init|].
  apply (step_enqueue init kick).
Qed.
(** At most one task runs: the calls made are the calls settled, or one
    more. *)
Lemma inv_one_running tr s :
  inv tr s →
  length (settled tr) ≤ length (called tr) ≤ S (length (settled tr)).
Proof.
  intros Hinv. split; [apply (inv_settled_le _ _ Hinv)|].
  destruct (decide (length (called tr) = 0)) as [->|HK]; [lia|].
  pose proof (inv_called_le _ _ Hinv) as HKn.
  assert (is_Some (enqueued tr !! (length (called tr) - 1))) as [fn Hfn].
  { apply lookup_lt_is_Some. rewrite <- (inv_count _ _ Hinv). lia. }
  destruct (inv_started _ _ Hinv (length (called tr)) fn)
    as (c & sg & Hc & Hcells & Hsg);
    [lia|done|].
  destruct sg as [|o pr]; [unfold stage_ok in Hsg; lia|].
  destruct Hsg as (Hs & _). apply lookup_lt_Some in Hs. lia.
Qed.

Lemma enqueued_app tr1 tr2 : enqueued (tr1 ++ tr2) = enqueued tr1 ++ enqueued tr2.
Proof. apply omap_app. Qed.

Lemma called_app tr1 tr2 : called (tr1 ++ tr2) = called tr1 ++ called tr2.
Proof. apply omap_app. Qed.

Lemma settled_app tr1 tr2 : settled (tr1 ++ tr2) = settled tr1 ++ settled tr2.
Proof. apply omap_app. Qed.

Lemma quiet_answers answer evs :
  Forall (λ ev, quiet ev = true) evs → Forall (answers answer) evs.
Proof. intros H. eapply Forall_impl; [done|]. by intros []. Qed.

Lemma drain_aux (answer : call → outcome) m : ∀ tr s,
  run tr s →
  2 * length (enqueued tr) - length (called tr) - length (settled tr) ≤ m →
  ∃ evs s',
    steps s evs s'
    ∧ Forall (answers answer) evs
    ∧ enqueued (tr ++ evs) = enqueued tr
    ∧ length (called (tr ++ evs)) = length (enqueued tr)
    ∧ length (settled (tr ++ evs)) = length (enqueued tr).
Proof.
  induction m as [|m IH]; intros tr s Hrun Hm;
    pose proof (run_inv _ _ Hrun) as Hinv;
    pose proof (inv_called_le _ _ Hinv) as HKn;
    pose proof (inv_settled_le _ _ Hinv) as HFK;
    rewrite (inv_count _ _ Hinv) in HKn.
  { exists [], s. rewrite app_nil_r.
    split_and!; [constructor|constructor|done|lia|lia]. }
  destruct (decide (length (settled tr) = length (called tr))) as [Heq|Hne].
  - destruct (decide (length (called tr) = length (enqueued tr))) as [Hall|Hw].
    { exists [], s. rewrite app_nil_r.
      split_and!; [constructor|constructor|done|lia|lia]. }
    assert (is_Some (enqueued tr !! length (called tr))) as [fn Hfn].
    { apply lookup_lt_is_Some. lia. }
    destruct (can_start tr s fn Hinv Heq Hfn)
      as (c & evs1 & s1 & Hc & Hsteps1 & Hq).
    pose proof (run_steps _ _ _ _ Hrun Hsteps1) as Hrun1.
    assert (enqueued (tr ++ evs1 ++ [EvCall c]) = enqueued tr) as He1.
    { by rewrite !enqueued_app, (quiet_enqueued _ Hq), !app_nil_r. }
    assert (called (tr ++ evs1 ++ [EvCall c]) = called tr ++ [c]) as Hc1.
    { by rewrite !called_app, (quiet_called _ Hq). }
    assert (settled (tr ++ evs1 ++ [EvCall c]) = settled tr) as Hs1.
    { by rewrite !settled_app, (quiet_settled _ Hq), !app_nil_r. }
    destruct (IH _ _ Hrun1) as (evs2 & s2 & Hsteps2 & Ha2 & He2 & Hc2 & Hs2).
    { rewrite He1, Hc1, Hs1, length_app. cbn. lia. }
    exists ((evs1 ++ [EvCall c]) ++ evs2), s2.
    rewrite app_assoc. rewrite He1 in He2, Hc2, Hs2.
    split_and!; [by eapply steps_app| |done..].
    rewrite !Forall_app. split_and!; [by apply quiet_answers| |done].
    by repeat constructor.
  - destruct (inv_one_running _ _ Hinv) as [_ HK1].
    assert (is_Some (enqueued tr !! (length (called tr) - 1))) as [fn Hfn].
    { apply lookup_lt_is_Some. lia. }
    destruct (inv_started _ _ Hinv (length (called tr)) fn)
      as (c & sg & Hc & Hcells & Hsg); [lia|done|].
    destruct sg as [|o pr].
    2:{ destruct Hsg as (Hs & _). apply lookup_lt_Some in Hs. lia. }
    assert (step s (EvSettle c (answer c))
              (set_heap s (<[(AtCall, length (called tr)) :=
                               Settled (answer c)]> (heap s)))) as Hstep.
    { apply step_settle. by rewrite Hcells. }
    pose proof (run_step _ _ _ _ Hrun Hstep) as Hrun1.
    destruct (IH _ _ Hrun1) as (evs2 & s2 & Hsteps2 & Ha2 & He2 & Hc2 & Hs2).
    { rewrite enqueued_snoc, called_snoc, settled_snoc, !app_nil_r,
        length_app. cbn. lia. }
    exists (EvSettle c (answer c) :: evs2), s2.
    rewrite cons_middle, app_assoc.
    rewrite enqueued_snoc, app_nil_r in He2, Hc2, Hs2.
    split_and!; [by eapply steps_cons| |done..].
    by constructor.
Qed.

Lemma demo_served_run : run demo_served demo_served_state.
Proof.
  unfold demo_served, demo_served_state.
  set (s4 := set_heap demo_state _).
  set (s5 := set_heap s4 _).
  set (s6 := set_heap s5 _).
  apply (run_steps _ demo_state); [apply demo_run|].
  apply (steps_cons _ _ s4).
  { apply (step_adopt demo_state (AtRun, 1) (AtCall, 1)); by vm_compute. }
  apply (steps_cons _ _ s5).
  { apply (step_then_undefined s4 (AtTail, 1) (AtRun, 1)).
    - by vm_compute.
    - eexists. by vm_compute. }
  apply (steps_cons _ _ s6).
  { apply (step_start_guarded s5 2 (AtTail, 1) (Js.toLowerCase alice) move).
    - by vm_compute.
    - eexists. by vm_compute.
    - by vm_compute.
    - by vm_compute. }
  apply steps_one.
  apply (step_settle s6 (AtCall, 2) move). by vm_compute.
Qed.

(** C1. Whatever the requests and the timing of the answers of the chain,
    the queue calls the tasks in the order in which [enqueue] received
    them, one at a time, and it calls all of them.  Along every run the
    calls made are those of a prefix of the enqueued tasks, the outcomes
    arrive in the order of the calls, at most one call is without outcome,
    and whenever a task is called every task enqueued before it has been
    called and has settled.  From the state of every run, when the
    submitter answers each call, with whatever outcome, the queue goes on
    without any further request until every enqueued task has been called,
    in the order of [enqueue], and has settled: no task is dropped. *)
Theorem enqueue_runs_tasks_in_order tr s :
  run tr s →
  Some <$> called tr = call_of <$> take (length (called tr)) (enqueued tr)
  ∧ (settled tr).*1 = take (length (settled tr)) (called tr)
  ∧ length (settled tr) ≤ length (called tr) ≤ S (length (settled tr))
  ∧ (∀ pre c post, tr = pre ++ EvCall c :: post →
       (settled pre).*1 = called pre
       ∧ ∃ fn, enqueued pre !! length (called pre) = Some fn
               ∧ call_of fn = Some c)
  ∧ ∀ answer : call → outcome,
      ∃ evs s',
        steps s evs s'
        ∧ Forall (answers answer) evs
        ∧ enqueued (tr ++ evs) = enqueued tr
        ∧ Some <$> called (tr ++ evs) = call_of <$> enqueued tr
        ∧ (settled (tr ++ evs)).*1 = called (tr ++ evs).
Proof.
  intros Hrun. pose proof (run_inv _ _ Hrun) as Hinv.
  split; [apply (inv_called _ _ Hinv)|].
  split; [apply (inv_settled _ _ Hinv)|].
  split; [apply (inv_one_running _ _ Hinv)|].
  split.
  - intros pre c post ->.
    rewrite cons_middle, app_assoc in Hrun.
    apply run_prefix in Hrun as [s1 Hrun1].
    inversion Hrun1 as [Hnil|tr0 s0 ev s1' Hrun0 Hstep Heq].
    { by destruct pre. }
    apply app_inj_tail in Heq as [-> ->].
    pose proof (run_inv _ _ Hrun0) as Hinv0.
    assert (length (settled pre) = length (called pre)
            ∧ ∃ fn, enqueued pre !! length (called pre) = Some fn
                    ∧ call_of fn = Some c) as [HFK Hfn].
    { inversion Hstep as [| | |? i src ? Hr Hsrc|? i src key ? Hr Hsrc| | | |];
        subst;
        destruct (start_next _ _ _ _ _ Hinv0 Hr Hsrc)
          as (_ & HFK & Hfn & _); (split; [done|]); by eexists. }
    split; [|done].
    rewrite (inv_settled _ _ Hinv0), HFK. by rewrite firstn_all.
  - intros answer.
    destruct (drain_aux answer _ tr s Hrun (Nat.le_refl _))
      as (evs & s' & Hsteps & Ha & He & Hc & Hs).
    pose proof (run_inv _ _ (run_steps _ _ _ _ Hrun Hsteps)) as Hinv'.
    exists evs, s'. split; [done|]. split; [done|]. split; [done|]. split.
    + rewrite (inv_called _ _ Hinv'), He, Hc. by rewrite firstn_all.
    + rewrite (inv_settled _ _ Hinv'), Hs, <- Hc. by rewrite firstn_all.
Qed.

(** The theorem on the run [demo_served], which has two calls: when the
    move is called, the kick enqueued before it has been called and has
    settled; and from the end of the run the queue settles the move. *)
Lemma enqueue_runs_tasks_in_order_witness :
  run demo_served demo_served_state
  ∧ called demo_served = [kick; move]
  ∧ called (take 7 demo_served) = [kick]
  ∧ (settled (take 7 demo_served)).*1 = called (take 7 demo_served)
  ∧ (∃ fn, enqueued (take 7 demo_served)
             !! length (called (take 7 demo_served)) = Some fn
           ∧ call_of fn = Some move)
  ∧ Some <$> called demo_served
    = call_of <$> take (length (called demo_served)) (enqueued demo_served)
  ∧ ∃ evs s',
      steps demo_served_state evs s'
      ∧ Forall (answers (λ _, Rejected failure)) evs
      ∧ Some <$> called (demo_served ++ evs) = call_of <$> enqueued demo_served
      ∧ (settled (demo_served ++ evs)).*1 = called (demo_served ++ evs).
Proof.
  split; [apply demo_served_run|].
  split; [vm_compute; reflexivity|].
  split; [vm_compute; reflexivity|].
  destruct (enqueue_runs_tasks_in_order demo_served demo_served_state
              demo_served_run) as (H1 & _ & _ & H4 & H5).
  destruct (H4 (take 7 demo_served) move (drop 8 demo_served) eq_refl)
    as [Hs Hfn].
  split; [exact Hs|]. split; [exact Hfn|]. split; [exact H1|].
  destruct (H5 (λ _, Rejected failure)) as (evs & s' & Hst & Ha & _ & Hc & Hse).
  exists evs, s'. exact (conj Hst (conj Ha (conj Hc Hse))).
Defined.

(** C6. A task that fails does not block the queue, and the promise that
    [enqueue] returns carries the outcome of its own task.  Whenever the
    tasks called so far have settled, with whatever outcomes, rejections
    included, the next enqueued task can be called by steps of the promise
    machinery alone; a promise returned by [enqueue] that has settled has
    the outcome of the task it was returned for; and once the call of a
    task has settled, the promise returned for it can settle with that
    outcome, again without any outside event. *)
Theorem enqueue_failure_does_not_block tr s :
  run tr s →
  (∀ fn, length (settled tr) = length (called tr) →
         enqueued tr !! length (called tr) = Some fn →
         ∃ c evs s',
           call_of fn = Some c
           ∧ steps s evs s'
           ∧ Forall (λ ev, internal ev = true) evs
           ∧ called (tr ++ evs) = called tr ++ [c]
           ∧ settled (tr ++ evs) = settled tr)
  ∧ (∀ k ret o, returned tr !! k = Some ret →
                heap s !! ret = Some (Settled o) →
                ∃ fn c, enqueued tr !! k = Some fn ∧ call_of fn = Some c
                        ∧ settled tr !! k = Some (c, o))
  ∧ (∀ k c o, settled tr !! k = Some (c, o) →
              ∃ ret evs s',
                returned tr !! k = Some ret
                ∧ steps s evs s'
                ∧ Forall (λ ev, internal ev = true) evs
                ∧ heap s' !! ret = Some (Settled o)).
Proof.
  intros Hrun. pose proof (run_inv _ _ Hrun) as Hinv. split_and!.
  - intros fn HFK Hfn.
    destruct (can_start tr s fn Hinv HFK Hfn) as (c & evs & s' & Hc & Hs & Hq).
    exists c, (evs ++ [EvCall c]), s'. split_and!; [done..| | |].
    + apply Forall_app. split; [by apply quiet_internal|by repeat constructor].
    + unfold called. rewrite !omap_app. fold (called tr) (called evs).
      by rewrite (quiet_called evs Hq).
    + unfold settled. rewrite !omap_app. fold (settled tr) (settled evs).
      by rewrite (quiet_settled evs Hq), !app_nil_r.
  - intros k ret o Hret Hsettled.
    rewrite (returned_lookup _ _ _ _ Hinv Hret) in Hsettled.
    destruct (ret_outcome _ _ _ _ Hinv Hsettled) as (fn & c & _ & Hfn & Hc & Hs).
    rewrite Nat.sub_1_r in Hfn, Hs. by exists fn, c.
  - intros k c o Hs.
    destruct (settled_finished _ _ _ _ _ Hinv Hs)
      as (fn & pr & Hfn & Hc & Hk & Hcells & Hok).
    destruct (finish s (S k) fn c o pr Hc Hcells Hok)
      as (evs & s' & Hsteps & Hq & Hfin & _).
    exists (AtRet, S k), evs, s'. split_and!.
    + rewrite (inv_returned _ _ Hinv), list_lookup_fmap.
      pose proof (inv_called_le _ _ Hinv).
      rewrite (proj2 (lookup_seq 1 (count s) k (S k))); [done|lia].
    + done.
    + by apply quiet_internal.
    + by rewrite Hfin.
Qed.

(** The theorem on the run [demo_trace]: the kick has failed, and the
    move enqueued behind it is called. *)
Lemma enqueue_failure_does_not_block_witness :
  run demo_trace demo_state
  ∧ settled demo_trace = [(kick, Rejected failure)]
  ∧ ∃ evs s',
      steps demo_state evs s'
      ∧ Forall (λ ev, internal ev = true) evs
      ∧ called (demo_trace ++ evs) = [kick; move].
Proof.
  split; [apply demo_run|]. split; [reflexivity|].
  destruct (enqueue_failure_does_not_block demo_trace demo_state demo_run)
    as (H & _).
  destruct (H (Guarded (Js.toLowerCase alice) move) eq_refl eq_refl)
    as (c & evs & s' & Hc & Hsteps & Hint & Hcalled & _).
  injection Hc as <-. by exists evs, s'.
Defined.
(** An entry of the in-flight table is the promise returned for a task
    that [enqueueMoveOnce] enqueued for that key and whose cleanup has not
    run; that promise is not settled. *)
Lemma inv_entry tr s key h :
  inv tr s → moveInFlight s !! key = Some h →
  ∃ k c,
    h = (AtRet, S k)
    ∧ returned tr !! k = Some h
    ∧ enqueued tr !! k = Some (Guarded key c)
    ∧ heap s !! h = Some (Adopt (AtRun, S k))
    ∧ (∀ o, settled tr !! k = Some (c, o) →
            heap s !! (AtWrap, S k) = Some (AwaitFinally (AtCall, S k) key)
            ∧ heap s !! (AtCall, S k) = Some (Settled o)).
Proof.
  intros Hinv Hh.
  destruct (inv_flight_entry _ _ Hinv _ _ Hh) as (i & -> & Hi).
  assert (returned tr !! (i - 1) = Some (AtRet, i) ↔ 1 ≤ i ≤ count s) as Hret.
  { rewrite (inv_returned _ _ Hinv), list_lookup_fmap. split.
    - destruct (seq 1 (count s) !! (i - 1)) as [j|] eqn:Hj; [|done].
      apply lookup_seq in Hj as [-> Hlt]. intros [= Heq]. lia.
    - intros Hle. rewrite (proj2 (lookup_seq 1 (count s) (i - 1) i)); [done|lia]. }
  destruct (inv_kind tr s i Hinv) as [Hz Hc|Hf Hc|fn Hw Hfn Hne Hc
                                     |fn c sg Hst Hfn Hcall Hc Hsg];
    rewrite !Hc in Hi.
  - by destruct Hi as [(? & ? & ?)|(? & ?)].
  - by destruct Hi as [(? & ? & ?)|(? & ?)].
  - destruct Hi as [(src & c & [= <- ->])|(src & ?)]; [|done].
    destruct i as [|k]; [lia|]. rewrite Nat.sub_1_r in *. cbn [pred] in *.
    exists k, c. split_and!; [done|by apply Hret; lia|done|by rewrite Hc|].
    intros o Hs. apply lookup_lt_Some in Hs.
    pose proof (inv_settled_le _ _ Hinv). lia.
  - destruct Hi as [(src & c' & Hr)|(src & Hwr)].
    { by apply started_run_not_then in Hr. }
    pose proof (inv_called_le _ _ Hinv) as HKn.
    destruct i as [|k]; [lia|]. rewrite Nat.sub_1_r in *. cbn [pred] in *.
    destruct fn as [|key' c'|]; [by destruct sg| |done].
    cbn in Hcall. injection Hcall as ->.
    exists k, c. destruct sg as [|o' [cl rn tl dl]]; cbn in Hwr.
    + injection Hwr as <- ->.
      split_and!; [done|by apply Hret; lia|done|by rewrite Hc|].
      intros o Hs. apply lookup_lt_Some in Hs. destruct Hsg. lia.
    + destruct cl; [done|]. injection Hwr as <- ->.
      destruct Hsg as (Hs & (Hrn & _ & Hdl) & _). cbn in Hrn, Hdl.
      destruct rn; [by specialize (Hrn eq_refl)|].
      destruct dl; [by specialize (Hdl eq_refl)|].
      split_and!; [done|by apply Hret; lia|done|by rewrite Hc|].
      intros o Ho. rewrite Nat.sub_1_r in Hs. cbn in Hs.
      rewrite Ho in Hs. injection Hs as ->. by rewrite !Hc.
Qed.

(** C2. The table of moves in flight holds, for an actor, the promise of
    the one task of the actor that awaits its cleanup, and nothing when
    there is none: the tasks enqueued for the actor are the cleanups done,
    plus one exactly when the actor has an entry.  With an entry a new
    move request is answered [deduped: true] with the promise of the entry
    and changes nothing, so no task is enqueued; without one it enqueues
    the wrapped task and stores the promise that [enqueue] returns.  The
    entry is the promise returned for a task enqueued for the actor, which
    has not settled; once the call of that task has settled, with success
    or failure, the cleanup can run, it deletes the entry, and the next
    request of the actor is not deduped. *)
Theorem enqueueMoveOnce_one_in_flight tr s player c :
  run tr s →
  guarded_enqueued (Js.toLowerCase player) tr
  = cleanups (Js.toLowerCase player) tr
    + match moveInFlight s !! Js.toLowerCase player with
      | Some _ => 1
      | None => 0
      end
  ∧ (∀ h, moveInFlight s !! Js.toLowerCase player = Some h →
          enqueueMoveOnce player c s = (OnceResult true h, s))
  ∧ (moveInFlight s !! Js.toLowerCase player = None →
     enqueueMoveOnce player c s
     = (OnceResult false (enqueue (Guarded (Js.toLowerCase player) c) s).1,
        State (heap (enqueue (Guarded (Js.toLowerCase player) c) s).2)
              (tail (enqueue (Guarded (Js.toLowerCase player) c) s).2)
              (count (enqueue (Guarded (Js.toLowerCase player) c) s).2)
              (<[Js.toLowerCase player :=
                   (enqueue (Guarded (Js.toLowerCase player) c) s).1]>
                 (moveInFlight s))))
  ∧ (∀ h, moveInFlight s !! Js.toLowerCase player = Some h →
          ∃ k c',
            returned tr !! k = Some h
            ∧ enqueued tr !! k = Some (Guarded (Js.toLowerCase player) c')
            ∧ (∀ o, heap s !! h ≠ Some (Settled o))
            ∧ (∀ o, settled tr !! k = Some (c', o) →
                    ∃ s', step s (EvCleanup (Js.toLowerCase player)) s'))
  ∧ (∀ s', step s (EvCleanup (Js.toLowerCase player)) s' →
           moveInFlight s' !! Js.toLowerCase player = None
           ∧ deduped (enqueueMoveOnce player c s').1 = false).
Proof.
  intros Hrun. pose proof (run_inv _ _ Hrun) as Hinv. split_and!.
  - apply (inv_flight_count _ _ Hinv).
  - intros h Hh. unfold enqueueMoveOnce. by rewrite Hh.
  - intros Hnone. unfold enqueueMoveOnce. by rewrite Hnone.
  - intros h Hh.
    destruct (inv_entry _ _ _ _ Hinv Hh)
      as (k & c' & -> & Hret & Hfn & Hpending & Hready).
    exists k, c'. split_and!; [done..| |].
    + intros o. by rewrite Hpending.
    + intros o Ho. destruct (Hready o Ho) as [Hw Hcall]. eexists.
      by eapply (step_finally s (AtWrap, S k) (AtCall, S k)).
  - intros s' Hstep.
    assert (moveInFlight s' !! Js.toLowerCase player = None) as Hgone.
    { inversion Hstep; subst. cbn. by rewrite lookup_delete_eq. }
    split; [done|]. unfold enqueueMoveOnce. by rewrite Hgone.
Qed.

(** The theorem on the run [demo_trace]: the move of [alice] is in the
    table, and asking again is deduped. *)
Lemma enqueueMoveOnce_one_in_flight_witness :
  run demo_trace demo_state
  ∧ enqueueMoveOnce alice move demo_state
    = (OnceResult true (AtRet, 2), demo_state).
Proof.
  split; [apply demo_run|].
  destruct (enqueueMoveOnce_one_in_flight demo_trace demo_state alice move
              demo_run) as (_ & H & _).
  apply H. by vm_compute.
Defined.

(** After [enqueueMoveOnce] the table holds the promise it returned. *)
Lemma enqueueMoveOnce_entry player c s :
  moveInFlight (enqueueMoveOnce player c s).2 !! Js.toLowerCase player
  = Some (promise (enqueueMoveOnce player c s).1).
Proof.
  unfold enqueueMoveOnce.
  destruct (moveInFlight s !! Js.toLowerCase player) eqn:Hh; cbn; [done|].
  by rewrite lookup_insert_eq.
Qed.

(** C10. The table is keyed by the lower-case form of the address.  For
    two addresses equal up to the case of their letters the requests look
    up the same entry; after a request for one of them, a request for the
    other is deduped with the same promise and enqueues nothing; and the
    cleanup of the one removes the entry of the other, whose next request
    is not deduped. *)
Theorem enqueueMoveOnce_keyed_by_lowercase p1 p2 c1 c2 s :
  Case.eq_nocase p1 p2 →
  moveInFlight s !! Js.toLowerCase p1 = moveInFlight s !! Js.toLowerCase p2
  ∧ enqueueMoveOnce p2 c2 (enqueueMoveOnce p1 c1 s).2
    = (OnceResult true (promise (enqueueMoveOnce p1 c1 s).1),
       (enqueueMoveOnce p1 c1 s).2)
  ∧ (∀ s', step s (EvCleanup (Js.toLowerCase p1)) s' →
           moveInFlight s' !! Js.toLowerCase p2 = None
           ∧ deduped (enqueueMoveOnce p2 c2 s').1 = false).
Proof.
  intros Heq%toLowerCase_eq.
  assert (∀ s0, enqueueMoveOnce p2 c2 s0
                = match moveInFlight s0 !! Js.toLowerCase p1 with
                  | Some h => (OnceResult true h, s0)
                  | None => enqueueMoveOnce p2 c2 s0
                  end) as Hp2.
  { intros s0. unfold enqueueMoveOnce. rewrite <- Heq.
    by destruct (moveInFlight s0 !! Js.toLowerCase p1). }
  split_and!.
  - by rewrite Heq.
  - by rewrite Hp2, enqueueMoveOnce_entry.
  - intros s' Hstep.
    assert (moveInFlight s' !! Js.toLowerCase p1 = None) as Hgone.
    { inversion Hstep; subst. cbn. by rewrite lookup_delete_eq. }
    rewrite <- Heq. split; [done|]. unfold enqueueMoveOnce.
    by rewrite <- Heq, Hgone.
Qed.

(** The theorem for the address of [alice] and its lower-case form. *)
Lemma enqueueMoveOnce_keyed_by_lowercase_witness :
  Case.eq_nocase alice (Js.toLowerCase alice)
  ∧ enqueueMoveOnce (Js.toLowerCase alice) move
      (enqueueMoveOnce alice move init).2
    = (OnceResult true (AtRet, 1), (enqueueMoveOnce alice move init).2).
Proof.
  assert (Case.eq_nocase alice (Js.toLowerCase alice)) as Heq.
  { apply toLowerCase_eq. reflexivity. }
  split; [exact Heq|].
  exact (proj1 (proj2 (enqueueMoveOnce_keyed_by_lowercase
                         alice (Js.toLowerCase alice) move move init Heq))).
Defined.

End QueueClaims.

(* ------------------------------------------------------------------ *)
(** ** The handlers *)

Section HandlerFacts.
Import Js Sig Verify Relayer Queue QueueInv QueueDemo Handlers.

(** A handler calls [enqueue] at most once. *)
Lemma checked_count recover thrown catch player digest sig submit s :
  (∀ s0, count (submit s0).2 ≤ S (count s0)) →
  count (checked recover thrown catch player digest sig submit s).2
  ≤ S (count s).
Proof.
  intros Hsubmit. unfold checked.
  destruct digest as [dig|]; [|cbn; lia].
  destruct (verifyBurnerSignature recover player dig sig) as [[]|];
    [apply Hsubmit|cbn; lia..].
Qed.

Lemma enqueueMoveOnce_count player c s :
  count (enqueueMoveOnce player c s).2 ≤ S (count s).
Proof.
  unfold enqueueMoveOnce.
  destruct (moveInFlight s !! toLowerCase player); cbn; lia.
Qed.




End HandlerFacts.

(* ------------------------------------------------------------------ *)
(** ** The handlers: a submission refused as out of order *)

Section SubmissionFailure.
Import Js Sig Verify Relayer Queue QueueInv QueueDemo Handlers HandlerDemo.
Import FailureDemo.

(** Once every enqueued task has been called the queue calls nothing. *)
Lemma no_call_when_served tr s c s' :
  run tr s → length (called tr) = length (enqueued tr) →
  ¬ step s (EvCall c) s'.
Proof.
  intros Hrun Hall Hstep. pose proof (run_inv _ _ Hrun) as Hinv.
  inversion Hstep as [| | |? i src ? Hr Hsrc|? i src key ? Hr Hsrc| | | |];
    subst;
    destruct (start_next _ _ _ _ _ Hinv Hr Hsrc) as (_ & _ & Hfn & _);
    apply lookup_lt_Some in Hfn; lia.
Qed.

(** A handler that enqueues the call [c] in the initial state, and the
    rejection of that call. *)
Lemma submit_rejected_once first c e :
  first init = (Await (enqueue (Submit c) init).1, (enqueue (Submit c) init).2) →
  rejected_once first c e.
Proof.
  intros Hfirst.
  set (s1 := (enqueue (Submit c) init).2).
  set (s2 := set_heap s1 (<[(AtRun, 1) := Adopt (AtCall, 1)]>
                           (<[(AtCall, 1) := Extern c]> (heap s1)))).
  set (s3 := set_heap s2 (<[(AtCall, 1) := Settled (Rejected e)]> (heap s2))).
  set (s4 := set_heap s3 (<[(AtRun, 1) := Settled (Rejected e)]> (heap s3))).
  set (s5 := set_heap s4 (<[(AtRet, 1) := Settled (Rejected e)]> (heap s4))).
  assert (step init (EvEnqueue (Submit c) (enqueue (Submit c) init).1) s1)
    as H1 by apply step_enqueue.
  assert (steps s1 [EvCall c; EvSettle c (Rejected e); EvJob; EvJob] s5) as Hs.
  { apply (steps_cons _ _ s2).
    { apply (step_start_submit s1 1 (AtTail, 0) c).
      - by vm_compute.
      - eexists. by vm_compute.
      - by vm_compute. }
    apply (steps_cons _ _ s3).
    { apply (step_settle s2 (AtCall, 1) c). by vm_compute. }
    apply (steps_cons _ _ s4).
    { apply (step_adopt s3 (AtRun, 1) (AtCall, 1)); by vm_compute. }
    apply steps_one.
    apply (step_adopt s4 (AtRet, 1) (AtRun, 1)); by vm_compute. }
  exists (enqueue (Submit c) init).1, (Submit c), s1, [EvJob; EvJob], s5.
  split; [exact Hfirst|]. split; [exact H1|]. split; [done|].
  split; [exact Hs|]. split; [by repeat constructor|].
  split; [by vm_compute|].
  intros c' s'.
  apply (no_call_when_served
           ([EvEnqueue (Submit c) (enqueue (Submit c) init).1]
            ++ [EvCall c; EvSettle c (Rejected e); EvJob; EvJob])).
  - apply (run_steps _ s1); [|exact Hs].
    apply (run_step [] init); [apply run_init|exact H1].
  - done.
Qed.

(** The same for the move handler, whose task runs inside the wrapper of
    [enqueueMoveOnce]: the [finally] block comes first. *)
Lemma guarded_rejected_once first player c e :
  first init
  = (Await (promise (enqueueMoveOnce player c init).1),
     (enqueueMoveOnce player c init).2) →
  rejected_once first c e.
Proof.
  intros Hfirst.
  set (key := toLowerCase player).
  set (s1 := (enqueueMoveOnce player c init).2).
  set (s2 := set_heap s1
               (<[(AtRun, 1) := Adopt (AtWrap, 1)]>
                  (<[(AtWrap, 1) := AwaitFinally (AtCall, 1) key]>
                     (<[(AtCall, 1) := Extern c]> (heap s1))))).
  set (s3 := set_heap s2 (<[(AtCall, 1) := Settled (Rejected e)]> (heap s2))).
  set (s4 := State (<[(AtWrap, 1) := Settled (Rejected e)]> (heap s3))
               (tail s3) (count s3) (delete key (moveInFlight s3))).
  set (s5 := set_heap s4 (<[(AtRun, 1) := Settled (Rejected e)]> (heap s4))).
  set (s6 := set_heap s5 (<[(AtRet, 1) := Settled (Rejected e)]> (heap s5))).
  assert (step init (EvEnqueue (Guarded key c) (AtRet, 1)) s1) as H1.
  { apply (step_move_enqueued init player c). reflexivity. }
  assert (steps s1 [EvCall c; EvSettle c (Rejected e); EvCleanup key;
                    EvJob; EvJob] s6) as Hs.
  { apply (steps_cons _ _ s2).
    { apply (step_start_guarded s1 1 (AtTail, 0) key c).
      - by vm_compute.
      - eexists. by vm_compute.
      - by vm_compute.
      - by vm_compute. }
    apply (steps_cons _ _ s3).
    { apply (step_settle s2 (AtCall, 1) c). by vm_compute. }
    apply (steps_cons _ _ s4).
    { apply (step_finally s3 (AtWrap, 1) (AtCall, 1) key); by vm_compute. }
    apply (steps_cons _ _ s5).
    { apply (step_adopt s4 (AtRun, 1) (AtWrap, 1)); by vm_compute. }
    apply steps_one.
    apply (step_adopt s5 (AtRet, 1) (AtRun, 1)); by vm_compute. }
  exists (AtRet, 1), (Guarded key c), s1, [EvCleanup key; EvJob; EvJob], s6.
  split; [exact Hfirst|]. split; [exact H1|]. split; [done|].
  split; [exact Hs|]. split; [by repeat constructor|].
  split; [by vm_compute|].
  intros c' s'.
  apply (no_call_when_served
           ([EvEnqueue (Guarded key c) (AtRet, 1)]
            ++ [EvCall c; EvSettle c (Rejected e); EvCleanup key;
                EvJob; EvJob])).
  - apply (run_steps _ s1); [|exact Hs].
    apply (run_step [] init); [apply run_init|exact H1].
  - done.
Qed.

(** C7. An ordering conflict is answered with 400 where 409 is due.  The
    error [nonceExpired] is the one ethers raises when the node refuses a
    transaction with "nonce too low", and its message says so.  A valid
    request to [/move], [/join], [/set-name] or [/kick] is enqueued and
    called once, the call is rejected with that error, the awaited
    promise is rejected with it and the queue calls nothing again; the
    handler then answers 400 with the short text of the error, [/move]
    included.  The [catch] block of [/move] does answer 409 when the very
    text "nonce too low" is the message it reads, but it reads the short
    message alone whenever there is one, whatever the message holds; the
    [catch] blocks of [/join], [/set-name] and [/kick] never answer 409.
    Nothing is retried: no handler enqueues more than one task for a
    request, and the queue never makes more calls than tasks were
    enqueued. *)
Theorem ordering_conflict_answered_400 :
  (∃ m, message nonceExpired = Some m
        ∧ includes (toLowerCase m) "nonce too low" = true)
  ∧ (∀ thrown,
       rejected_once (move recover cfg thrown moveRequest)
         (MoveFor alice 3 0 0 signed 300000) nonceExpired
       ∧ rejected_once (join recover cfg thrown joinRequest)
           (JoinFor alice 0 0 signed 250000) nonceExpired
       ∧ rejected_once (setName recover cfg thrown setNameRequest)
           (SetNameFor alice "0x74656a000000000000000000" 0 0 signed 250000)
           nonceExpired
       ∧ rejected_once (kick kickRequest) (KickInactive alice 200000)
           nonceExpired)
  ∧ moveSettled (Rejected nonceExpired)
    = Response 400
        (Failure "nonce has already been used" (Some "NONCE_EXPIRED"))
  ∧ joinSettled (Rejected nonceExpired)
    = Response 400
        (Failure "nonce has already been used" (Some "NONCE_EXPIRED"))
  ∧ setNameSettled (Rejected nonceExpired)
    = Response 400
        (Failure "nonce has already been used" (Some "NONCE_EXPIRED"))
  ∧ kickSettled (Rejected nonceExpired)
    = Response 400
        (Failure "nonce has already been used" (Some "NONCE_EXPIRED"))
  ∧ moveSettled (Rejected failure)
    = Response 409 (Failure "nonce too low" None)
  ∧ (∀ short r1 r2 m1 m2 a1 a2 c,
       short ≠ EmptyString →
       moveSettled (Rejected (JsError (Some short) r1 m1 a1 c))
       = moveSettled (Rejected (JsError (Some short) r2 m2 a2 c)))
  ∧ (∀ o, status (joinSettled o) ≠ 409%Z
          ∧ status (setNameSettled o) ≠ 409%Z
          ∧ status (kickSettled o) ≠ 409%Z)
  ∧ (∀ recover cfg thrown s,
       (∀ b, count (join recover cfg thrown b s).2 ≤ S (count s))
       ∧ (∀ b, count (setName recover cfg thrown b s).2 ≤ S (count s))
       ∧ (∀ b, count (move recover cfg thrown b s).2 ≤ S (count s))
       ∧ (∀ b, count (kick b s).2 ≤ S (count s)))
  ∧ (∀ tr s, run tr s → length (called tr) ≤ length (enqueued tr)).
Proof.
  split.
  { eexists. split; [reflexivity|]. vm_compute. reflexivity. }
  split.
  { intros thrown. split; [|split; [|split]].
    - apply (guarded_rejected_once _ alice). vm_compute. reflexivity.
    - apply submit_rejected_once. vm_compute. reflexivity.
    - apply submit_rejected_once. vm_compute. reflexivity.
    - apply submit_rejected_once. vm_compute. reflexivity. }
  split; [vm_compute; reflexivity|].
  split; [vm_compute; reflexivity|].
  split; [vm_compute; reflexivity|].
  split; [vm_compute; reflexivity|].
  split; [vm_compute; reflexivity|].
  split.
  { intros short r1 r2 m1 m2 a1 a2 c Hshort.
    unfold moveSettled, settledWith, moveCatch, normalizeErr.
    cbn [shortMessage reason message asString code orElse fst snd].
    destruct (String.eqb_spec short EmptyString) as [|_]; [done|].
    reflexivity. }
  split.
  { intros [[|h]|e]; by cbn. }
  split.
  { intros recover cfg thrown s. split; [|split; [|split]]; intros b.
    + unfold join. repeat case_match; try (cbn; lia).
      apply checked_count. intros s0. cbn. lia.
    + unfold setName. repeat case_match; try (cbn; lia).
      apply checked_count. intros s0. cbn. lia.
    + unfold move. repeat case_match; try (cbn; lia).
      apply checked_count. intros s0.
      match goal with
      | |- context [enqueueMoveOnce ?p ?c s0] =>
          pose proof (enqueueMoveOnce_count p c s0) as Hc;
          destruct (enqueueMoveOnce p c s0) as [r s1]
      end.
      cbn in *. by destruct (deduped r).
    + unfold kick. case_match; cbn; lia. }
  intros tr s Hrun. pose proof (run_inv _ _ Hrun) as Hinv.
  rewrite <- (inv_count _ _ Hinv). apply (inv_called_le _ _ Hinv).
Qed.

End SubmissionFailure.

(* ------------------------------------------------------------------ *)
(** ** The handlers: what reaches the queue *)

Section HandlerQueue.
Import Js Sig Verify Relayer Queue QueueInv QueueDemo Handlers HandlerDemo.

Lemma checked_await recover thrown catch player digest sig submit s p s' :
  checked recover thrown catch player digest sig submit s = (Await p, s') →
  ∃ dig, digest = Some dig
         ∧ verifyBurnerSignature recover player dig sig = Some true
         ∧ submit s = (Await p, s').
Proof.
  unfold checked. destruct digest as [dig|]; [|done].
  destruct (verifyBurnerSignature recover player dig sig) as [[]|] eqn:Hv;
    [|done..].
  intros Hs. by exists dig.
Qed.

Lemma checked_answer recover thrown catch player digest sig submit s r s' :
  checked recover thrown catch player digest sig submit s = (Answer r, s') →
  (s' = s ∧ (r = catch thrown ∨ r = Response 400 (Refusal "Bad burner sig")))
  ∨ ∃ dig, digest = Some dig
           ∧ verifyBurnerSignature recover player dig sig = Some true
           ∧ submit s = (Answer r, s').
Proof.
  unfold checked. destruct digest as [dig|].
  2:{ intros [= <- <-]. left. split; [done|by left]. }
  destruct (verifyBurnerSignature recover player dig sig) as [[]|] eqn:Hv.
  - intros Hs. right. by exists dig.
  - intros [= <- <-]. left. split; [done|by right].
  - intros [= <- <-]. left. split; [done|by left].
Qed.

Lemma moveCatch_status e :
  status (moveCatch e) = 400%Z ∨ status (moveCatch e) = 409%Z.
Proof.
  unfold moveCatch. destruct (isOrderingConflict _); [by right|by left].
Qed.

(** X1. [/join] hands a task to the queue only for a request whose
    signature it has verified: the player is an address, the nonce and the
    deadline are numbers, the signature starts with "0x" and recovers to
    the player over the join digest of exactly these values, and the task
    enqueued is the call [joinFor] with these values and a gas limit of
    250000. *)
Theorem join_enqueues_only_verified recover cfg thrown b s p s' :
  join recover cfg thrown b s = (Await p, s') →
  ∃ n dl dig,
    join_nonce b = inr n ∧ join_deadline b = inr dl
    ∧ isAddr (join_player b) = true
    ∧ startsWith (join_sig b) "0x" = true
    ∧ digestJoin cfg (join_player b) n dl = Some dig
    ∧ verifyBurnerSignature recover (join_player b) dig (join_sig b)
      = Some true
    ∧ (p, s')
      = enqueue (Submit (JoinFor (join_player b) n dl (join_sig b) 250000)) s.
Proof.
  unfold join.
  destruct (isAddr (join_player b)) eqn:Ha; [|done].
  destruct (startsWith (join_sig b) "0x") eqn:Hs; [|done].
  destruct (join_nonce b) as [e|n]; [done|].
  destruct (join_deadline b) as [e|dl]; [done|].
  intros (dig & Hd & Hv & Hsub)%checked_await.
  exists n, dl, dig. split_and!; try done.
  by destruct (enqueue _ s) as [p0 s0]; injection Hsub as <- <-.
Qed.

Lemma join_enqueues_only_verified_witness :
  join recover cfg failure joinRequest init
  = (Await (AtRet, 1),
     (enqueue (Submit (JoinFor alice 0 0 signed 250000)) init).2)
  ∧ ∃ n dl dig,
      join_nonce joinRequest = inr n ∧ join_deadline joinRequest = inr dl
      ∧ digestJoin cfg (join_player joinRequest) n dl = Some dig
      ∧ verifyBurnerSignature recover (join_player joinRequest) dig
          (join_sig joinRequest) = Some true.
Proof.
  assert (join recover cfg failure joinRequest init
          = (Await (AtRet, 1),
             (enqueue (Submit (JoinFor alice 0 0 signed 250000)) init).2))
    as Hjoin by (vm_compute; reflexivity).
  split; [exact Hjoin|].
  destruct (join_enqueues_only_verified recover cfg failure joinRequest init
              _ _ Hjoin)
    as (n & dl & dig & Hn & Hdl & _ & _ & Hd & Hv & _).
  exists n, dl, dig. split_and!; [exact Hn|exact Hdl|exact Hd|exact Hv].
Defined.

(** X2. [/set-name] hands a task to the queue only for a request whose
    name payload has the shape of 12 bytes in hexadecimal ("0x" and 26
    characters in all) and whose signature it has verified over the
    set-name digest of exactly the values it submits. *)
Theorem setName_enqueues_only_verified recover cfg thrown b s p s' :
  setName recover cfg thrown b s = (Await p, s') →
  ∃ n dl dig,
    name_nonce b = inr n ∧ name_deadline b = inr dl
    ∧ isAddr (name_player b) = true
    ∧ startsWith (name_nameBytes12 b) "0x" = true
    ∧ String.length (name_nameBytes12 b) = 26
    ∧ digestSetName cfg (name_player b) (name_nameBytes12 b) n dl = Some dig
    ∧ verifyBurnerSignature recover (name_player b) dig (name_sig b)
      = Some true
    ∧ (p, s')
      = enqueue (Submit (SetNameFor (name_player b) (name_nameBytes12 b)
                           n dl (name_sig b) 250000)) s.
Proof.
  unfold setName.
  destruct (isAddr (name_player b)) eqn:Ha; [|done].
  destruct (startsWith (name_nameBytes12 b) "0x") eqn:Hs; [|done].
  destruct (String.length (name_nameBytes12 b) =? 26) eqn:Hl; [|done].
  apply Nat.eqb_eq in Hl.
  destruct (name_nonce b) as [e|n]; [done|].
  destruct (name_deadline b) as [e|dl]; [done|].
  intros (dig & Hd & Hv & Hsub)%checked_await.
  exists n, dl, dig. split_and!; try done.
  by destruct (enqueue _ s) as [p0 s0]; injection Hsub as <- <-.
Qed.

Lemma setName_enqueues_only_verified_witness :
  setName recover cfg failure setNameRequest init
  = (Await (AtRet, 1),
     (enqueue (Submit (SetNameFor alice "0x74656a000000000000000000" 0 0
                         signed 250000)) init).2)
  ∧ ∃ n dl dig,
      digestSetName cfg (name_player setNameRequest)
        (name_nameBytes12 setNameRequest) n dl = Some dig
      ∧ verifyBurnerSignature recover (name_player setNameRequest) dig
          (name_sig setNameRequest) = Some true.
Proof.
  assert (setName recover cfg failure setNameRequest init
          = (Await (AtRet, 1),
             (enqueue (Submit (SetNameFor alice "0x74656a000000000000000000"
                                 0 0 signed 250000)) init).2))
    as Hset by (vm_compute; reflexivity).
  split; [exact Hset|].
  destruct (setName_enqueues_only_verified recover cfg failure setNameRequest
              init _ _ Hset)
    as (n & dl & dig & _ & _ & _ & _ & _ & Hd & Hv & _).
  exists n, dl, dig. split; [exact Hd|exact Hv].
Defined.

(** X3. [/move] awaits a promise of the queue only for a request with a
    direction among 0, 1, 2, 3 and a signature verified over the move
    digest of exactly the values it submits, and only when the player has
    no move in flight; the task is then enqueued by [enqueueMoveOnce] with
    a gas limit of 300000. *)
Theorem move_enqueues_only_verified recover cfg thrown b s p s' :
  move recover cfg thrown b s = (Await p, s') →
  ∃ d n dl dig,
    move_dir b = Some d ∧ (0 ≤ d ≤ 3)%Z
    ∧ move_nonce b = inr n ∧ move_deadline b = inr dl
    ∧ isAddr (move_player b) = true
    ∧ digestMove cfg (move_player b) d n dl = Some dig
    ∧ verifyBurnerSignature recover (move_player b) dig (move_sig b)
      = Some true
    ∧ moveInFlight s !! toLowerCase (move_player b) = None
    ∧ enqueueMoveOnce (move_player b)
        (MoveFor (move_player b) d n dl (move_sig b) 300000) s
      = (OnceResult false p, s').
Proof.
  unfold move.
  destruct (isAddr (move_player b)) eqn:Ha; [|done].
  destruct (move_dir b) as [d|] eqn:Hdir; [|done].
  destruct (isDir (Some d)) eqn:Hd; [|done].
  cbn [isDir] in Hd. apply andb_true_iff in Hd as [Hd0 Hd3].
  apply Z.leb_le in Hd0, Hd3.
  destruct (move_nonce b) as [e|n]; [done|].
  destruct (move_deadline b) as [e|dl]; [done|].
  intros (dig & Hdig & Hv & Hsub)%checked_await.
  exists d, n, dl, dig. cbn [default negb] in *.
  split_and!; try done.
  - unfold enqueueMoveOnce in Hsub.
    by destruct (moveInFlight s !! toLowerCase (move_player b)).
  - destruct (enqueueMoveOnce _ _ s) as [[dd pp] s0]. cbn in Hsub.
    destruct dd; [done|]. by injection Hsub as <- <-.
Qed.

Lemma move_enqueues_only_verified_witness :
  move recover cfg failure moveRequest init
  = (Await (AtRet, 1),
     (enqueueMoveOnce alice (MoveFor alice 3 0 0 signed 300000) init).2)
  ∧ ∃ d n dl dig,
      move_dir moveRequest = Some d ∧ (0 ≤ d ≤ 3)%Z
      ∧ digestMove cfg (move_player moveRequest) d n dl = Some dig
      ∧ verifyBurnerSignature recover (move_player moveRequest) dig
          (move_sig moveRequest) = Some true.
Proof.
  assert (move recover cfg failure moveRequest init
          = (Await (AtRet, 1),
             (enqueueMoveOnce alice (MoveFor alice 3 0 0 signed 300000)
                init).2))
    as Hmove by (vm_compute; reflexivity).
  split; [exact Hmove|].
  destruct (move_enqueues_only_verified recover cfg failure moveRequest init
              _ _ Hmove)
    as (d & n & dl & dig & Hdir & Hd & _ & _ & _ & Hdig & Hv & _).
  exists d, n, dl, dig. exact (conj Hdir (conj Hd (conj Hdig Hv))).
Defined.

(** X4. A [/move] request answered with [deduped: true] is a verified
    request of a player with a move in flight; it reaches neither the
    queue nor the table. *)
Theorem move_deduped_only_in_flight recover cfg thrown b s s' :
  move recover cfg thrown b s = (Answer (Response 200 Deduped), s') →
  s' = s
  ∧ is_Some (moveInFlight s !! toLowerCase (move_player b))
  ∧ ∃ d n dl dig,
      move_dir b = Some d ∧ move_nonce b = inr n ∧ move_deadline b = inr dl
      ∧ digestMove cfg (move_player b) d n dl = Some dig
      ∧ verifyBurnerSignature recover (move_player b) dig (move_sig b)
        = Some true.
Proof.
  unfold move.
  destruct (isAddr (move_player b)) eqn:Ha; [|done].
  destruct (move_dir b) as [d|] eqn:Hdir; [|done].
  destruct (isDir (Some d)) eqn:Hd; [|done].
  destruct (move_nonce b) as [e|n].
  { cbn [negb]. intros [= He]. by destruct (moveCatch_status e) as [H|H];
      rewrite He in H. }
  destruct (move_deadline b) as [e|dl].
  { cbn [negb]. intros [= He]. by destruct (moveCatch_status e) as [H|H];
      rewrite He in H. }
  cbn [negb default].
  intros [[-> [He|He]]|(dig & Hdig & Hv & Hsub)]%checked_answer.
  - by destruct (moveCatch_status thrown) as [H|H]; rewrite <- He in H.
  - done.
  - unfold enqueueMoveOnce in Hsub.
    destruct (moveInFlight s !! toLowerCase (move_player b)) as [h|] eqn:Hh;
      cbn in Hsub; [|done].
    injection Hsub as <-. split_and!; [done|by eexists|].
    by exists d, n, dl, dig.
Qed.

Lemma move_deduped_only_in_flight_witness :
  move recover cfg failure moveRequest
    (move recover cfg failure moveRequest init).2
  = (Answer (Response 200 Deduped),
     (move recover cfg failure moveRequest init).2)
  ∧ is_Some (moveInFlight (move recover cfg failure moveRequest init).2
             !! toLowerCase (move_player moveRequest)).
Proof.
  assert (move recover cfg failure moveRequest
            (move recover cfg failure moveRequest init).2
          = (Answer (Response 200 Deduped),
             (move recover cfg failure moveRequest init).2))
    as Hmove by (vm_compute; reflexivity).
  split; [exact Hmove|].
  exact (proj1 (proj2 (move_deduped_only_in_flight recover cfg failure
                         moveRequest _ _ Hmove))).
Defined.

(** X5. A handler that answers without awaiting leaves the queue and the
    table as they were.  Such an answer of [/join], [/set-name] and
    [/kick] has status 400; one of [/move] has status 400 or 409, or is
    the answer [deduped: true]. *)
Theorem handlers_answer_without_queue recover cfg thrown s :
  (∀ b r s', join recover cfg thrown b s = (Answer r, s') →
             s' = s ∧ status r = 400%Z)
  ∧ (∀ b r s', setName recover cfg thrown b s = (Answer r, s') →
               s' = s ∧ status r = 400%Z)
  ∧ (∀ b r s', move recover cfg thrown b s = (Answer r, s') →
               s' = s
               ∧ (status r = 400%Z ∨ status r = 409%Z
                  ∨ r = Response 200 Deduped))
  ∧ (∀ b r s', kick b s = (Answer r, s') →
               s' = s ∧ r = Response 400 (Refusal "Bad player address")).
Proof.
  split_and!; intros b r s'.
  - unfold join.
    destruct (isAddr (join_player b)); [|by intros [= <- <-]].
    destruct (startsWith (join_sig b) "0x"); [|by intros [= <- <-]].
    destruct (join_nonce b) as [e|n]; [by intros [= <- <-]|].
    destruct (join_deadline b) as [e|dl]; [by intros [= <- <-]|].
    cbn [negb].
    intros [[-> [->| ->]]|(dig & _ & _ & Hsub)]%checked_answer; [done..|].
    by destruct (enqueue _ s).
  - unfold setName.
    destruct (isAddr (name_player b)); [|by intros [= <- <-]].
    destruct (startsWith (name_nameBytes12 b) "0x"); [|by intros [= <- <-]].
    destruct (String.length (name_nameBytes12 b) =? 26);
      [|by intros [= <- <-]].
    destruct (name_nonce b) as [e|n]; [by intros [= <- <-]|].
    destruct (name_deadline b) as [e|dl]; [by intros [= <- <-]|].
    cbn [negb orb].
    intros [[-> [->| ->]]|(dig & _ & _ & Hsub)]%checked_answer; [done..|].
    by destruct (enqueue _ s).
  - unfold move.
    destruct (isAddr (move_player b)); [|intros [= <- <-]; by auto].
    destruct (isDir (move_dir b)); [|intros [= <- <-]; by auto].
    destruct (move_nonce b) as [e|n].
    { intros [= <- <-]. split; [done|].
      destruct (moveCatch_status e); by auto. }
    destruct (move_deadline b) as [e|dl].
    { intros [= <- <-]. split; [done|].
      destruct (moveCatch_status e); by auto. }
    cbn [negb].
    intros [[-> [->| ->]]|(dig & _ & _ & Hsub)]%checked_answer.
    + split; [done|]. destruct (moveCatch_status thrown); by auto.
    + by auto.
    + unfold enqueueMoveOnce in Hsub.
      destruct (moveInFlight s !! toLowerCase (move_player b)); cbn in Hsub.
      * injection Hsub as <- <-. by auto.
      * done.
  - unfold kick. destruct (isAddr (kick_player b)); cbn [negb].
    + by destruct (enqueue _ s).
    + by intros [= <- <-].
Qed.

End HandlerQueue.

(* ------------------------------------------------------------------ *)
(** ** The queue: further properties *)

Section QueueMore.
Import Js Verify Queue QueueInv QueueDemo.

(** X6. A settled promise keeps its outcome: no step of a run changes a
    promise that has settled. *)
Theorem settled_promise_is_final tr s ev s' p o :
  run tr s → step s ev s' →
  heap s !! p = Some (Settled o) → heap s' !! p = Some (Settled o).
Proof.
  intros Hrun Hstep Hp. pose proof (run_inv _ _ Hrun) as Hinv.
  assert (∀ fn, heap (enqueue fn s).2 !! p = Some (Settled o)) as Henq.
  { intros fn. destruct p as [st j]. rewrite (enqueue_heap tr) by done.
    case_decide as Hj; [|done]. subst j.
    by rewrite (inv_fresh _ _ Hinv) in Hp by lia. }
  destruct Hstep as [s c|s player c existing Hd|s player c q s' Hm
    |s i src c Hrun' Hsrc Hcall|s i src key c Hrun' Hsrc Hcall Hwrap
    |s q src Hq Hsrc|s q src o' Hq Hsrc|s w src key o' Hw Hsrc|s q c o' Hq];
    cbn [heap set_heap]; try done;
    rewrite ?lookup_insert_ne; try done; try (intros <-; congruence).
  unfold enqueueMoveOnce in Hm.
  destruct (moveInFlight s !! toLowerCase player); [done|].
  injection Hm as <- <-. apply Henq.
Qed.

Lemma settled_promise_is_final_witness :
  run demo_trace demo_state
  ∧ heap demo_state !! (AtTail, 0) = Some (Settled (Fulfilled Undefined))
  ∧ heap (enqueue (Submit kick) demo_state).2 !! (AtTail, 0)
    = Some (Settled (Fulfilled Undefined)).
Proof.
  assert (heap demo_state !! (AtTail, 0)
          = Some (Settled (Fulfilled Undefined))) as H0
    by (vm_compute; reflexivity).
  split; [apply demo_run|]. split; [exact H0|].
  exact (settled_promise_is_final demo_trace demo_state _ _ _ _
           demo_run (step_enqueue demo_state kick) H0).
Defined.

(** X7. While a call is without outcome the queue calls nothing: an
    external submission that never settles stalls every later task. *)
Theorem pending_call_stalls_queue tr s c s' :
  run tr s →
  length (called tr) = S (length (settled tr)) →
  ¬ step s (EvCall c) s'.
Proof.
  intros Hrun HKF Hstep. pose proof (run_inv _ _ Hrun) as Hinv.
  inversion Hstep as [| | |? i src ? Hr Hsrc|? i src key ? Hr Hsrc| | | |];
    subst;
    destruct (start_next _ _ _ _ _ Hinv Hr Hsrc) as (_ & HFK & _); lia.
Qed.

Lemma demo_running_run : run (take 4 demo_trace) demo_running.
Proof.
  unfold demo_running.
  set (s1 := (enqueue (Submit kick) init).2).
  set (s2 := (enqueueMoveOnce alice move s1).2).
  apply (run_step [_; _; _] s2).
  2:{ apply (step_start_submit s2 1 (AtTail, 0) kick).
      - by vm_compute.
      - eexists. by vm_compute.
      - by vm_compute. }
  apply (run_step [_; _] s2).
  2:{ apply step_move_deduped. by vm_compute. }
  apply (run_step [_] s1).
  2:{ apply (step_move_enqueued s1 alice move). by vm_compute. }
  apply (run_step [] init); [apply run_init|].
  apply (step_enqueue init kick).
Qed.

Lemma pending_call_stalls_queue_witness :
  run (take 4 demo_trace) demo_running
  ∧ ∀ s', ¬ step demo_running (EvCall move) s'.
Proof.
  split; [apply demo_running_run|].
  intros s'.
  exact (pending_call_stalls_queue _ _ move s' demo_running_run eq_refl).
Defined.

(** X8. The queue drains: when the submitter answers every call, with
    whatever outcome, every task enqueued so far is called and settles,
    without any further request. *)
Theorem queue_drains tr s (answer : call → outcome) :
  run tr s →
  ∃ evs s',
    steps s evs s'
    ∧ Forall (answers answer) evs
    ∧ enqueued (tr ++ evs) = enqueued tr
    ∧ Some <$> called (tr ++ evs) = call_of <$> enqueued tr
    ∧ (settled (tr ++ evs)).*1 = called (tr ++ evs).
Proof.
  intros Hrun.
  destruct (drain_aux answer _ tr s Hrun (Nat.le_refl _))
    as (evs & s' & Hsteps & Ha & He & Hc & Hs).
  exists evs, s'. split_and!; [done..| |].
  - pose proof (run_inv _ _ (run_steps _ _ _ _ Hrun Hsteps)) as Hinv'.
    rewrite (inv_called _ _ Hinv'), He, Hc. by rewrite firstn_all.
  - pose proof (run_inv _ _ (run_steps _ _ _ _ Hrun Hsteps)) as Hinv'.
    rewrite (inv_settled _ _ Hinv'), Hs, <- Hc. by rewrite firstn_all.
Qed.

Lemma queue_drains_witness :
  run demo_trace demo_state
  ∧ ∃ evs s',
      steps demo_state evs s'
      ∧ Forall (answers (λ _, Rejected failure)) evs
      ∧ called (demo_trace ++ evs) = [kick; move].
Proof.
  split; [apply demo_run|].
  destruct (queue_drains demo_trace demo_state (λ _, Rejected failure)
              demo_run) as (evs & s' & Hsteps & Ha & _ & Hc & _).
  exists evs, s'. split; [exact Hsteps|]. split; [exact Ha|].
  apply (inj (fmap Some)). exact Hc.
Defined.

(** X9. A deduped request receives the promise of an earlier move request
    of the same player, lower-cased, and that promise has not settled. *)
Theorem deduped_request_shares_handle tr s pre player c h post :
  run tr s →
  tr = pre ++ EvDeduped player c h :: post →
  ∃ k c',
    returned pre !! k = Some h
    ∧ enqueued pre !! k = Some (Guarded (toLowerCase player) c')
    ∧ ∃ s0, run pre s0 ∧ heap s0 !! h = Some (Adopt (AtRun, S k)).
Proof.
  intros Hrun ->. rewrite cons_middle, app_assoc in Hrun.
  apply run_prefix in Hrun as [s1 Hrun1].
  inversion Hrun1 as [Hnil|tr0 s0 ev s1' Hrun0 Hstep Heq].
  { by destruct pre. }
  apply app_inj_tail in Heq as [-> ->].
  pose proof (run_inv _ _ Hrun0) as Hinv0.
  inversion Hstep as [|? ? ? ? Hd| | | | | | |]; subst.
  unfold enqueueMoveOnce in Hd.
  destruct (moveInFlight s1 !! toLowerCase player) as [h'|] eqn:Hh; [|done].
  injection Hd as ->.
  destruct (inv_entry _ _ _ _ Hinv0 Hh) as (k & c' & -> & Hret & Hfn & Hp & _).
  exists k, c'. split_and!; [done..|]. by exists s1.
Qed.

Lemma deduped_request_shares_handle_witness :
  run demo_trace demo_state
  ∧ ∃ k c',
      returned (take 2 demo_trace) !! k = Some (AtRet, 2)
      ∧ enqueued (take 2 demo_trace) !! k
        = Some (Guarded (toLowerCase (toLowerCase alice)) c').
Proof.
  split; [apply demo_run|].
  destruct (deduped_request_shares_handle demo_trace demo_state
              (take 2 demo_trace) (toLowerCase alice) move (AtRet, 2)
              (drop 3 demo_trace) demo_run eq_refl)
    as (k & c' & Hret & Hfn & _).
  exists k, c'. split; [exact Hret|exact Hfn].
Defined.

(** X10. Every call of [enqueue] returns a promise of its own: the
    promises returned along a run are pairwise different, and each is a
    promise of the heap. *)
Theorem enqueue_returns_fresh_promises tr s :
  run tr s →
  NoDup (returned tr) ∧ Forall (λ ret, is_Some (heap s !! ret)) (returned tr).
Proof.
  intros Hrun. pose proof (run_inv _ _ Hrun) as Hinv.
  rewrite (inv_returned _ _ Hinv). split.
  - apply NoDup_fmap_2; [by intros ?? [=]|apply NoDup_seq].
  - apply Forall_fmap, Forall_forall. intros i [Hi1 Hi2]%elem_of_seq. cbn.
    destruct (inv_kind tr s i Hinv) as [Hz Hc|Hf Hc|fn Hw Hfn Hne Hc
                                       |fn c sg Hst Hfn Hcall Hc Hsg];
      [lia|lia|rewrite Hc..]; [done|].
    by destruct sg.
Qed.

Lemma enqueue_returns_fresh_promises_witness :
  run demo_trace demo_state ∧ NoDup (returned demo_trace).
Proof.
  split; [apply demo_run|].
  exact (proj1 (enqueue_returns_fresh_promises _ _ demo_run)).
Defined.

Lemma lower_ascii_idemp a : lower_ascii (lower_ascii a) = lower_ascii a.
Proof. by destruct a as [[] [] [] [] [] [] [] []]. Qed.

Lemma toLowerCase_idemp x : toLowerCase (toLowerCase x) = toLowerCase x.
Proof.
  induction x as [|a x IH]; [done|]. cbn. by rewrite lower_ascii_idemp, IH.
Qed.

(** X11. The keys of the table of moves in flight are in lower case. *)
Theorem moveInFlight_keys_lowercase tr s key h :
  run tr s → moveInFlight s !! key = Some h → toLowerCase key = key.
Proof.
  intros Hrun. revert key h.
  induction Hrun as [|tr s ev s' _ IH Hstep]; intros key h; [done|].
  destruct Hstep as [s c|s player c existing Hd|s player c q s' Hm
    |s i src c Hrun' Hsrc Hcall|s i src k c Hrun' Hsrc Hcall Hwrap
    |s q src Hq Hsrc|s q src o' Hq Hsrc|s w src k o' Hw Hsrc|s q c o' Hq];
    cbn [moveInFlight set_heap enqueue snd]; try apply IH.
  - unfold enqueueMoveOnce in Hm.
    destruct (moveInFlight s !! toLowerCase player); [done|].
    injection Hm as <- <-. cbn. rewrite lookup_insert.
    case_decide as Hk; [|apply IH]. intros _. subst key.
    apply toLowerCase_idemp.
  - rewrite lookup_delete. case_decide; [done|apply IH].
Qed.

Lemma moveInFlight_keys_lowercase_witness :
  run demo_trace demo_state
  ∧ moveInFlight demo_state !! toLowerCase alice = Some (AtRet, 2)
  ∧ toLowerCase (toLowerCase alice) = toLowerCase alice.
Proof.
  assert (moveInFlight demo_state !! toLowerCase alice = Some (AtRet, 2))
    as Hk by (vm_compute; reflexivity).
  split; [apply demo_run|]. split; [exact Hk|].
  exact (moveInFlight_keys_lowercase _ _ _ _ demo_run Hk).
Defined.

End QueueMore.

(* ------------------------------------------------------------------ *)
(** ** The rate limiter: further properties *)

Section RateLimitMore.
Import RateLimit.

(** The decision of [rateLimit] and the entry it writes depend only on
    the entry of the origin. *)
Lemma rateLimit_local ip now (h1 h2 : gmap string entry) :
  h1 !! ip = h2 !! ip →
  (rateLimit ip now h1).1 = (rateLimit ip now h2).1
  ∧ (rateLimit ip now h1).2 !! ip = (rateLimit ip now h2).2 !! ip.
Proof.
  intros Heq. unfold rateLimit. rewrite <- Heq.
  destruct (h1 !! ip) as [e|]; repeat case_match; cbn;
    by rewrite !lookup_insert_eq.
Qed.

Lemma serve_independent ip reqs : ∀ (h1 h2 : gmap string entry),
  h1 !! ip = h2 !! ip →
  decisions_of ip (serve reqs h1)
  = (serve (filter (λ r, r.1 = ip) reqs) h2).*2.
Proof.
  induction reqs as [|[ip' now] reqs IH]; intros h1 h2 Heq; [done|].
  rewrite serve_cons, decisions_of_cons, filter_cons. cbn [fst].
  destruct (decide (ip' = ip)) as [->|Hne].
  - rewrite serve_cons. cbn [fmap list_fmap snd].
    destruct (rateLimit_local ip now h1 h2 Heq) as [Hd Hh].
    rewrite Hd. f_equal. by apply IH.
  - apply IH. by rewrite rateLimit_other.
Qed.

(** X12. The origins do not interfere: the decisions taken for the
    requests of one origin are those the limiter would take if the other
    origins had sent nothing. *)
Theorem rateLimit_origins_independent
    (ip : string) (reqs : list (string * Z)) (hits : gmap string entry) :
  decisions_of ip (serve reqs hits)
  = (serve (filter (λ r, r.1 = ip) reqs) hits).*2.
Proof. by apply serve_independent. Qed.

Lemma in_window_over (c : Z) (n : nat) :
  (max ≤ c)%Z → in_window c n = replicate n (Reject 429).
Proof.
  revert c. induction n as [|n IH]; intros c Hc; [done|].
  cbn [in_window replicate].
  destruct (Z.gtb_spec (c + 1) max) as [_|Hle]; [|lia].
  f_equal. apply IH. lia.
Qed.

Lemma in_window_quota (k n : nat) (c : Z) :
  (c + Z.of_nat k = max)%Z →
  in_window c n
  = replicate (n `min` k) Next ++ replicate (n - k) (Reject 429).
Proof.
  revert k c. induction n as [|n IH]; intros k c Hk; [done|].
  destruct k as [|k].
  - rewrite in_window_over by lia. by rewrite Nat.min_0_r, Nat.sub_0_r.
  - cbn [in_window].
    destruct (Z.gtb_spec (c + 1) max) as [Hgt|_]; [lia|].
    rewrite (IH k (c + 1)%Z) by lia. done.
Qed.

(** X13. The quota of a window, for any number of requests.  When a
    request opens a window for its origin (no entry, or an expired one)
    and [n] further requests of that origin arrive inside the window,
    then, whatever the other origins do, the opening request and the
    first 24 of the others are let through and all the rest are answered
    429: never more than 25 requests pass in one window, and a rejection
    is never followed by a pass inside the same window. *)
Theorem rateLimit_window_quota
    (ip : string) (t1 : Z) (ts : list Z)
    (reqs : list (string * Z)) (hits : gmap string entry) :
  match hits !! ip with Some e => (resetAt e < t1)%Z | None => True end →
  times_of ip reqs = t1 :: ts →
  Forall (λ t, (t ≤ t1 + 2000)%Z) ts →
  decisions_of ip (serve reqs hits)
  = Next :: replicate (length ts `min` 24) Next
      ++ replicate (length ts - 24) (Reject 429).
Proof.
  intros Hopen Htimes Hall.
  revert hits Hopen Htimes.
  induction reqs as [|[ip' now] reqs IH]; intros hits Hopen Htimes; [done|].
  rewrite serve_cons, decisions_of_cons. rewrite times_of_cons in Htimes.
  destruct (decide (ip' = ip)) as [->|Hne].
  - injection Htimes as -> Hts.
    rewrite (rateLimit_opens _ _ _ Hopen). cbn [fst snd]. f_equal.
    rewrite (serve_inside ip 1 (t1 + windowMs));
      [|by rewrite lookup_insert_eq|by rewrite Hts].
    rewrite Hts. by apply in_window_quota.
  - apply IH; [|done]. by rewrite rateLimit_other.
Qed.

Lemma rateLimit_window_quota_witness :
  decisions_of "10.0.0.1"
    (serve (("10.0.0.1", 1000%Z) :: ("10.0.0.2", 1001%Z)
            :: replicate 30 ("10.0.0.1", 3000%Z)) ∅)
  = Next :: replicate 24 Next ++ replicate 6 (Reject 429).
Proof.
  apply (rateLimit_window_quota "10.0.0.1" 1000 (replicate 30 3000%Z)).
  - rewrite lookup_empty. exact I.
  - reflexivity.
  - apply Forall_replicate. lia.
Defined.

End RateLimitMore.
(* ------------------------------------------------------------------ *)
(** ** Error messages *)

Section ErrorFacts.
Import Js Verify Case Handlers.

Lemma orElse_cases a b :
  (orElse a b = b ∧ (a = None ∨ a = Some EmptyString))
  ∨ (a = Some (orElse a b) ∧ orElse a b ≠ EmptyString).
Proof.
  destruct a as [s|]; cbn; [|by auto].
  destruct (String.eqb_spec s EmptyString) as [->|Hne]; by auto.
Qed.

(** X14. [normalizeErr] reports the code of the error and, as message,
    the first of [shortMessage], [reason] and [message] that is a
    non-empty string, and [String(e)] when there is none; the message is
    empty only when [String(e)] is. *)
Theorem normalizeErr_first_truthy (e : jsError) :
  (normalizeErr e).1 = code e
  ∧ (∀ s, shortMessage e = Some s → s ≠ EmptyString →
          (normalizeErr e).2 = s)
  ∧ (∀ s, (shortMessage e = None ∨ shortMessage e = Some EmptyString) →
          reason e = Some s → s ≠ EmptyString → (normalizeErr e).2 = s)
  ∧ (∀ s, (shortMessage e = None ∨ shortMessage e = Some EmptyString) →
          (reason e = None ∨ reason e = Some EmptyString) →
          message e = Some s → s ≠ EmptyString → (normalizeErr e).2 = s)
  ∧ ((shortMessage e = None ∨ shortMessage e = Some EmptyString) →
     (reason e = None ∨ reason e = Some EmptyString) →
     (message e = None ∨ message e = Some EmptyString) →
     (normalizeErr e).2 = asString e)
  ∧ ((normalizeErr e).2 = EmptyString → asString e = EmptyString).
Proof.
  unfold normalizeErr. cbn [fst snd].
  assert (∀ s b, s ≠ EmptyString → orElse (Some s) b = s) as Hsome.
  { intros s b Hs. cbn. by destruct (String.eqb_spec s EmptyString). }
  assert (∀ a b, a = None ∨ a = Some EmptyString → orElse a b = b) as Hnone.
  { by intros a b [-> | ->]. }
  split_and!.
  - done.
  - intros s -> Hs. by apply Hsome.
  - intros s H1 -> Hs. rewrite (Hnone _ _ H1). by apply Hsome.
  - intros s H1 H2 -> Hs. rewrite (Hnone _ _ H1), (Hnone _ _ H2).
    by apply Hsome.
  - intros H1 H2 H3. by rewrite (Hnone _ _ H1), (Hnone _ _ H2), (Hnone _ _ H3).
  - intros Hmsg.
    destruct (orElse_cases (shortMessage e)
                (orElse (reason e) (orElse (message e) (asString e))))
      as [[H1 _]|[_ H1]]; [|done].
    rewrite H1 in Hmsg.
    destruct (orElse_cases (reason e) (orElse (message e) (asString e)))
      as [[H2 _]|[_ H2]]; [|done].
    rewrite H2 in Hmsg.
    destruct (orElse_cases (message e) (asString e)) as [[H3 _]|[_ H3]];
      [|done].
    by rewrite H3 in Hmsg.
Qed.

Lemma orElse_self msg : orElse (Some msg) EmptyString = msg.
Proof. cbn. by destruct (String.eqb_spec msg EmptyString). Qed.

(** X15. The test of [/move] for an ordering conflict does not depend on
    the case of the letters of the message: two errors whose messages are
    equal up to case get the same status. *)
Theorem isOrderingConflict_ignores_case (e1 e2 : jsError) :
  eq_nocase (normalizeErr e1).2 (normalizeErr e2).2 →
  isOrderingConflict (normalizeErr e1).2 = isOrderingConflict (normalizeErr e2).2
  ∧ status (moveCatch e1) = status (moveCatch e2).
Proof.
  intros Heq%toLowerCase_eq.
  assert (isOrderingConflict (normalizeErr e1).2
          = isOrderingConflict (normalizeErr e2).2) as Hsame.
  { unfold isOrderingConflict. by rewrite !orElse_self, Heq. }
  split; [done|]. unfold moveCatch. rewrite Hsame.
  by destruct (isOrderingConflict (normalizeErr e2).2).
Qed.

Lemma isOrderingConflict_ignores_case_witness :
  status (moveCatch (JsError None None (Some "Nonce Too Low") "Error" None))
  = status (moveCatch (JsError None None (Some "nonce too low") "Error" None)).
Proof.
  refine (proj2 (isOrderingConflict_ignores_case
                   (JsError None None (Some "Nonce Too Low") "Error" None)
                   (JsError None None (Some "nonce too low") "Error" None) _)).
  apply toLowerCase_eq. reflexivity.
Defined.

End ErrorFacts.

(* ------------------------------------------------------------------ *)
(** ** Player names: further properties *)

Section NameMore.
Import Js Wf Names Handlers.
Local Open Scope Z_scope.

Lemma hexDigits_length bytes :
  String.length (hexDigits bytes) = (2 * length bytes)%nat.
Proof. induction bytes as [|b bytes IH]; [done|]. cbn. lia. Qed.

(** X16. The payload that [toBytes12FromName] makes of a name is "0x"
    followed by 24 hexadecimal digits, 26 characters in all: it has the
    shape that the [/set-name] handler asks of [nameBytes12]. *)
Theorem toBytes12FromName_shape (name : list Z) (b12 : string) :
  Forall code_unit name →
  toBytes12FromName (Some name) = Some b12 →
  startsWith b12 "0x" = true
  ∧ String.length b12 = 26%nat
  ∧ negb (startsWith b12 "0x") || negb (String.length b12 =? 26)%nat = false.
Proof.
  intros Hname Hb.
  assert (∃ bytes, toUtf8Bytes (take 12 (trim name)) = Some bytes)
    as [bytes Henc].
  { unfold toBytes12FromName in Hb.
    change (default [] (Some name)) with name in Hb.
    destruct (toUtf8Bytes (take 12 (trim name))) as [bytes|]; [|done].
    by exists bytes. }
  assert (b12 = hexlify (take 12 (bytes ++ replicate 12 0))) as ->.
  { rewrite (toBytes12FromName_bytes name bytes Hname Henc) in Hb.
    congruence. }
  assert (String.length (hexlify (take 12 (bytes ++ replicate 12 0)))
          = 26%nat) as Hlen.
  { unfold hexlify. cbn [String.length]. rewrite hexDigits_length.
    rewrite length_take, length_app, length_replicate. lia. }
  assert (startsWith (hexlify (take 12 (bytes ++ replicate 12 0))) "0x"
          = true) as Hpre.
  { unfold startsWith, hexlify. cbn [String.prefix].
    destruct (ascii_dec "0" "0"); [|done]. destruct (ascii_dec "x" "x"); [|done].
    by destruct (hexDigits _). }
  split_and!; [exact Hpre|exact Hlen|].
  rewrite Hpre, Hlen. reflexivity.
Qed.

Lemma toBytes12FromName_shape_witness :
  toBytes12FromName (Some [116; 101; 106])
  = Some "0x74656a000000000000000000"%string
  ∧ String.length "0x74656a000000000000000000" = 26%nat.
Proof.
  assert (toBytes12FromName (Some [116; 101; 106])
          = Some "0x74656a000000000000000000"%string) as Hb
    by (vm_compute; reflexivity).
  split; [exact Hb|].
  refine (proj1 (proj2 (toBytes12FromName_shape [116; 101; 106] _ _ Hb))).
  repeat constructor; unfold code_unit; lia.
Defined.

Lemma toUtf8Bytes_lone_high (p : list Z) (hi : Z) :
  Forall code_unit p → code_unit hi →
  wellFormed p = true → isHighSurrogate hi = true →
  toUtf8Bytes (p ++ [hi]) = None.
Proof.
  intros Hp Hhi Hwf Hhigh. revert Hp Hwf.
  induction p as [p IH] using (induction_ltof1 _ (@length Z)).
  unfold ltof in IH. intros Hp Hwf.
  destruct p as [|c p].
  - cbn. rewrite (high_test hi Hhi), Hhigh.
    destruct (Z.ltb_spec hi 0x80); [unfold isHighSurrogate in Hhigh; lia|].
    destruct (Z.ltb_spec hi 0x800); [unfold isHighSurrogate in Hhigh; lia|].
    done.
  - apply Forall_cons in Hp as [Hc Hp]. cbn [wellFormed] in Hwf.
    cbn [app toUtf8Bytes]. rewrite (high_test c Hc).
    destruct (isHighSurrogate c) eqn:Hch.
    + destruct p as [|c2 p]; [done|].
      apply andb_true_iff in Hwf as [Hlow Hwf].
      apply Forall_cons in Hp as [Hc2 Hp].
      destruct (Z.ltb_spec c 0x80); [unfold isHighSurrogate in Hch; lia|].
      destruct (Z.ltb_spec c 0x800); [unfold isHighSurrogate in Hch; lia|].
      cbn [app]. rewrite (low_test c2 Hc2), Hlow.
      rewrite (IH p); [done|cbn; lia|done|done].
    + apply andb_true_iff in Hwf as [_ Hwf].
      rewrite (IH p); [|cbn; lia|done|done].
      by repeat case_match.
Qed.

(** X17. A name cut in the middle of a surrogate pair makes
    [toBytes12FromName] throw: when the name, which has no white space
    around it, holds eleven well-formed code units followed by a surrogate
    pair, the twelve code units kept end with a lone high surrogate and
    [toUtf8Bytes] refuses them. *)
Theorem toBytes12FromName_splits_pair (p rest : list Z) (hi lo : Z) :
  Forall code_unit p → code_unit hi →
  length p = 11%nat →
  wellFormed p = true → isHighSurrogate hi = true →
  trim (p ++ hi :: lo :: rest) = p ++ hi :: lo :: rest →
  toBytes12FromName (Some (p ++ hi :: lo :: rest)) = None.
Proof.
  intros Hp Hhi Hlen Hwf Hhigh Htrim. unfold toBytes12FromName.
  change (default [] (Some (p ++ hi :: lo :: rest)))
    with (p ++ hi :: lo :: rest).
  rewrite Htrim.
  replace (take 12 (p ++ hi :: lo :: rest)) with (p ++ [hi]).
  - by rewrite toUtf8Bytes_lone_high.
  - rewrite take_app, Hlen, take_ge by lia.
    replace (12 - 11)%nat with 1%nat by lia. done.
Qed.

Lemma toBytes12FromName_splits_pair_witness :
  toBytes12FromName
    (Some (replicate 11 97 ++ 0xd83d :: 0xde00 :: [])) = None.
Proof.
  apply (toBytes12FromName_splits_pair (replicate 11 97) [] 0xd83d 0xde00).
  - apply Forall_replicate. unfold code_unit. lia.
  - unfold code_unit. lia.
  - reflexivity.
  - reflexivity.
  - reflexivity.
  - vm_compute. reflexivity.
Defined.

End NameMore.

(* ------------------------------------------------------------------ *)
(** ** The [Arena] contract *)

Section ArenaFacts.
Import Arena ArenaGame.
Local Open Scope Z_scope.

Lemma uint8_small v : 0 ≤ v < 256 → uint8 v = v.
Proof. intros H. unfold uint8. by rewrite Z.mod_small. Qed.

Lemma tileId_on_map x y :
  0 ≤ x < MAP_SIZE → 0 ≤ y < MAP_SIZE → _tileId x y = x + y * 64.
Proof.
  unfold _tileId, uint16, MAP_SIZE. intros Hx Hy.
  rewrite (Z.mod_small x), (Z.mod_small y), (Z.mod_small 64) by lia.
  rewrite Z.mod_small; lia.
Qed.

Lemma applyDir_on_map x y dir :
  0 ≤ x < MAP_SIZE → 0 ≤ y < MAP_SIZE →
  0 ≤ (_applyDir x y dir).1 < MAP_SIZE
  ∧ 0 ≤ (_applyDir x y dir).2 < MAP_SIZE
  ∧ Z.abs ((_applyDir x y dir).1 - x) + Z.abs ((_applyDir x y dir).2 - y) ≤ 1.
Proof.
  unfold _applyDir, MAP_SIZE. intros Hx Hy.
  repeat case_match; cbn [fst snd];
    repeat match goal with
           | H : (_ =? _) = true |- _ => apply Z.eqb_eq in H
           | H : (_ =? _) = false |- _ => apply Z.eqb_neq in H
           end;
    rewrite ?uint8_small by lia; lia.
Qed.

Lemma spawn_on_map ctx blk occ player salt :
  0 ≤ (_spawn ctx blk occ player salt).1 < MAP_SIZE
  ∧ 0 ≤ (_spawn ctx blk occ player salt).2 < MAP_SIZE.
Proof.
  assert (∀ h, 0 ≤ uint8 (h mod MAP_SIZE) < MAP_SIZE) as Hcoord.
  { intros h. unfold MAP_SIZE.
    pose proof (Z.mod_pos_bound h 64 ltac:(lia)).
    rewrite uint8_small; lia. }
  unfold _spawn.
  set (seed := hashToUint _).
  assert (∀ n i xy, probe occ seed i n = Some xy →
            0 ≤ xy.1 < MAP_SIZE ∧ 0 ≤ xy.2 < MAP_SIZE) as Hprobe.
  { induction n as [|n IH]; intros i xy; [done|]. cbn [probe].
    case_match; [|apply IH]. intros [= <-]. cbn [fst snd]. by split. }
  destruct (probe occ seed 0 40) as [xy|] eqn:Hp.
  - by apply (Hprobe _ _ _ Hp).
  - cbn [fst snd]. by split.
Qed.

End ArenaFacts.
Section ArenaInvariant.
Import Arena ArenaGame.
Local Open Scope Z_scope.

Variable recover : list Z → list Z → option Z.
Variable ctx : context.

Lemma playerOf_setPlayer a p st b :
  playerOf (setPlayer a p st) b = if decide (a = b) then p else playerOf st b.
Proof.
  unfold playerOf, setPlayer. cbn [players]. rewrite lookup_insert.
  by case_decide.
Qed.

Lemma occupants_clear st t :
  occupants_stand st → occupants_stand (setOccupant t 0 st).
Proof.
  intros Hst tile a. unfold setOccupant. cbn [tileOccupant].
  rewrite lookup_insert. case_decide; [by intros [= <-]|]. apply Hst.
Qed.

Lemma occupants_change st a p :
  occupants_stand st → free st a → occupants_stand (setPlayer a p st).
Proof.
  intros Hst Hfree tile b Hb Hb0. rewrite playerOf_setPlayer.
  case_decide as Hab; [|by apply Hst]. subst b. by destruct (Hfree tile).
Qed.

Lemma occupants_place st a p t :
  occupants_stand st → free st a →
  joined p = true → _tileId (x p) (y p) = t →
  occupants_stand (setOccupant t a (setPlayer a p st)).
Proof.
  intros Hst Hfree Hj Ht tile b. unfold setOccupant. cbn [tileOccupant].
  rewrite lookup_insert. case_decide as Htile.
  - intros [= <-] _. subst tile.
    change (playerOf _ a) with (playerOf (setPlayer a p st) a).
    rewrite playerOf_setPlayer, decide_True by done. done.
  - intros Hb Hb0.
    change (playerOf _ b) with (playerOf (setPlayer a p st) b).
    rewrite playerOf_setPlayer. case_decide as Hab; [|by apply Hst].
    subst b. by destruct (Hfree tile).
Qed.

Lemma free_after_clear st a :
  occupants_stand st → a ≠ 0 →
  free (setOccupant (_tileId (x (playerOf st a)) (y (playerOf st a))) 0 st) a.
Proof.
  intros Hst Ha tile. unfold setOccupant. cbn [tileOccupant].
  rewrite lookup_insert. case_decide as Htile; [by intros [= <-]|].
  intros Hb. by destruct (Hst tile a Hb Ha) as [_ Ht].
Qed.

Lemma free_setOccupant st a t b :
  free st a → b ≠ a → free (setOccupant t b st) a.
Proof.
  intros Hfree Hba tile. unfold setOccupant. cbn [tileOccupant].
  rewrite lookup_insert. case_decide; [by intros [= ->]|apply Hfree].
Qed.

Lemma free_not_joined st a :
  occupants_stand st → a ≠ 0 → joined (playerOf st a) = false → free st a.
Proof.
  intros Hst Ha Hj tile Hb. destruct (Hst tile a Hb Ha) as [Hj' _].
  by rewrite Hj in Hj'.
Qed.

Lemma on_map_playerOf st a : players_on_map st → on_map (playerOf st a).
Proof.
  intros Hmap. unfold playerOf.
  destruct (players st !! a) as [p|] eqn:Hp; [by apply (Hmap a)|].
  unfold on_map, MAP_SIZE. cbn. lia.
Qed.

Lemma players_on_map_set st a p :
  players_on_map st → on_map p → players_on_map (setPlayer a p st).
Proof.
  intros Hmap Hp b q. unfold setPlayer. cbn [players].
  rewrite lookup_insert. case_decide; [by intros [= <-]|apply Hmap].
Qed.

(** States that differ in names, nonces and times only. *)
Lemma wf_same st st' :
  players st' = players st → tileOccupant st' = tileOccupant st →
  wf st → wf st'.
Proof.
  intros Hp Ho (Hmap & Hst & H0).
  assert (∀ a, playerOf st' a = playerOf st a) as Hpo.
  { intros a. unfold playerOf. by rewrite Hp. }
  split_and!.
  - intros a p. rewrite Hp. apply Hmap.
  - intros tile a. rewrite Ho, Hpo. apply Hst.
  - by rewrite Hpo.
Qed.

Lemma useNonce_frame player nonce st st' :
  _useNonce player nonce st = inr st' →
  players st' = players st ∧ tileOccupant st' = tileOccupant st
  ∧ nameOf st' = nameOf st ∧ lastActiveAt st' = lastActiveAt st
  ∧ nonceOf st player = nonce
  ∧ nonces st' = <[player := nonce + 1]> (nonces st).
Proof.
  unfold _useNonce.
  destruct (Z.eqb_spec (nonceOf st player) nonce) as [Hn|]; [|done].
  cbn [negb]. case_match; [done|]. by intros [= <-].
Qed.

Lemma verify_signer signer digest sig :
  _verify recover signer digest sig = inr tt → signer ≠ 0.
Proof.
  unfold _verify. destruct (recover _ sig) as [r|]; [|done].
  destruct (Z.eqb_spec r 0); [done|].
  destruct (Z.eqb_spec r signer); [|done]. by subst.
Qed.

Lemma joinIfNeeded_wf blk player st :
  player ≠ 0 → wf st → wf (_joinIfNeeded ctx blk player st).
Proof.
  intros Hp (Hmap & Hst & H0). unfold _joinIfNeeded.
  destruct (joined (playerOf st player)) eqn:Hj; [done|].
  pose proof (spawn_on_map ctx blk (tileOccupant st) player 0) as Hs.
  destruct (_spawn ctx blk (tileOccupant st) player 0) as [sx sy].
  cbn [fst snd] in Hs.
  apply (wf_same (setOccupant (_tileId sx sy) player
                    (setPlayer player (mkPlayer sx sy 0 true) st)));
    [done..|].
  split_and!.
  - by apply players_on_map_set.
  - apply occupants_place; [done| |done..]. by apply free_not_joined.
  - change (playerOf _ 0)
      with (playerOf (setPlayer player (mkPlayer sx sy 0 true) st) 0).
    rewrite playerOf_setPlayer. by case_decide.
Qed.

Lemma move_wf blk player dir st st' :
  player ≠ 0 → wf st →
  _move ctx blk player dir st = inr st' → wf st'.
Proof.
  intros Hp (Hmap & Hst & H0). unfold _move.
  case_match; [done|].
  destruct (joined (playerOf st player)) eqn:Hj; [|done]. cbn [negb].
  pose proof (on_map_playerOf st player Hmap) as [Hx Hy].
  pose proof (applyDir_on_map (x (playerOf st player)) (y (playerOf st player))
                dir Hx Hy) as (Htx & Hty & _).
  destruct (_applyDir (x (playerOf st player)) (y (playerOf st player)) dir)
    as [toX toY]. cbn [fst snd] in Htx, Hty.
  case_match; [by intros [= <-]|].
  set (fromTile := _tileId (x (playerOf st player)) (y (playerOf st player))).
  set (toTile := _tileId toX toY).
  set (st1 := setOccupant fromTile 0 st).
  assert (∀ a, playerOf st1 a = playerOf st a) as Hpo1 by done.
  assert (occupants_stand st1) as Hst1 by by apply occupants_clear.
  assert (free st1 player) as Hfree1 by by apply free_after_clear.
  assert (players_on_map st1) as Hmap1 by done.
  set (victim := occupant (tileOccupant st1) toTile).
  (* what the kill leaves *)
  assert (∀ st2,
            players_on_map st2 → occupants_stand st2 → free st2 player →
            joined (playerOf st2 0) = false →
            joined (playerOf st2 player) = true →
            wf (setOccupant toTile player
                  (setPlayer player
                     (mkPlayer toX toY (score (playerOf st2 player))
                        (joined (playerOf st2 player))) st2))) as Hplace.
  { intros st2 Hm2 Hs2 Hf2 H02 Hj2. split_and!.
    - apply (players_on_map_set st2); [done|]. by split.
    - apply occupants_place; [done|done|by rewrite Hj2|done].
    - change (playerOf _ 0) with
        (playerOf (setPlayer player
                     (mkPlayer toX toY (score (playerOf st2 player))
                        (joined (playerOf st2 player))) st2) 0).
      rewrite playerOf_setPlayer. by case_decide. }
  destruct (negb (victim =? 0) && negb (victim =? player)
            && joined (playerOf st1 victim)) eqn:Hkill.
  2:{ intros [= <-]. apply Hplace; try done; by rewrite Hpo1. }
  apply andb_true_iff in Hkill as [Hkill Hvj].
  apply andb_true_iff in Hkill as [Hv0 Hvp].
  apply negb_true_iff, Z.eqb_neq in Hv0, Hvp.
  destruct (2 ^ 32 <=? score (playerOf st player) + 1) eqn:Hov; [done|].
  set (me' := mkPlayer (x (playerOf st player)) (y (playerOf st player))
                (score (playerOf st player) + 1) true).
  set (st3 := setPlayer player me' (setLastActive player (timestamp blk) st1)).
  set (st4 := setOccupant toTile 0 st3).
  assert (tileOccupant st1 !! toTile = Some victim) as Hentry.
  { unfold victim, occupant in Hv0 |- *.
    by destruct (tileOccupant st1 !! toTile). }
  assert (playerOf st3 victim = playerOf st1 victim) as Hv3.
  { unfold st3. rewrite playerOf_setPlayer. by case_decide. }
  assert (occupants_stand st3) as Hst3.
  { unfold st3. by apply occupants_change. }
  assert (free st4 victim) as Hfv4.
  { destruct (Hst1 toTile victim Hentry Hv0) as [_ Htile].
    unfold st4. rewrite <- Htile, <- Hv3. by apply free_after_clear. }
  assert (free st4 player) as Hfp4.
  { unfold st4. apply free_setOccupant; [done|]. lia. }
  assert (players_on_map st3) as Hmap3.
  { unfold st3. apply players_on_map_set; [done|]. by split. }
  set (v := playerOf st4 victim).
  set (st5 := setPlayer victim (mkPlayer (x v) (y v) 0 true) st4).
  pose proof (spawn_on_map ctx blk (tileOccupant st5) victim
                (score (playerOf st player) + 1 + toTile)) as Hs.
  destruct (_spawn ctx blk (tileOccupant st5) victim
              (score (playerOf st player) + 1 + toTile)) as [rx ry].
  cbn [fst snd] in Hs.
  set (st6 := setPlayer victim (mkPlayer rx ry 0 true) st5).
  intros [= <-].
  assert (occupants_stand st5) as Hst5.
  { unfold st5. apply occupants_change; [|done]. by apply occupants_clear. }
  assert (free st5 victim) as Hfv5 by done.
  assert (players_on_map st5) as Hmap5.
  { unfold st5. apply players_on_map_set; [done|].
    apply (on_map_playerOf st4 victim). done. }
  assert (playerOf (setOccupant (_tileId rx ry) victim st6) player = me')
    as Hme.
  { change (playerOf _ player) with (playerOf st6 player).
    unfold st6. rewrite playerOf_setPlayer, decide_False by done.
    unfold st5. rewrite playerOf_setPlayer, decide_False by done.
    change (playerOf st4 player) with (playerOf st3 player).
    unfold st3. by rewrite playerOf_setPlayer, decide_True. }
  apply Hplace.
  - apply (players_on_map_set st5); [done|]. by destruct Hs.
  - by apply occupants_place.
  - apply free_setOccupant; [done|]. lia.
  - change (playerOf _ 0) with (playerOf st6 0).
    unfold st6. rewrite playerOf_setPlayer, decide_False by done.
    unfold st5. rewrite playerOf_setPlayer, decide_False by done.
    change (playerOf st4 0) with (playerOf st3 0).
    unfold st3. rewrite playerOf_setPlayer, decide_False by done. done.
  - by rewrite Hme.
Qed.

Lemma kick_wf blk player st st' :
  wf st → kickInactive blk player st = inr st' →
  wf st' ∧ free st' player ∧ joined (playerOf st' player) = false.
Proof.
  intros (Hmap & Hst & H0). unfold kickInactive.
  destruct (joined (playerOf st player)) eqn:Hj; [|done]. cbn [negb].
  assert (player ≠ 0) as Hp. { intros ->. by rewrite H0 in Hj. }
  case_match; [done|]. case_match; [done|].
  set (tile := _tileId (x (playerOf st player)) (y (playerOf st player))).
  set (st1 := if occupant (tileOccupant st) tile =? player
              then setOccupant tile 0 st else st).
  intros [= <-].
  assert (players st1 = players st) as Hp1.
  { unfold st1. by case_match. }
  assert (∀ a, playerOf st1 a = playerOf st a) as Hpo1.
  { intros a. unfold playerOf. by rewrite Hp1. }
  assert (occupants_stand st1 ∧ free st1 player) as [Hst1 Hfree1].
  { unfold st1. destruct (Z.eqb_spec (occupant (tileOccupant st) tile) player)
      as [Hocc|Hocc].
    - split; [by apply occupants_clear|by apply free_after_clear].
    - split; [done|]. intros t Ht.
      destruct (Hst t player Ht Hp) as [_ Htile]. fold tile in Htile.
      subst t. unfold occupant in Hocc. by rewrite Ht in Hocc. }
  set (p' := mkPlayer (x (playerOf st player)) (y (playerOf st player)) 0 false).
  assert (wf (setPlayer player p' st1)) as Hwf.
  { split_and!.
    - apply players_on_map_set.
      + intros a p. rewrite Hp1. apply Hmap.
      + apply (on_map_playerOf st player Hmap).
    - by apply occupants_change.
    - rewrite playerOf_setPlayer, decide_False by done. by rewrite Hpo1. }
  split_and!.
  - by apply (wf_same (setPlayer player p' st1)).
  - done.
  - change (playerOf _ player) with (playerOf (setPlayer player p' st1) player).
    by rewrite playerOf_setPlayer, decide_True.
Qed.

Lemma execute_wf blk c st st' :
  wf st → execute recover ctx blk c st = inr st' → wf st'.
Proof.
  intros Hwf. destruct c as [player newName nonce deadline sig
    |player nonce deadline sig|player dir nonce deadline sig|player];
    cbn [execute].
  - unfold setNameFor. destruct (_checkDeadline blk deadline); [done|].
    destruct (_useNonce player nonce st) as [|st1] eqn:Hn; [done|].
    apply useNonce_frame in Hn as (Hp & Ho & _).
    case_match; [done|]. destruct (_verify _ _ _ _); [done|].
    intros [= <-]. by apply (wf_same st).
  - unfold joinFor. destruct (_checkDeadline blk deadline); [done|].
    destruct (_useNonce player nonce st) as [|st1] eqn:Hn; [done|].
    apply useNonce_frame in Hn as (Hp & Ho & _).
    destruct (_verify _ _ _ _) as [|[]] eqn:Hv; [done|].
    apply verify_signer in Hv. intros [= <-].
    apply joinIfNeeded_wf; [done|]. by apply (wf_same st).
  - unfold moveFor. destruct (_checkDeadline blk deadline); [done|].
    destruct (_useNonce player nonce st) as [|st1] eqn:Hn; [done|].
    apply useNonce_frame in Hn as (Hp & Ho & _).
    destruct (_verify _ _ _ _) as [|[]] eqn:Hv; [done|].
    apply verify_signer in Hv. apply move_wf; [done|].
    by apply (wf_same st).
  - intros Hk. by apply (kick_wf blk player st).
Qed.

Lemma reachable_wf st : reachable recover ctx st → wf st.
Proof.
  induction 1 as [|st blk c st' _ IH Hex].
  - split_and!; [by intros a p|by intros tile a|done].
  - by apply (execute_wf blk c st).
Qed.

(** No transaction lowers a nonce. *)
Lemma execute_nonce blk c st st' a :
  execute recover ctx blk c st = inr st' → nonceOf st a ≤ nonceOf st' a.
Proof.
  assert (∀ player nonce st1, _useNonce player nonce st = inr st1 →
            nonceOf st a ≤ nonceOf st1 a) as Huse.
  { intros player nonce st1 (_ & _ & _ & _ & Hn & Hs)%useNonce_frame.
    unfold nonceOf in *. rewrite Hs, lookup_insert.
    case_decide; [subst; cbn; lia|lia]. }
  assert (∀ st1 st2, nonces st2 = nonces st1 →
            nonceOf st1 a = nonceOf st2 a) as Hsame.
  { intros st1 st2 Hn. unfold nonceOf. by rewrite Hn. }
  destruct c as [player newName nonce deadline sig
    |player nonce deadline sig|player dir nonce deadline sig|player];
    cbn [execute].
  - unfold setNameFor. destruct (_checkDeadline blk deadline); [done|].
    destruct (_useNonce player nonce st) as [|st1] eqn:Hn; [done|].
    case_match; [done|]. destruct (_verify _ _ _ _); [done|].
    intros [= <-]. etrans; [by apply (Huse player nonce)|].
    by apply Z.eq_le_incl, Hsame.
  - unfold joinFor. destruct (_checkDeadline blk deadline); [done|].
    destruct (_useNonce player nonce st) as [|st1] eqn:Hn; [done|].
    destruct (_verify _ _ _ _); [done|]. intros [= <-].
    etrans; [by apply (Huse player nonce)|]. apply Z.eq_le_incl, Hsame.
    unfold _joinIfNeeded. repeat case_match; done.
  - unfold moveFor. destruct (_checkDeadline blk deadline); [done|].
    destruct (_useNonce player nonce st) as [|st1] eqn:Hn; [done|].
    destruct (_verify _ _ _ _); [done|]. intros Hm.
    etrans; [by apply (Huse player nonce)|]. apply Z.eq_le_incl, Hsame.
    unfold _move in Hm. repeat case_match; simplify_eq; done.
  - unfold kickInactive. repeat case_match; try done; intros [= <-];
      by apply Z.eq_le_incl, Hsame.
Qed.

Lemma evolves_nonce st st' a :
  evolves recover ctx st st' → nonceOf st a ≤ nonceOf st' a.
Proof.
  induction 1 as [|st blk c st' st'' Hex _ IH]; [done|].
  etrans; [by eapply execute_nonce|done].
Qed.

End ArenaInvariant.
Section ArenaTheorems.
Import Arena ArenaGame ArenaDemo.
Local Open Scope Z_scope.

Lemma joinedState_run :
  execute recover ctx blk (JoinFor 5 0 0 []) empty = inr joinedState.
Proof. vm_compute. reflexivity. Qed.

Lemma joinedState_reachable : reachable recover ctx joinedState.
Proof.
  eapply reachable_step; [apply reachable_empty|apply joinedState_run].
Qed.

Lemma movedState_run :
  execute recover ctx blk (MoveFor 5 3 1 0 []) joinedState = inr movedState.
Proof. vm_compute. reflexivity. Qed.

Lemma kickedState_run :
  execute recover ctx later (KickInactive 5) joinedState = inr kickedState.
Proof. vm_compute. reflexivity. Qed.

(** X18. The players never leave the map: in every state of the contract
    the coordinates recorded for an address are below 64. *)
Theorem arena_players_stay_on_map recover ctx st a :
  reachable recover ctx st → on_map (playerOf st a).
Proof.
  intros (Hmap & _)%reachable_wf. by apply on_map_playerOf.
Qed.

Lemma arena_players_stay_on_map_witness :
  reachable recover ctx joinedState
  ∧ joined (playerOf joinedState 5) = true
  ∧ on_map (playerOf joinedState 5).
Proof.
  split; [apply joinedState_reachable|]. split; [vm_compute; reflexivity|].
  exact (arena_players_stay_on_map recover ctx joinedState 5
           joinedState_reachable).
Defined.

(** X19. A tile with an occupant holds a joined player who stands on it:
    the occupant recorded for a tile is a player who has joined and whose
    coordinates are those of the tile, so that nobody occupies two
    tiles. *)
Theorem arena_occupants_stand_on_their_tile recover ctx st tile tile' a :
  reachable recover ctx st →
  a ≠ 0 → occupant (tileOccupant st) tile = a →
  joined (playerOf st a) = true
  ∧ _tileId (x (playerOf st a)) (y (playerOf st a)) = tile
  ∧ 0 ≤ tile < 4096
  ∧ (occupant (tileOccupant st) tile' = a → tile' = tile).
Proof.
  intros (Hmap & Hst & _)%reachable_wf Ha Hocc.
  assert (∀ t, occupant (tileOccupant st) t = a →
               tileOccupant st !! t = Some a) as Hentry.
  { intros t Ht. unfold occupant in Ht.
    destruct (tileOccupant st !! t); cbn in Ht; by subst. }
  destruct (Hst tile a (Hentry _ Hocc) Ha) as [Hj Ht].
  split_and!; [done|done| | |].
  - pose proof (on_map_playerOf st a Hmap) as [Hx Hy].
    rewrite <- Ht, tileId_on_map by done. unfold MAP_SIZE in *. lia.
  - pose proof (on_map_playerOf st a Hmap) as [Hx Hy].
    rewrite <- Ht, tileId_on_map by done. unfold MAP_SIZE in *. lia.
  - intros Hocc'. destruct (Hst tile' a (Hentry _ Hocc') Ha) as [_ Ht'].
    by rewrite <- Ht, <- Ht'.
Qed.

Lemma arena_occupants_stand_on_their_tile_witness :
  reachable recover ctx joinedState
  ∧ joined (playerOf joinedState 5) = true
  ∧ occupant (tileOccupant joinedState)
      (_tileId (x (playerOf joinedState 5)) (y (playerOf joinedState 5))) = 5.
Proof.
  assert (occupant (tileOccupant joinedState)
            (_tileId (x (playerOf joinedState 5))
               (y (playerOf joinedState 5))) = 5) as Hocc
    by (vm_compute; reflexivity).
  split; [apply joinedState_reachable|]. split; [|exact Hocc].
  exact (proj1 (arena_occupants_stand_on_their_tile recover ctx joinedState
                  _ 0 5 joinedState_reachable ltac:(lia) Hocc)).
Defined.

Lemma useNonce_result player nonce st st1 :
  _useNonce player nonce st = inr st1 →
  nonceOf st player = nonce ∧ nonceOf st1 player = nonce + 1.
Proof.
  intros (_ & _ & _ & _ & Hn & Hs)%useNonce_frame. split; [done|].
  unfold nonceOf. by rewrite Hs, lookup_insert_eq.
Qed.

Lemma execute_intent recover ctx blk c st st' player nonce :
  execute recover ctx blk c st = inr st' →
  intent c = Some (player, nonce) →
  nonceOf st player = nonce ∧ nonceOf st' player = nonce + 1.
Proof.
  assert (∀ st1 st2, nonces st2 = nonces st1 →
            nonceOf st2 player = nonceOf st1 player) as Hsame.
  { intros st1 st2 Hn. unfold nonceOf. by rewrite Hn. }
  destruct c as [p newName n deadline sig|p n deadline sig
                |p dir n deadline sig|p]; cbn [execute intent];
    intros Hex [= -> ->]; revert Hex.
  - unfold setNameFor. destruct (_checkDeadline blk deadline); [done|].
    destruct (_useNonce player nonce st) as [|st1] eqn:Hn; [done|].
    case_match; [done|]. destruct (_verify _ _ _ _); [done|].
    intros [= <-]. destruct (useNonce_result _ _ _ _ Hn) as [H1 H2].
    split; [done|]. by rewrite <- H2.
  - unfold joinFor. destruct (_checkDeadline blk deadline); [done|].
    destruct (_useNonce player nonce st) as [|st1] eqn:Hn; [done|].
    destruct (_verify _ _ _ _); [done|]. intros [= <-].
    destruct (useNonce_result _ _ _ _ Hn) as [H1 H2]. split; [done|].
    rewrite <- H2. apply Hsame. unfold _joinIfNeeded.
    repeat case_match; done.
  - unfold moveFor. destruct (_checkDeadline blk deadline); [done|].
    destruct (_useNonce player nonce st) as [|st1] eqn:Hn; [done|].
    destruct (_verify _ _ _ _); [done|]. intros Hm.
    destruct (useNonce_result _ _ _ _ Hn) as [H1 H2]. split; [done|].
    rewrite <- H2. apply Hsame. unfold _move in Hm.
    repeat case_match; simplify_eq; done.
Qed.

(** X20. A nonce is used once: after a relayed call of a player has
    succeeded with a nonce, every later call of that player with the same
    nonce reverts, whatever the kind of call, its other arguments and its
    signature, and however many transactions came in between; the error is
    [BadNonce], or [Expired] when the deadline has passed. *)
Theorem arena_nonce_used_once recover ctx blk c st st1 st2 blk' c' :
  execute recover ctx blk c st = inr st1 →
  evolves recover ctx st1 st2 →
  is_Some (intent c) → intent c' = intent c →
  execute recover ctx blk' c' st2 = inl BadNonce
  ∨ execute recover ctx blk' c' st2 = inl Expired.
Proof.
  intros Hex Hev [[player nonce] Hi] Hi'. rewrite Hi in Hi'.
  destruct (execute_intent _ _ _ _ _ _ _ _ Hex Hi) as [_ Hn1].
  pose proof (evolves_nonce recover ctx st1 st2 player Hev) as Hle.
  assert (_useNonce player nonce st2 = inl BadNonce) as Hbad.
  { unfold _useNonce. destruct (Z.eqb_spec (nonceOf st2 player) nonce); [lia|].
    done. }
  assert (∀ deadline, _checkDeadline blk' deadline = inl Expired
                      ∨ _checkDeadline blk' deadline = inr tt) as Hdl.
  { intros deadline. unfold _checkDeadline. case_match; by auto. }
  destruct c' as [p newName n deadline sig|p n deadline sig
                 |p dir n deadline sig|p]; cbn [intent] in Hi'; [..|done];
    injection Hi' as -> ->; cbn [execute].
  - unfold setNameFor. destruct (Hdl deadline) as [-> | ->]; [by right|].
    rewrite Hbad. by left.
  - unfold joinFor. destruct (Hdl deadline) as [-> | ->]; [by right|].
    rewrite Hbad. by left.
  - unfold moveFor. destruct (Hdl deadline) as [-> | ->]; [by right|].
    rewrite Hbad. by left.
Qed.

Lemma arena_nonce_used_once_witness :
  execute recover ctx blk (JoinFor 5 0 0 []) empty = inr joinedState
  ∧ (execute recover ctx later (MoveFor 5 1 0 0 []) movedState = inl BadNonce
     ∨ execute recover ctx later (MoveFor 5 1 0 0 []) movedState
       = inl Expired).
Proof.
  split; [apply joinedState_run|].
  apply (arena_nonce_used_once recover ctx blk (JoinFor 5 0 0 []) empty
           joinedState movedState later (MoveFor 5 1 0 0 [])).
  - apply joinedState_run.
  - eapply evolves_step; [apply movedState_run|apply evolves_refl].
  - by eexists.
  - reflexivity.
Defined.

(** X21. A move goes to a neighbouring tile or nowhere: after a
    successful [moveFor] the direction is at most 3, the player is still
    joined and on the map, and the new coordinates differ from the old
    ones by at most one step along one axis. *)
Theorem moveFor_moves_one_tile recover ctx blk st st'
    player dir nonce deadline sig :
  reachable recover ctx st →
  execute recover ctx blk (MoveFor player dir nonce deadline sig) st
  = inr st' →
  dir ≤ 3
  ∧ joined (playerOf st player) = true
  ∧ joined (playerOf st' player) = true
  ∧ on_map (playerOf st' player)
  ∧ Z.abs (x (playerOf st' player) - x (playerOf st player))
    + Z.abs (y (playerOf st' player) - y (playerOf st player)) ≤ 1.
Proof.
  intros Hreach Hex.
  pose proof (reachable_wf _ _ _ Hreach) as (Hmap & _).
  assert (on_map (playerOf st' player)) as Hon.
  { apply on_map_playerOf.
    by destruct (reachable_wf _ _ _ (reachable_step _ _ _ _ _ _ Hreach Hex)). }
  cbn [execute] in Hex. unfold moveFor in Hex.
  destruct (_checkDeadline blk deadline); [done|].
  destruct (_useNonce player nonce st) as [|st1] eqn:Hn; [done|].
  apply useNonce_frame in Hn as (Hp & _).
  destruct (_verify _ _ _ _); [done|].
  set (st2 := setLastActive player (timestamp blk) st1) in Hex.
  assert (playerOf st2 player = playerOf st player) as Hme.
  { unfold playerOf. cbn. by rewrite Hp. }
  unfold _move in Hex. rewrite Hme in Hex.
  destruct (Z.gtb_spec dir 3) as [|Hdir]; [done|].
  destruct (joined (playerOf st player)) eqn:Hj; [|done]. cbn [negb] in Hex.
  pose proof (on_map_playerOf st player Hmap) as [Hx Hy].
  pose proof (applyDir_on_map (x (playerOf st player)) (y (playerOf st player))
                dir Hx Hy) as (_ & _ & Hstep).
  destruct (_applyDir (x (playerOf st player)) (y (playerOf st player)) dir)
    as [toX toY]. cbn [fst snd] in Hstep.
  destruct ((toX =? x (playerOf st player)) && (toY =? y (playerOf st player)))
    eqn:Hsame.
  { injection Hex as <-. rewrite Hme, Hj.
    repeat split; try done; try lia; apply (on_map_playerOf st player Hmap). }
  assert (∀ stk, playerOf
            (setOccupant (_tileId toX toY) player
               (setPlayer player
                  (mkPlayer toX toY (score (playerOf stk player))
                     (joined (playerOf stk player))) stk)) player
          = mkPlayer toX toY (score (playerOf stk player))
              (joined (playerOf stk player))) as Hfinal.
  { intros stk. unfold playerOf at 1. cbn. by rewrite lookup_insert_eq. }
  destruct (negb _ && negb _ && joined _) eqn:Hkill in Hex.
  - destruct (2 ^ 32 <=? score (playerOf st player) + 1); [done|].
    destruct (_spawn _ _ _ _ _) as [rx ry] in Hex.
    injection Hex as <-. rewrite Hfinal in Hon |- *. cbn [x y joined] in *.
    match goal with
    | |- context [joined (playerOf ?s player)] =>
        assert (joined (playerOf s player) = true) as Hjk
    end.
    { apply andb_true_iff in Hkill as [Hkill _].
      apply andb_true_iff in Hkill as [_ Hvp].
      apply negb_true_iff, Z.eqb_neq in Hvp.
      unfold playerOf. cbn.
      by rewrite lookup_insert_ne, lookup_insert_ne, lookup_insert_eq. }
    rewrite Hjk. repeat split; try done; try lia; apply Hon.
  - injection Hex as <-. rewrite Hfinal in Hon |- *. cbn [x y joined] in *.
    change (playerOf (setOccupant _ 0 st2) player) with (playerOf st2 player).
    rewrite Hme, Hj. repeat split; try done; try lia; apply Hon.
Qed.

Lemma moveFor_moves_one_tile_witness :
  reachable recover ctx joinedState
  ∧ execute recover ctx blk (MoveFor 5 3 1 0 []) joinedState = inr movedState
  ∧ Z.abs (x (playerOf movedState 5) - x (playerOf joinedState 5))
    + Z.abs (y (playerOf movedState 5) - y (playerOf joinedState 5)) ≤ 1.
Proof.
  split; [apply joinedState_reachable|]. split; [apply movedState_run|].
  exact (proj2 (proj2 (proj2 (proj2
           (moveFor_moves_one_tile recover ctx blk joinedState movedState
              5 3 1 0 [] joinedState_reachable movedState_run))))).
Defined.

(** X22. On the map the tile number determines the tile: two pairs of
    coordinates below 64 with the same [_tileId] are equal, and the
    number is below 4096. *)
Theorem tileId_injective_on_map x1 y1 x2 y2 :
  0 ≤ x1 < MAP_SIZE → 0 ≤ y1 < MAP_SIZE →
  0 ≤ x2 < MAP_SIZE → 0 ≤ y2 < MAP_SIZE →
  0 ≤ _tileId x1 y1 < 4096
  ∧ (_tileId x1 y1 = _tileId x2 y2 → x1 = x2 ∧ y1 = y2).
Proof.
  intros Hx1 Hy1 Hx2 Hy2. rewrite !tileId_on_map by done.
  unfold MAP_SIZE in *. lia.
Qed.

Lemma tileId_injective_on_map_witness :
  0 ≤ _tileId 3 5 < 4096 ∧ (_tileId 3 5 = _tileId 3 5 → 3 = 3 ∧ 5 = 5).
Proof.
  apply (tileId_injective_on_map 3 5 3 5); unfold MAP_SIZE; lia.
Defined.

(** X23. [kickInactive] removes a joined player who has been inactive for
    more than 15 seconds, and nothing else: when it succeeds the player
    was joined and the block is later than the last activity plus 15;
    afterwards the player is not joined, has score 0, no name and no last
    activity, and occupies no tile. *)
Theorem kickInactive_removes_player recover ctx blk st st' player :
  reachable recover ctx st →
  execute recover ctx blk (KickInactive player) st = inr st' →
  joined (playerOf st player) = true
  ∧ lastActive st player + INACTIVITY_TIMEOUT < timestamp blk
  ∧ joined (playerOf st' player) = false
  ∧ score (playerOf st' player) = 0
  ∧ nameOfPlayer st' player = replicate 12 0
  ∧ lastActive st' player = 0
  ∧ free st' player.
Proof.
  intros Hreach Hex. pose proof (reachable_wf _ _ _ Hreach) as Hwf.
  cbn [execute] in Hex.
  destruct (kick_wf blk player st st' Hwf Hex) as (_ & Hfree & Hj').
  unfold kickInactive in Hex.
  destruct (joined (playerOf st player)) eqn:Hj; [|done]. cbn [negb] in Hex.
  case_match; [done|].
  destruct (Z.leb_spec (timestamp blk) (lastActive st player + INACTIVITY_TIMEOUT));
    [done|].
  injection Hex as <-. split_and!; try done.
  - unfold playerOf. cbn. by rewrite lookup_insert_eq.
  - unfold nameOfPlayer. cbn. by rewrite lookup_insert_eq.
  - unfold lastActive. cbn. by rewrite lookup_insert_eq.
Qed.

Lemma kickInactive_removes_player_witness :
  reachable recover ctx joinedState
  ∧ execute recover ctx later (KickInactive 5) joinedState = inr kickedState
  ∧ joined (playerOf kickedState 5) = false
  ∧ free kickedState 5.
Proof.
  split; [apply joinedState_reachable|]. split; [apply kickedState_run|].
  destruct (kickInactive_removes_player recover ctx later joinedState
              kickedState 5 joinedState_reachable kickedState_run)
    as (_ & _ & Hj & _ & _ & _ & Hfree).
  split; [exact Hj|exact Hfree].
Defined.

End ArenaTheorems.

(* ------------------------------------------------------------------ *)
(** ** The client: names that reach the contract *)

Section ClientFacts.
Import Js Wf Names Client Arena ArenaGame.
Local Open Scope Z_scope.

Lemma isNameChar_ascii c : isNameChar c = true → 32 ≤ c < 0x80.
Proof. unfold isNameChar. intros H. lia. Qed.

Lemma ascii_encoding s :
  Forall (λ c, 32 ≤ c < 0x80) s →
  wellFormed s = true ∧ toUtf8Bytes s = Some s ∧ Forall code_unit s
  ∧ last s ≠ Some 0.
Proof.
  induction 1 as [|c s Hc Hs (Hwf & Henc & Hcu & Hlast)]; [done|].
  split_and!.
  - cbn [wellFormed]. unfold isHighSurrogate, isLowSurrogate.
    rewrite Hwf. destruct (Z.leb_spec 0xd800 c); [lia|].
    destruct (Z.leb_spec 0xdc00 c); [lia|]. done.
  - cbn [toUtf8Bytes]. destruct (Z.ltb_spec c 0x80); [|lia].
    by rewrite Henc.
  - constructor; [unfold code_unit; lia|done].
  - destruct s as [|c' s']; [cbn; intros [=]; lia|]. done.
Qed.

Lemma trimStart_length s : (length (trimStart s) ≤ length s)%nat.
Proof.
  induction s as [|c s IH]; [done|]. cbn. case_match; cbn; lia.
Qed.

Lemma trim_length s : (length (trim s) ≤ length s)%nat.
Proof.
  unfold trim, trimEnd. rewrite length_reverse.
  etrans; [apply trimStart_length|]. rewrite length_reverse.
  apply trimStart_length.
Qed.

(** The round trip of a name that is well-formed, fits and does not end
    in U+0000. *)
Lemma names_decode name bytes :
  Forall code_unit name →
  wellFormed (trim name) = true →
  toUtf8Bytes (trim name) = Some bytes → (length bytes ≤ 12)%nat →
  last (trim name) ≠ Some 0 →
  ∃ b12, toBytes12FromName (Some name) = Some b12
         ∧ bytes12ToString b12 = Some (trim name).
Proof.
  intros Hname Hwf Henc Hlen Hlast.
  pose proof (toUtf8Bytes_Encodes _ _ (trim_Forall _ _ Hname) Henc) as He.
  pose proof (Encodes_length _ _ He) as Hle.
  assert (take 12 (trim name) = trim name) as Htk by (apply take_ge; lia).
  rewrite <- Htk in Henc.
  assert (take 12 (bytes ++ replicate 12 0)
          = bytes ++ replicate (12 - length bytes) 0) as Hpad.
  { rewrite take_app_ge by lia. f_equal.
    by rewrite take_replicate, Nat.min_l by lia. }
  assert (Forall is_byte (take 12 (bytes ++ replicate 12 0))) as Hby.
  { apply Forall_take, Forall_app. split; [|apply is_byte_zeros].
    apply (Encodes_bytes (trim name)); [done|by apply trim_Forall]. }
  eexists. split; [by apply toBytes12FromName_bytes|].
  unfold bytes12ToString. rewrite getBytes_hexlify by done.
  cbn [mbind option_bind]. rewrite Hpad.
  rewrite length_app, stripEnd_zeros.
  - rewrite take_app_length. by apply Encodes_decode.
  - apply (Encodes_last (trim name)); [done|by apply trim_Forall|done].
  - by apply Forall_replicate.
  - by rewrite length_replicate.
Qed.

(** X24. A sanitized name always survives the trip to the chain and back,
    up to white space at its ends: whatever the player types, the name
    that [sanitizeName] makes of it holds at most 12 characters, all of
    them letters, digits, spaces, "_", "." or "-"; [toBytes12FromName]
    accepts it, and [bytes12ToString] returns it with the white space
    around it removed. *)
Theorem sanitized_name_round_trip (input : option (list Z)) :
  (length (sanitizeName input) ≤ 12)%nat
  ∧ Forall (λ c, isNameChar c = true) (sanitizeName input)
  ∧ ∃ b12,
      toBytes12FromName (Some (sanitizeName input)) = Some b12
      ∧ bytes12ToString b12 = Some (trim (sanitizeName input)).
Proof.
  assert (Forall (λ c, isNameChar c = true) (sanitizeName input)) as Hchars.
  { unfold sanitizeName. apply Forall_forall.
    intros c [Hc _]%list_elem_of_filter. by apply Is_true_true. }
  assert (length (sanitizeName input) ≤ 12)%nat as Hlen.
  { unfold sanitizeName. etrans; [apply length_filter|].
    rewrite length_take. lia. }
  assert (Forall (λ c, 32 ≤ c < 0x80) (sanitizeName input)) as Hascii.
  { eapply Forall_impl; [done|]. intros c. apply isNameChar_ascii. }
  destruct (ascii_encoding _ Hascii) as (_ & _ & Hcu & _).
  destruct (ascii_encoding _ (trim_Forall _ _ Hascii))
    as (Hwf & Henc & _ & Hlast).
  split_and!; [done..|].
  apply (names_decode _ (trim (sanitizeName input))); try done.
  etrans; [apply trim_length|done].
Qed.

(** X25. A blank name is refused by the contract.  A name that is empty
    once the white space around it is removed, such as the sanitized name
    of one space that [sanitizeName] makes of "é é", is sent as twelve
    zero bytes, and [setNameFor] reverts on that payload whatever the
    other arguments. *)
Theorem blank_name_is_refused (name : list Z)
    recover ctx blk player nonce deadline sig st :
  trim name = [] →
  toBytes12FromName (Some name) = Some (hexlify (replicate 12 0))
  ∧ getBytes (hexlify (replicate 12 0)) = Some (replicate 12 0)
  ∧ ∃ e, setNameFor recover ctx blk player (replicate 12 0) nonce deadline
           sig st = inl e.
Proof.
  intros Htrim. split_and!.
  - unfold toBytes12FromName. change (default [] (Some name)) with name.
    rewrite Htrim. reflexivity.
  - reflexivity.
  - unfold setNameFor. destruct (_checkDeadline blk deadline); [by eexists|].
    destruct (_useNonce player nonce st); [by eexists|].
    rewrite bool_decide_eq_true_2 by done. by eexists.
Qed.

Lemma blank_name_is_refused_witness :
  sanitizeName (Some [233; 32; 233]) = [32]
  ∧ toBytes12FromName (Some [32]) = Some (hexlify (replicate 12 0))
  ∧ ∃ e, setNameFor ArenaDemo.recover ArenaDemo.ctx ArenaDemo.blk 5
           (replicate 12 0) 0 0 [] ArenaGame.empty = inl e.
Proof.
  split; [reflexivity|].
  destruct (blank_name_is_refused [32] ArenaDemo.recover ArenaDemo.ctx
              ArenaDemo.blk 5 0 0 [] ArenaGame.empty eq_refl)
    as (H1 & _ & H2).
  split; [exact H1|exact H2].
Defined.

End ClientFacts.

(* ------------------------------------------------------------------ *)
(** ** The signed bytes *)

Section PreimageFacts.
Import Wf Arena Abi.
Local Open Scope Z_scope.

Lemma beValue_beBytes n v :
  0 ≤ v < 256 ^ Z.of_nat n → beValue (beBytes n v) = v.
Proof.
  revert v. induction n as [|n IH]; intros v Hv.
  { cbn in Hv. assert (v = 0) as -> by lia. done. }
  rewrite beBytes_S, beValue_snoc, IH by by apply div256_bound.
  pose proof (Z.div_mod v 256 ltac:(lia)). lia.
Qed.

Lemma beBytes_inj n v w :
  0 ≤ v < 256 ^ Z.of_nat n → 0 ≤ w < 256 ^ Z.of_nat n →
  beBytes n v = beBytes n w → v = w.
Proof.
  intros Hv Hw Heq. rewrite <- (beValue_beBytes n v), <- (beValue_beBytes n w)
    by done. by rewrite Heq.
Qed.

(** X26. The bytes that are hashed and signed carry their kind: the
    packing of a join has 117 bytes, that of a move 118 and that of a
    set-name 129, and the byte after the 32 bytes of the domain is the
    action type, 1, 2 or 0; no packing of one action is the packing of
    another. *)
Theorem digest_preimages_are_tagged ctx
    player nonce deadline dir (newName : list Z) :
  length newName = 12%nat →
  (length (encodePacked
             [BytesN 32 (_commonDomain ctx); Enum JOIN; Address player;
              Uint 256 nonce; Uint 256 deadline]) = 117%nat
   ∧ encodePacked
       [BytesN 32 (_commonDomain ctx); Enum JOIN; Address player;
        Uint 256 nonce; Uint 256 deadline] !! 32%nat = Some 1)
  ∧ (length (encodePacked
               [BytesN 32 (_commonDomain ctx); Enum MOVE; Address player;
                Uint 8 dir; Uint 256 nonce; Uint 256 deadline]) = 118%nat
     ∧ encodePacked
         [BytesN 32 (_commonDomain ctx); Enum MOVE; Address player;
          Uint 8 dir; Uint 256 nonce; Uint 256 deadline] !! 32%nat = Some 2)
  ∧ (length (encodePacked
               [BytesN 32 (_commonDomain ctx); Enum SET_NAME; Address player;
                BytesN 12 newName; Uint 256 nonce; Uint 256 deadline])
     = 129%nat
     ∧ encodePacked
         [BytesN 32 (_commonDomain ctx); Enum SET_NAME; Address player;
          BytesN 12 newName; Uint 256 nonce; Uint 256 deadline] !! 32%nat
       = Some 0).
Proof.
  intros Hname.
  pose proof (keccak256_length
                (encodePacked [Uint 256 (chainid ctx); Address (this ctx)]))
    as Hd. fold (_commonDomain ctx) in Hd.
  generalize dependent (_commonDomain ctx). intros d Hd.
  rewrite encodePacked_join, encodePacked_move, encodePacked_setName.
  cbn [concat]. rewrite !length_app, !beBytes_length, Hd, Hname.
  split_and!; try done; by rewrite lookup_app_r, Hd by lia.
Qed.

Lemma digest_preimages_are_tagged_witness :
  length (encodePacked
            [BytesN 32 (_commonDomain (Context 10143 0xa1)); Enum JOIN;
             Address 5; Uint 256 0; Uint 256 0]) = 117%nat
  ∧ length (encodePacked
            [BytesN 32 (_commonDomain (Context 10143 0xa1)); Enum MOVE;
             Address 5; Uint 8 3; Uint 256 0; Uint 256 0]) = 118%nat.
Proof.
  destruct (digest_preimages_are_tagged (Context 10143 0xa1) 5 0 0 3
              (replicate 12 7) eq_refl) as ((H1 & _) & (H2 & _) & _).
  split; [exact H1|exact H2].
Defined.

(** X27. The signed bytes determine the intent.  The packing behind the
    domain determines the chain and the contract, and the packing of a
    move determines the domain, the player, the direction, the nonce and
    the deadline, as long as the values are in the range of their types:
    two moves that differ in one of them are signed over different
    bytes. *)
Theorem digest_preimages_determine_intent
    c1 a1 c2 a2 (d1 d2 : list Z) p1 dir1 n1 dl1 p2 dir2 n2 dl2 :
  0 ≤ c1 < 2 ^ 256 → 0 ≤ c2 < 2 ^ 256 →
  0 ≤ a1 < 2 ^ 160 → 0 ≤ a2 < 2 ^ 160 →
  length d1 = 32%nat → length d2 = 32%nat →
  0 ≤ p1 < 2 ^ 160 → 0 ≤ p2 < 2 ^ 160 →
  0 ≤ dir1 < 256 → 0 ≤ dir2 < 256 →
  0 ≤ n1 < 2 ^ 256 → 0 ≤ n2 < 2 ^ 256 →
  0 ≤ dl1 < 2 ^ 256 → 0 ≤ dl2 < 2 ^ 256 →
  (encodePacked [Uint 256 c1; Address a1]
   = encodePacked [Uint 256 c2; Address a2] → c1 = c2 ∧ a1 = a2)
  ∧ (encodePacked
       [BytesN 32 d1; Enum MOVE; Address p1; Uint 8 dir1; Uint 256 n1;
        Uint 256 dl1]
     = encodePacked
         [BytesN 32 d2; Enum MOVE; Address p2; Uint 8 dir2; Uint 256 n2;
          Uint 256 dl2] →
     d1 = d2 ∧ p1 = p2 ∧ dir1 = dir2 ∧ n1 = n2 ∧ dl1 = dl2).
Proof.
  intros Hc1 Hc2 Ha1 Ha2 Hd1 Hd2 Hp1 Hp2 Hdir1 Hdir2 Hn1 Hn2 Hdl1 Hdl2.
  assert (256 ^ Z.of_nat 32 = 2 ^ 256) as H32 by reflexivity.
  assert (256 ^ Z.of_nat 20 = 2 ^ 160) as H20 by reflexivity.
  assert (256 ^ Z.of_nat 1 = 256) as H1 by reflexivity.
  split.
  - rewrite !encodePacked_domain. cbn [concat]. rewrite !app_nil_r.
    intros [Hc Ha]%app_inj_1; [|by rewrite !beBytes_length].
    split; [apply (beBytes_inj 32)|apply (beBytes_inj 20)];
      by rewrite ?H32, ?H20.
  - rewrite !encodePacked_move. cbn [concat]. rewrite !app_nil_r.
    intros [Hd Hrest]%app_inj_1; [|by rewrite Hd1, Hd2].
    apply app_inj_1 in Hrest as [_ Hrest]; [|by rewrite !beBytes_length].
    apply app_inj_1 in Hrest as [Hp Hrest]; [|by rewrite !beBytes_length].
    apply app_inj_1 in Hrest as [Hdir Hrest]; [|by rewrite !beBytes_length].
    apply app_inj_1 in Hrest as [Hn Hdl]; [|by rewrite !beBytes_length].
    split_and!; [done|apply (beBytes_inj 20)|apply (beBytes_inj 1)
                |apply (beBytes_inj 32)|apply (beBytes_inj 32)];
      by rewrite ?H32, ?H20, ?H1.
Qed.

(** The same contract on two chains: the bytes behind the domain
    differ. *)
Lemma digest_preimages_determine_intent_witness :
  0 ≤ 10143 < 2 ^ 256
  ∧ encodePacked [Uint 256 10143; Address 0xa1]
    ≠ encodePacked [Uint 256 1; Address 0xa1].
Proof.
  split; [lia|]. intros Heq.
  assert (10143 = 1 ∧ 0xa1 = 0xa1) as [Hc _]; [|lia].
  refine (proj1 (digest_preimages_determine_intent 10143 0xa1 1 0xa1
                   (replicate 32 0) (replicate 32 0) 5 3 0 0 5 3 0 0
                   _ _ _ _ _ _ _ _ _ _ _ _ _ _) Heq); try reflexivity; lia.
Defined.

End PreimageFacts.
